(** * base/angle.h: the [Angle] value type

    A shallow embedding of [base::Angle] (src/base/angle.h).  The class is
    written once, over the part of <math.h> it uses ([MathH]); the arithmetic
    of [double] is then supplied twice:

    - [Binary64]: IEEE 754 binary64 with round-to-nearest-even, through the
      kernel's primitive floats.  This is what the compiled code computes,
      and every definition evaluates there.
      Each operation of the source is one correctly rounded operation, in
      the order the expression is written (no fused multiply-add, no
      extended precision).
    - [Exact]: the same operations over the real numbers, without rounding.
      This is a reference: what the formulas denote when nothing is rounded.
      It is not what the compiled code computes.

    What the code returns is stated in [Binary64]: on given doubles by
    evaluation, for every double from the IEEE specification of the
    operations.  Values of doubles enter statements about congruence and
    accuracy as real numbers, through [B2R]; the bounds come from a study of
    rounding to nearest at the end of the file (the interval [canonize]
    lands in, then the error of each operation and of [canonize] as a
    whole).  Where a statement is also given in [Exact], it is given next to
    its binary64 form. *)

From Stdlib Require Import Reals Lra Lia ZArith Bool.
From Stdlib Require Import Floats Uint63.

(** ** The part of <math.h> and of [double] that angle.h uses *)

Class MathH (double : Type) : Type := {
  (** the constant [M_PI] *)
  M_PI : double;
  (** integer-valued literals: [2], [180], [180.0] *)
  lit : Z -> double;
  (** the literal [1e-5] *)
  lit_1e_5 : double;
  dadd : double -> double -> double;
  dsub : double -> double -> double;
  dmul : double -> double -> double;
  ddiv : double -> double -> double;
  dneg : double -> double;
  (** [x < y], [x <= y]; [x > y] is [dlt y x] *)
  dlt : double -> double -> bool;
  dle : double -> double -> bool;
  fabs : double -> double;
  (** [copysign x y]: the magnitude of [x] with the sign of [y] *)
  copysign : double -> double -> double;
  (** [modf x]: the fractional part (the returned value) and the integral
      part (stored through the pointer), both with the sign of [x] *)
  modf : double -> double * double
}.

Declare Scope dbl_scope.
Delimit Scope dbl_scope with dbl.
Notation "x + y" := (dadd x y) : dbl_scope.
Notation "x - y" := (dsub x y) : dbl_scope.
Notation "x * y" := (dmul x y) : dbl_scope.
Notation "x / y" := (ddiv x y) : dbl_scope.
Notation "- x" := (dneg x) : dbl_scope.
Notation "x < y" := (dlt x y) : dbl_scope.
Notation "x <= y" := (dle x y) : dbl_scope.
Notation "x > y" := (dlt y x) (only parsing) : dbl_scope.

(** ** class Angle *)

Section AngleClass.
Context {double : Type} {libm : MathH double}.
Local Open Scope dbl_scope.

(** [double rad;] the only data member. *)
Record Angle : Type := mkAngle { rad : double }.

(** [void canonize()]: the object after the call. *)
Definition canonize (this : Angle) : Angle :=
  if (rad this > M_PI) || (rad this <= - M_PI) then
    let side := copysign M_PI (rad this) in
    let '(frac, intp) := modf ((rad this - side) / (lit 2 * M_PI)) in
    {| rad := - side + lit 2 * M_PI * frac |}
  else this.

(** [explicit Angle( double rad ) : rad(rad) { canonize(); }] *)
Definition Angle_of (r : double) : Angle := canonize {| rad := r |}.

Definition rad2Deg (r : double) : double := r / M_PI * lit 180.
Definition deg2Rad (deg : double) : double := deg / lit 180 * M_PI.

Definition fromRad (r : double) : Angle := Angle_of r.
Definition fromDeg (deg : double) : Angle := Angle_of (deg / lit 180 * M_PI).

Definition getRad (this : Angle) : double := rad this.
Definition getDeg (this : Angle) : double := rad this / M_PI * lit 180.

(** [bool isApprox( Angle other, double prec = 1e-5 )] with the argument
    given, and with it left to its default. *)
Definition isApprox (this other : Angle) (prec : double) : bool :=
  fabs (rad other - rad this) < prec.
Definition isApprox_default (this other : Angle) : bool :=
  isApprox this other lit_1e_5.

(** [operator+], [operator-], [operator*( Angle, double )] and
    [operator*( double, Angle )]. *)
Definition operator_add (a b : Angle) : Angle := fromRad (getRad a + getRad b).
Definition operator_sub (a b : Angle) : Angle := fromRad (getRad a - getRad b).
Definition operator_mul (a : Angle) (b : double) : Angle := fromRad (getRad a * b).
Definition operator_mul_l (a : double) (b : Angle) : Angle := fromRad (a * getRad b).
End AngleClass.

Arguments Angle double : clear implicits.
Arguments mkAngle {double} rad.

(** ** IEEE 754 binary64 *)

Module Binary64.
Local Open Scope float_scope.

(** [M_PI] is 3.14159265358979323846 rounded to binary64. *)
Definition pi64 : float := 0x1.921fb54442d18p+1.

(** [1e-5] rounded to binary64. *)
Definition prec64 : float := 0x1.4f8b588e368f1p-17.

Definition of_pos (p : positive) : float := of_uint63 (Uint63.of_Z (Zpos p)).

(** Integer literals; exact below 2^53. *)
Definition of_Z (z : Z) : float :=
  match z with
  | Z0 => 0
  | Zpos p => of_pos p
  | Zneg p => - of_pos p
  end.

(** The sign bit selects the result; on a NaN second argument the sign is
    the one [get_sign] reports ([canonize] never passes a NaN here). *)
Definition copysign64 (x y : float) : float :=
  if get_sign y then - abs x else abs x.

(** Rounding towards zero to an integral value. *)
Definition trunc64 (x : float) : float :=
  match Prim2SF x with
  | S754_finite s m e =>
      if (0 <=? e)%Z then x
      else
        let i := of_uint63 (Uint63.of_Z (Z.shiftr (Zpos m) (- e))) in
        if s then - i else i
  | _ => x
  end.

(** [modf]: on an infinity the fractional part is a zero of the same sign;
    otherwise it is [x - trunc x], which is exact, with the sign of [x]. *)
Definition modf64 (x : float) : float * float :=
  if is_infinity x then (copysign64 0 x, x)
  else let i := trunc64 x in (copysign64 (x - i) x, i).

#[export] Instance libm64 : MathH float := {|
  M_PI := pi64;
  lit := of_Z;
  lit_1e_5 := prec64;
  dadd := PrimFloat.add;
  dsub := PrimFloat.sub;
  dmul := PrimFloat.mul;
  ddiv := PrimFloat.div;
  dneg := PrimFloat.opp;
  dlt := PrimFloat.ltb;
  dle := PrimFloat.leb;
  fabs := PrimFloat.abs;
  copysign := copysign64;
  modf := modf64
|}.
End Binary64.

(** ** Exact real arithmetic

    A second instance of the interface, with the real numbers for [double]:
    what the formulas of angle.h denote when nothing is rounded.  It is a
    reference to read the binary64 results against, not a model of the
    compiled code; what is said of the program is said of [libm64]. *)

Module Exact.
Local Open Scope R_scope.

Definition Rltb (x y : R) : bool := if Rlt_dec x y then true else false.
Definition Rleb (x y : R) : bool := if Rle_dec x y then true else false.

(** There is no negative zero: the sign of [y] is negative iff [y < 0]. *)
Definition Rcopysign (x y : R) : R :=
  if Rlt_dec y 0 then - Rabs x else Rabs x.

(** Rounding towards zero. *)
Definition Rtrunc (x : R) : Z :=
  if Rlt_dec x 0 then (- Int_part (- x))%Z else Int_part x.

Definition Rmodf (x : R) : R * R := (x - IZR (Rtrunc x), IZR (Rtrunc x)).

#[export] Instance libmR : MathH R := {|
  M_PI := PI;
  lit := IZR;
  lit_1e_5 := 1 / 100000;
  dadd := Rplus;
  dsub := Rminus;
  dmul := Rmult;
  ddiv := Rdiv;
  dneg := Ropp;
  dlt := Rltb;
  dle := Rleb;
  fabs := Rabs;
  copysign := Rcopysign;
  modf := Rmodf
|}.
End Exact.

Import Binary64 Exact.

(** ** Notions used in the proofs about rounding *)

(** The sign bit of a double; a NaN counts as positive here. *)
Definition SFsign (u : spec_float) : bool :=
  match u with
  | S754_zero s | S754_infinity s | S754_finite s _ _ => s
  | S754_nan => false
  end.

Definition SFnot_nan (u : spec_float) : Prop :=
  match u with S754_nan => False | _ => True end.

(** [u] has the sign [s] and a magnitude at most that of the number
    [mc * 2^ec]; both magnitudes are counted in units of [2^b], which makes
    them integers as soon as [b] is below the exponents. *)
Definition SFle_mag (b : Z) (u : spec_float) (s : bool) (mc : positive) (ec : Z) : Prop :=
  u = S754_zero s \/
  exists m e, u = S754_finite s m e /\
              (Zpos m * 2 ^ (e - b) <= Zpos mc * 2 ^ (ec - b))%Z.

(** [2*M_PI], as [canonize] computes it. *)
Definition tau64 : float := (of_Z 2 * pi64)%float.

(** The magnitude of a finite number, in units of [2^b]. *)
Definition SFmagZ (b : Z) (u : spec_float) : Z :=
  match u with
  | S754_finite _ m e => (Zpos m * 2 ^ (e - b))%Z
  | _ => 0%Z
  end.

(** The exponent of a finite number is at least [b]. *)
Definition SFexp_ge (b : Z) (u : spec_float) : Prop :=
  match u with
  | S754_finite _ _ e => (b <= e)%Z
  | _ => True
  end.

(** The real number a finite double stands for; this is how statements
    about the doubles of the program speak of their values. *)
Definition SF2R (u : spec_float) : R :=
  match u with
  | S754_finite s m e => (IZR (cond_Zopp s (Zpos m)) * powerRZ 2 e)%R
  | _ => 0%R
  end.

Definition B2R (x : float) : R := SF2R (Prim2SF x).

Definition SFfinite (u : spec_float) : Prop :=
  match u with
  | S754_finite _ _ _ | S754_zero _ => True
  | _ => False
  end.

(** ** Facts about the exact arithmetic *)

Section ExactArith.
Local Open Scope R_scope.

Lemma Rltb_true (x y : R) : Rltb x y = true <-> x < y.
Proof. unfold Rltb; destruct (Rlt_dec x y); split; (congruence || tauto). Qed.

Lemma Rltb_false (x y : R) : Rltb x y = false <-> y <= x.
Proof.
  unfold Rltb; destruct (Rlt_dec x y); split; intros; try congruence; lra.
Qed.

Lemma Rleb_true (x y : R) : Rleb x y = true <-> x <= y.
Proof. unfold Rleb; destruct (Rle_dec x y); split; (congruence || tauto). Qed.

Lemma Rleb_false (x y : R) : Rleb x y = false <-> y < x.
Proof.
  unfold Rleb; destruct (Rle_dec x y); split; intros; try congruence; lra.
Qed.

(** The fractional part left by truncation has the sign of the argument. *)
Lemma Rtrunc_nonneg (x : R) :
  0 <= x -> 0 <= x - IZR (Rtrunc x) < 1.
Proof.
  intros Hx. unfold Rtrunc.
  destruct (Rlt_dec x 0) as [Hn | _]; [lra |].
  destruct (base_Int_part x); lra.
Qed.

Lemma Rtrunc_neg (x : R) :
  x <= 0 -> -1 < x - IZR (Rtrunc x) <= 0.
Proof.
  intros Hx. unfold Rtrunc.
  destruct (Rlt_dec x 0) as [Hn | Hn].
  - rewrite opp_IZR. destruct (base_Int_part (- x)); lra.
  - assert (x = 0) as -> by lra.
    replace (Int_part 0) with 0%Z; [simpl; lra |].
    apply Int_part_spec; simpl; lra.
Qed.

Lemma Rtrunc_IZR (z : Z) : Rtrunc (IZR z) = z.
Proof.
  unfold Rtrunc. destruct (Rlt_dec (IZR z) 0).
  - rewrite <- opp_IZR.
    rewrite <- (Int_part_spec (IZR (- z)) (- z)%Z); [lia | lra].
  - symmetry; apply Int_part_spec; lra.
Qed.

Lemma Rtrunc_small (x : R) : -1 < x < 1 -> Rtrunc x = 0%Z.
Proof.
  intros Hx. unfold Rtrunc. destruct (Rlt_dec x 0).
  - rewrite <- (Int_part_spec (- x) 0%Z); [reflexivity | simpl; lra].
  - symmetry; apply Int_part_spec; simpl; lra.
Qed.

Lemma Rcopysign_PI (r : R) :
  Rcopysign PI r = if Rlt_dec r 0 then - PI else PI.
Proof.
  unfold Rcopysign. rewrite (Rabs_pos_eq PI); [reflexivity |].
  left; exact PI_RGT_0.
Qed.

(** The sign of a number of turns is the sign of the angle. *)
Lemma turns_pos (x : R) : 0 < x -> 0 < x / (2 * PI).
Proof.
  intros Hx. pose proof PI_RGT_0.
  apply Rmult_lt_0_compat; [lra | apply Rinv_0_lt_compat; lra].
Qed.

Lemma turns_nonneg (x : R) : 0 <= x -> 0 <= x / (2 * PI).
Proof.
  intros [Hx | <-]; [left; apply turns_pos, Hx |].
  unfold Rdiv. rewrite Rmult_0_l. lra.
Qed.

Lemma turns_nonpos (x : R) : x <= 0 -> x / (2 * PI) <= 0.
Proof.
  intros Hx. pose proof (turns_nonneg (- x)) as H.
  unfold Rdiv in *. rewrite <- Ropp_mult_distr_l in H. lra.
Qed.
End ExactArith.

(** ** [canonize] over the reals *)

Section ExactCanonize.
Local Open Scope R_scope.

(** The three paths through [canonize]. *)
Lemma canonize_exact_in (r : R) :
  - PI < r <= PI -> rad (canonize (mkAngle r)) = r.
Proof.
  intros [Hlo Hhi]. unfold canonize; simpl.
  replace (Rltb PI r) with false by (symmetry; apply Rltb_false; lra).
  replace (Rleb r (- PI)) with false by (symmetry; apply Rleb_false; lra).
  reflexivity.
Qed.

Lemma canonize_exact_above (r : R) :
  PI < r ->
  rad (canonize (mkAngle r)) =
  - PI + 2 * PI * ((r - PI) / (2 * PI) - IZR (Rtrunc ((r - PI) / (2 * PI)))).
Proof.
  intros Hr. pose proof PI_RGT_0 as Hpi. unfold canonize; simpl.
  replace (Rltb PI r) with true by (symmetry; apply Rltb_true; lra).
  simpl. rewrite Rcopysign_PI.
  destruct (Rlt_dec r 0); [lra | reflexivity].
Qed.

Lemma canonize_exact_below (r : R) :
  r <= - PI ->
  rad (canonize (mkAngle r)) =
  PI + 2 * PI * ((r + PI) / (2 * PI) - IZR (Rtrunc ((r + PI) / (2 * PI)))).
Proof.
  intros Hr. pose proof PI_RGT_0 as Hpi. unfold canonize; simpl.
  replace (Rleb r (- PI)) with true by (symmetry; apply Rleb_true; lra).
  rewrite orb_true_r. rewrite Rcopysign_PI.
  destruct (Rlt_dec r 0); [| lra].
  unfold Rminus. rewrite !Ropp_involutive. reflexivity.
Qed.
End ExactCanonize.

(** ** Canonical values, exactly *)

Section ExactRange.
Local Open Scope R_scope.

(** [fromRad] subtracts a whole number of turns. *)
Lemma fromRad_exact_turns (r : R) :
  exists k : Z, getRad (fromRad r) = r - 2 * PI * IZR k.
Proof.
  pose proof PI_RGT_0 as Hpi.
  unfold getRad, fromRad, Angle_of.
  destruct (Rlt_dec PI r) as [Ha | Ha].
  - exists (1 + Rtrunc ((r - PI) / (2 * PI)))%Z.
    rewrite canonize_exact_above by assumption.
    rewrite plus_IZR. field. lra.
  - destruct (Rle_dec r (- PI)) as [Hb | Hb].
    + exists (-1 + Rtrunc ((r + PI) / (2 * PI)))%Z.
      rewrite canonize_exact_below by assumption.
      rewrite plus_IZR. field. lra.
    + exists 0%Z. rewrite canonize_exact_in by lra. simpl. ring.
Qed.

(** Every result lies in the closed interval. *)
Lemma fromRad_exact_closed (r : R) :
  - PI <= getRad (fromRad r) <= PI.
Proof.
  pose proof PI_RGT_0 as Hpi.
  unfold getRad, fromRad, Angle_of.
  destruct (Rlt_dec PI r) as [Ha | Ha].
  - rewrite canonize_exact_above by assumption.
    assert (0 <= (r - PI) / (2 * PI)) as Hq by (apply turns_nonneg; lra).
    pose proof (Rtrunc_nonneg _ Hq). nra.
  - destruct (Rle_dec r (- PI)) as [Hb | Hb].
    + rewrite canonize_exact_below by assumption.
      assert ((r + PI) / (2 * PI) <= 0) as Hq by (apply turns_nonpos; lra).
      pose proof (Rtrunc_neg _ Hq). nra.
    + rewrite canonize_exact_in by lra. lra.
Qed.

(** The lower end is reached, and exactly at the odd multiples of pi above
    pi: there the quotient is a whole number and its fractional part is 0. *)
Lemma fromRad_exact_lower_end (r : R) :
  getRad (fromRad r) = - PI <->
  exists n : Z, (1 <= n)%Z /\ r = PI + 2 * PI * IZR n.
Proof.
  pose proof PI_RGT_0 as Hpi.
  unfold getRad, fromRad, Angle_of. split.
  - intros Hv. destruct (Rlt_dec PI r) as [Ha | Ha].
    + rewrite canonize_exact_above in Hv by assumption.
      set (q := (r - PI) / (2 * PI)) in *.
      assert (0 < q) as Hq by (apply turns_pos; lra).
      assert (q - IZR (Rtrunc q) = 0) as Hf by nra.
      exists (Rtrunc q). split.
      * assert (0 < IZR (Rtrunc q)) as Hn by lra.
        apply lt_IZR in Hn. lia.
      * replace (IZR (Rtrunc q)) with q by lra.
        unfold q. field. lra.
    + destruct (Rle_dec r (- PI)) as [Hb | Hb].
      * rewrite canonize_exact_below in Hv by assumption.
        assert ((r + PI) / (2 * PI) <= 0) as Hq by (apply turns_nonpos; lra).
        pose proof (Rtrunc_neg _ Hq). nra.
      * rewrite canonize_exact_in in Hv by lra. lra.
  - intros (n & Hn & ->).
    apply IZR_le in Hn.
    rewrite canonize_exact_above by nra.
    replace ((PI + 2 * PI * IZR n - PI) / (2 * PI)) with (IZR n)
      by (field; lra).
    rewrite Rtrunc_IZR. ring.
Qed.

(** Away from those inputs the documented interval holds. *)
Lemma fromRad_exact_range (r : R) :
  (forall n : Z, (1 <= n)%Z -> r <> PI + 2 * PI * IZR n) ->
  - PI < getRad (fromRad r) <= PI.
Proof.
  intros Hr. pose proof (fromRad_exact_closed r) as [Hlo Hhi].
  split; [| assumption].
  destruct Hlo as [Hlt | Heq]; [assumption |].
  symmetry in Heq. apply fromRad_exact_lower_end in Heq.
  destruct Heq as (n & Hn & Hrn). elim (Hr n Hn Hrn).
Qed.

(** A canonical value is left as it is. *)
Lemma fromRad_exact_canonical (r : R) :
  - PI < r <= PI -> getRad (fromRad r) = r.
Proof. intros Hr. apply canonize_exact_in, Hr. Qed.

(** [fromRad] is idempotent on every input whose result is not the lower end. *)
Lemma fromRad_exact_idem (r : R) :
  getRad (fromRad r) <> - PI ->
  getRad (fromRad (getRad (fromRad r))) = getRad (fromRad r).
Proof.
  intros Hne. apply fromRad_exact_canonical.
  pose proof (fromRad_exact_closed r). lra.
Qed.

(** Sums and differences of canonical angles stay clear of the lower end. *)
Lemma operator_add_exact_range (a b : Angle R) :
  - PI < getRad a <= PI -> - PI < getRad b <= PI ->
  - PI < getRad (operator_add a b) <= PI.
Proof.
  intros Ha Hb. pose proof PI_RGT_0 as Hpi.
  unfold operator_add. apply fromRad_exact_range.
  intros n Hn Heq. apply IZR_le in Hn. simpl in Heq. nra.
Qed.

Lemma operator_sub_exact_range (a b : Angle R) :
  - PI < getRad a <= PI -> - PI < getRad b <= PI ->
  - PI < getRad (operator_sub a b) <= PI.
Proof.
  intros Ha Hb. pose proof PI_RGT_0 as Hpi.
  unfold operator_sub. apply fromRad_exact_range.
  intros n Hn Heq. apply IZR_le in Hn. simpl in Heq. nra.
Qed.
End ExactRange.

(** ** Facts about binary64 arithmetic *)

Section Binary64Arith.
Local Open Scope float_scope.

Lemma SF64mul_comm (u v : spec_float) : SF64mul u v = SF64mul v u.
Proof.
  unfold SF64mul, SFmul.
  destruct u as [su | su | | su mu eu], v as [sv | sv | | sv mv ev];
    rewrite ?(xorb_comm su sv); try reflexivity.
  now rewrite (Pos.mul_comm mu mv), (Z.add_comm eu ev).
Qed.

Lemma mul64_comm (x y : float) : x * y = y * x.
Proof. apply Prim2SF_inj. rewrite !FloatAxioms.mul_spec. apply SF64mul_comm. Qed.

(** Rounding to nearest even does not look at the sign. *)
Lemma SFabs_round_aux (s : bool) (m e : Z) (l : location) :
  SFabs (binary_round_aux prec emax s m e l) =
  SFabs (binary_round_aux prec emax false m e l).
Proof.
  unfold binary_round_aux.
  destruct (shr_fexp prec emax m e l) as [mrs' e'].
  destruct (shr_fexp prec emax _ e' loc_Exact) as [mrs'' e''].
  destruct (shr_m mrs''); try reflexivity.
  destruct (e'' <=? emax - prec)%Z; reflexivity.
Qed.

Lemma SFabs_normalize_opp (m e : Z) :
  SFabs (binary_normalize prec emax (- m) e false) =
  SFabs (binary_normalize prec emax m e false).
Proof.
  destruct m as [| p | p]; simpl; try reflexivity;
    unfold binary_round;
    destruct (shl_align p e _) as [mz ez];
    [| symmetry]; apply SFabs_round_aux.
Qed.

Lemma SFabs_sub_swap (u v : spec_float) :
  SFabs (SF64sub u v) = SFabs (SF64sub v u).
Proof.
  unfold SF64sub, SFsub.
  destruct u as [su | su | | su mu eu], v as [sv | sv | | sv mv ev];
    try reflexivity;
    try (destruct su, sv; reflexivity).
  rewrite (Z.min_comm ev eu).
  rewrite <- SFabs_normalize_opp. f_equal. f_equal. lia.
Qed.

Lemma abs64_sub_swap (x y : float) : abs (x - y) = abs (y - x).
Proof.
  apply Prim2SF_inj. rewrite !abs_spec, !FloatAxioms.sub_spec.
  apply SFabs_sub_swap.
Qed.

(** An absolute value is never below a precision that is zero or negative. *)
Lemma abs64_not_below (x p : float) :
  (p <=? 0) = true -> (abs x <? p) = false.
Proof.
  rewrite FloatAxioms.leb_spec, FloatAxioms.ltb_spec, abs_spec.
  change (Prim2SF 0) with (S754_zero false).
  unfold SFleb, SFltb.
  destruct (Prim2SF x) as [sx | sx | | sx mx ex],
           (Prim2SF p) as [sp | sp | | sp mp ep];
    simpl; try reflexivity; try discriminate;
    destruct sp; simpl; try reflexivity; try discriminate.
Qed.

Lemma SFcompare_swap (u v : spec_float) :
  SFcompare v u = option_map CompOpp (SFcompare u v).
Proof.
  destruct u as [su | su | | su mu eu], v as [sv | sv | | sv mv ev];
    simpl; try reflexivity;
    try (destruct su; reflexivity); try (destruct sv; reflexivity);
    try (destruct su, sv; reflexivity).
  assert (Pos.compare_cont Eq mv mu = CompOpp (Pos.compare_cont Eq mu mv)) as Hm
    by (rewrite (Pos.compare_cont_antisym mu mv Eq); reflexivity).
  destruct su, sv; simpl; try reflexivity;
    rewrite (Z.compare_antisym eu ev); destruct (eu ?= ev)%Z; simpl;
    try reflexivity; rewrite Hm; try reflexivity.
Qed.

Lemma ltb64_not_leb (x y : float) : (x <? y) = true -> (y <=? x) = false.
Proof.
  rewrite FloatAxioms.ltb_spec, FloatAxioms.leb_spec. unfold SFltb, SFleb.
  rewrite (SFcompare_swap (Prim2SF x) (Prim2SF y)).
  destruct (SFcompare (Prim2SF x) (Prim2SF y)) as [[| |] |]; simpl; congruence.
Qed.

Lemma leb64_not_ltb (x y : float) : (x <=? y) = true -> (y <? x) = false.
Proof.
  rewrite FloatAxioms.ltb_spec, FloatAxioms.leb_spec. unfold SFltb, SFleb.
  rewrite (SFcompare_swap (Prim2SF x) (Prim2SF y)).
  destruct (SFcompare (Prim2SF x) (Prim2SF y)) as [[| |] |]; simpl; congruence.
Qed.

(** A value the two guards of [canonize] accept is left as it is. *)
Lemma fromRad_binary64_canonical (r : float) :
  (- pi64 <? r) = true -> (r <=? pi64) = true -> getRad (fromRad r) = r.
Proof.
  intros Hlo Hhi. unfold getRad, fromRad, Angle_of, canonize.
  cbn [rad dlt dle dneg M_PI libm64].
  rewrite (leb64_not_ltb _ _ Hhi), (ltb64_not_leb _ _ Hlo). reflexivity.
Qed.

(** The comparisons are false on a NaN, so it is left as it is too. *)
Lemma fromRad_binary64_nan : getRad (fromRad nan) = nan.
Proof. reflexivity. Qed.
End Binary64Arith.

(** ** The two ends of the interval *)

Section Ends.

Lemma fromRad_exact_pi : getRad (fromRad PI) = PI.
Proof. pose proof PI_RGT_0. apply fromRad_exact_canonical. lra. Qed.

Lemma fromRad_exact_minus_pi : getRad (fromRad (- PI)%R) = PI.
Proof.
  pose proof PI_RGT_0 as Hpi. unfold getRad, fromRad, Angle_of.
  rewrite canonize_exact_below by lra.
  replace ((- PI + PI) / (2 * PI))%R with (IZR 0) by (simpl; field; lra).
  rewrite Rtrunc_IZR. simpl. ring.
Qed.

Lemma fromRad_exact_three_pi : getRad (fromRad (3 * PI)%R) = (- PI)%R.
Proof.
  apply fromRad_exact_lower_end. exists 1%Z. split; [lia | ring].
Qed.

Lemma fromRad_binary64_pi : getRad (fromRad pi64) = pi64.
Proof. vm_compute. reflexivity. Qed.

Lemma fromRad_binary64_minus_pi : getRad (fromRad (- pi64)%float) = pi64.
Proof. vm_compute. reflexivity. Qed.

Lemma fromRad_binary64_three_pi :
  getRad (fromRad (3 * pi64)%float) = (- pi64)%float.
Proof. vm_compute. reflexivity. Qed.
End Ends.

(** ** Degrees, sums and comparisons *)

Section Derived.

Lemma fromDeg_exact_turns (d : R) :
  exists k : Z, getDeg (fromDeg d) = (d - 360 * IZR k)%R.
Proof.
  pose proof PI_RGT_0 as Hpi.
  destruct (fromRad_exact_turns (d / 180 * PI)%R) as [k Hk].
  exists k. unfold getDeg, fromDeg. unfold getRad, fromRad in Hk.
  cbn [lit ddiv dmul M_PI libmR] in *. rewrite Hk. field. lra.
Qed.

Lemma fromDeg_exact_170 : getRad (fromDeg 170%R) = (170 / 180 * PI)%R.
Proof.
  pose proof PI_RGT_0 as Hpi. unfold getRad, fromDeg, Angle_of.
  cbn [lit ddiv dmul M_PI libmR]. apply canonize_exact_in. lra.
Qed.

Lemma fromDeg_exact_20 : getRad (fromDeg 20%R) = (20 / 180 * PI)%R.
Proof.
  pose proof PI_RGT_0 as Hpi. unfold getRad, fromDeg, Angle_of.
  cbn [lit ddiv dmul M_PI libmR]. apply canonize_exact_in. lra.
Qed.

Lemma fromDeg_exact_minus_170 :
  getRad (fromDeg (-170)%R) = (-170 / 180 * PI)%R.
Proof.
  pose proof PI_RGT_0 as Hpi. unfold getRad, fromDeg, Angle_of.
  cbn [lit ddiv dmul M_PI libmR]. apply canonize_exact_in. lra.
Qed.

(** 190 degrees is 1/36 of a turn above pi. *)
Lemma operator_add_exact_170_20 :
  getRad (operator_add (fromDeg 170%R) (fromDeg 20%R)) =
  getRad (fromDeg (-170)%R).
Proof.
  pose proof PI_RGT_0 as Hpi.
  rewrite fromDeg_exact_minus_170.
  unfold operator_add. rewrite fromDeg_exact_170, fromDeg_exact_20.
  unfold getRad, fromRad, Angle_of. cbn [dadd libmR].
  rewrite canonize_exact_above by lra.
  replace ((170 / 180 * PI + 20 / 180 * PI - PI) / (2 * PI))%R
    with (1 / 36)%R by (field; lra).
  rewrite Rtrunc_small by lra. simpl. field.
Qed.



Lemma isApprox_exact_spec (a b : Angle R) (p : R) :
  isApprox a b p = true <-> (Rabs (getRad b - getRad a) < p)%R.
Proof. unfold isApprox, getRad. cbn [dlt fabs dsub libmR]. apply Rltb_true. Qed.

Lemma isApprox_exact_sym (a b : Angle R) (p : R) :
  isApprox a b p = isApprox b a p.
Proof.
  unfold isApprox. cbn [dlt fabs dsub libmR].
  now rewrite (Rabs_minus_sym (rad b) (rad a)).
Qed.

Lemma isApprox_binary64_sym (a b : Angle float) (p : float) :
  isApprox a b p = isApprox b a p.
Proof.
  unfold isApprox. cbn [dlt fabs dsub libm64].
  now rewrite (abs64_sub_swap (rad b) (rad a)).
Qed.

Lemma isApprox_exact_nonpos (a b : Angle R) (p : R) :
  (p <= 0)%R -> isApprox a b p = false.
Proof.
  intros Hp. unfold isApprox. cbn [dlt fabs dsub libmR].
  apply Rltb_false. pose proof (Rabs_pos (rad b - rad a)). lra.
Qed.

Lemma isApprox_binary64_nonpos (a b : Angle float) (p : float) :
  (p <=? 0)%float = true -> isApprox a b p = false.
Proof.
  intros Hp. unfold isApprox. cbn [dlt fabs dsub libm64].
  apply abs64_not_below, Hp.
Qed.
Lemma isApprox_default_exact_refl (a : Angle R) : isApprox_default a a = true.
Proof.
  unfold isApprox_default. apply isApprox_exact_spec.
  cbn [lit_1e_5 libmR]. unfold Rminus. rewrite Rplus_opp_r, Rabs_R0. lra.
Qed.

(** The difference of a finite double with itself is +0. *)
Lemma SF64sub_diag (u : spec_float) :
  match u with S754_zero _ | S754_finite _ _ _ => True | _ => False end ->
  SF64sub u u = S754_zero false.
Proof.
  destruct u as [s | s | | s m e]; intros Hu; try contradiction.
  - destruct s; reflexivity.
  - unfold SF64sub, SFsub. cbv zeta. rewrite Z.sub_diag. reflexivity.
Qed.

(** A double between the two guards of [canonize] is finite. *)
Lemma canonical64_finite (r : float) :
  (- pi64 <? r)%float = true -> (r <=? pi64)%float = true ->
  match Prim2SF r with S754_zero _ | S754_finite _ _ _ => True | _ => False end.
Proof.
  rewrite FloatAxioms.ltb_spec, FloatAxioms.leb_spec.
  replace (Prim2SF (- pi64)) with (S754_finite true 7074237752028440 (-51))
    by (vm_compute; reflexivity).
  replace (Prim2SF pi64) with (S754_finite false 7074237752028440 (-51))
    by (vm_compute; reflexivity).
  destruct (Prim2SF r) as [s | s | | s m e]; try exact (fun _ _ => I);
    try discriminate; destruct s; discriminate.
Qed.

Lemma isApprox_default_binary64_refl (a : Angle float) :
  (- pi64 <? getRad a)%float = true -> (getRad a <=? pi64)%float = true ->
  isApprox_default a a = true.
Proof.
  intros Hlo Hhi. pose proof (canonical64_finite _ Hlo Hhi) as Hfin.
  unfold isApprox_default, isApprox, getRad in *.
  cbn [dlt fabs dsub lit_1e_5 libm64].
  rewrite FloatAxioms.ltb_spec, abs_spec, FloatAxioms.sub_spec.
  rewrite (SF64sub_diag _ Hfin). vm_compute. reflexivity.
Qed.
End Derived.

(** ** The claims *)

(** C1: every constructing operation stores a value v with -pi < v <= pi.
    The code does not: an input one or more whole turns above pi is sent to
    -pi, the excluded end.  At 3*pi the quotient (3*pi - pi) / (2*pi) is 1,
    its fractional part 0, and the result -pi + 0; in binary64 every step of
    this is exact.  The same value is reached through [fromDeg] at 540 and
    through the scalar product of the angle pi by 3, and there the test
    -M_PI < v is false. *)
Theorem fromRad_three_pi_is_minus_pi :
  getRad (fromRad (3 * PI)%R) = (- PI)%R /\
  getRad (fromRad (3 * pi64)%float) = (- pi64)%float /\
  getRad (fromDeg (of_Z 540)) = (- pi64)%float /\
  getRad (operator_mul (fromRad pi64) (of_Z 3)) = (- pi64)%float /\
  (- pi64 <? getRad (fromRad (3 * pi64)))%float = false.
Proof.
  split; [exact fromRad_exact_three_pi |].
  split; [exact fromRad_binary64_three_pi |].
  repeat apply conj; vm_compute; reflexivity.
Qed.

(** C3: fromRad(pi).getRad() is pi, and fromRad(-pi).getRad() is pi as
    well; over the reals and, with M_PI for pi, in binary64. *)
Theorem fromRad_at_boundaries :
  getRad (fromRad PI) = PI /\
  getRad (fromRad (- PI)%R) = PI /\
  getRad (fromRad pi64) = pi64 /\
  getRad (fromRad (- pi64)%float) = pi64.
Proof.
  repeat apply conj.
  - exact fromRad_exact_pi.
  - exact fromRad_exact_minus_pi.
  - exact fromRad_binary64_pi.
  - exact fromRad_binary64_minus_pi.
Qed.

(** C5: fromRad(fromRad(r).getRad()).getRad() equals fromRad(r).getRad()
    for every r.  The code does not: at r = 3*pi the first construction
    gives -pi, which is not canonical, and the second one turns it into
    +pi; over the reals and in binary64 alike. *)
Theorem fromRad_twice_at_three_pi :
  getRad (fromRad (3 * PI)%R) = (- PI)%R /\
  getRad (fromRad (getRad (fromRad (3 * PI)%R))) = PI /\
  getRad (fromRad (3 * pi64)%float) = (- pi64)%float /\
  getRad (fromRad (getRad (fromRad (3 * pi64)%float))) = pi64.
Proof.
  repeat apply conj.
  - exact fromRad_exact_three_pi.
  - rewrite fromRad_exact_three_pi. exact fromRad_exact_minus_pi.
  - exact fromRad_binary64_three_pi.
  - rewrite fromRad_binary64_three_pi. exact fromRad_binary64_minus_pi.
Qed.

(** C4: isApprox(a, b, p) is true exactly when |b.getRad() - a.getRad()| < p;
    p defaults to 1e-5, and it is compared with the difference of the radian
    values as it is.  Over the reals the comparison is the order of R; in
    binary64 it is the comparison of the rounded difference, and the default
    is the double nearest to 1e-5. *)
Theorem isApprox_iff_abs_diff_lt :
  (forall (a b : Angle R) (p : R),
      isApprox a b p = true <-> (Rabs (getRad b - getRad a) < p)%R) /\
  (forall a b : Angle R,
      isApprox_default a b = true <->
      (Rabs (getRad b - getRad a) < 1 / 100000)%R) /\
  (forall (a b : Angle float) (p : float),
      isApprox a b p = (abs (getRad b - getRad a) <? p)%float) /\
  (forall a b : Angle float,
      isApprox_default a b =
      (abs (getRad b - getRad a) <? 0x1.4f8b588e368f1p-17)%float).
Proof.
  repeat apply conj.
  - exact isApprox_exact_spec.
  - intros a b. apply isApprox_exact_spec.
  - reflexivity.
  - reflexivity.
Qed.


(** C8: a * k and k * a are the same angle, for every angle a and every
    scalar k; over the reals and over the doubles. *)
Theorem operator_mul_commutes :
  (forall (a : Angle R) (k : R), operator_mul a k = operator_mul_l k a) /\
  (forall (a : Angle float) (k : float), operator_mul a k = operator_mul_l k a).
Proof.
  split; intros a k; unfold operator_mul, operator_mul_l; f_equal.
  - apply Rmult_comm.
  - apply mul64_comm.
Qed.

(** C9: isApprox(a, b, p) equals isApprox(b, a, p), for all angles a, b and
    every precision p; over the reals and over the doubles. *)
Theorem isApprox_symmetric :
  (forall (a b : Angle R) (p : R), isApprox a b p = isApprox b a p) /\
  (forall (a b : Angle float) (p : float), isApprox a b p = isApprox b a p).
Proof. split; [exact isApprox_exact_sym | exact isApprox_binary64_sym]. Qed.

(** C10: with a precision p <= 0, isApprox(a, b, p) is false for all angles
    a and b; in particular isApprox(a, a, 0) is false.  Over the reals and
    over the doubles (where p <= 0 is the comparison of the code's type). *)
Theorem isApprox_nonpositive_precision :
  (forall (a b : Angle R) (p : R), (p <= 0)%R -> isApprox a b p = false) /\
  (forall a : Angle R, isApprox a a 0%R = false) /\
  (forall (a b : Angle float) (p : float),
      (p <=? 0)%float = true -> isApprox a b p = false) /\
  (forall a : Angle float, isApprox a a 0%float = false).
Proof.
  repeat apply conj.
  - exact isApprox_exact_nonpos.
  - intros a. apply isApprox_exact_nonpos. lra.
  - exact isApprox_binary64_nonpos.
  - intros a. apply isApprox_binary64_nonpos. reflexivity.
Qed.

Lemma isApprox_nonpositive_precision_witness :
  ((-1 <= 0)%R /\
   isApprox (fromRad 1%R) (fromRad 2%R) (-1)%R = false) /\
  ((-1 <=? 0)%float = true /\
   isApprox (fromRad 1%float) (fromRad 2%float) (-1)%float = false).
Proof.
  split; split.
  - lra.
  - apply (proj1 isApprox_nonpositive_precision). lra.
  - reflexivity.
  - apply (proj1 (proj2 (proj2 isApprox_nonpositive_precision))). reflexivity.
Defined.

(** ** Further properties *)

(** X4: isApprox(a, a) with the default precision is true, for every angle
    over the reals and for every angle whose double passes the two guards of
    canonize. *)
Theorem isApprox_default_reflexive :
  (forall a : Angle R, isApprox_default a a = true) /\
  (forall a : Angle float,
      (- pi64 <? getRad a)%float = true -> (getRad a <=? pi64)%float = true ->
      isApprox_default a a = true).
Proof.
  split; [exact isApprox_default_exact_refl | exact isApprox_default_binary64_refl].
Qed.

Lemma isApprox_default_reflexive_witness :
  (- pi64 <? getRad (fromRad 1%float))%float = true /\
  (getRad (fromRad 1%float) <=? pi64)%float = true /\
  isApprox_default (fromRad 1%float) (fromRad 1%float) = true.
Proof.
  split; [reflexivity | split; [reflexivity |]].
  apply (proj2 isApprox_default_reflexive); reflexivity.
Defined.

(** The round trip through degrees is not exact in binary64: 400 degrees
    comes back as 40.000000000000007. *)
Remark fromDeg_getDeg_binary64_400 :
  getDeg (fromDeg (of_Z 400)) = 0x1.4000000000001p+5%float.
Proof. vm_compute. reflexivity. Qed.

(** ** Doubles that are not numbers *)

Section Binary64Edge.
Local Open Scope float_scope.

Lemma SF64add_comm (u v : spec_float) : SF64add u v = SF64add v u.
Proof.
  unfold SF64add, SFadd.
  destruct u as [su | su | | su mu eu], v as [sv | sv | | sv mv ev];
    try reflexivity; try (destruct su, sv; reflexivity).
  now rewrite (Z.min_comm eu ev), Z.add_comm.
Qed.

Lemma add64_comm (x y : float) : x + y = y + x.
Proof. apply Prim2SF_inj. rewrite !FloatAxioms.add_spec. apply SF64add_comm. Qed.

Lemma operator_add_binary64_comm (a b : Angle float) :
  operator_add a b = operator_add b a.
Proof. unfold operator_add. f_equal. apply add64_comm. Qed.

(** A comparison with a NaN on either side is false. *)
Lemma isApprox_binary64_nan (a b : Angle float) (p : float) :
  getRad a = nan \/ getRad b = nan \/ p = nan -> isApprox a b p = false.
Proof.
  unfold isApprox, getRad. cbn [dlt fabs dsub libm64].
  rewrite FloatAxioms.ltb_spec, abs_spec, FloatAxioms.sub_spec.
  intros [-> | [-> | ->]]; change (Prim2SF nan) with S754_nan.
  - destruct (Prim2SF (rad b)); reflexivity.
  - destruct (Prim2SF (rad a)); reflexivity.
  - unfold SFltb.
    destruct (SFabs (SF64sub (Prim2SF (rad b)) (Prim2SF (rad a))));
      reflexivity.
Qed.

(** What [fromRad] makes of the doubles that are not finite. *)
Lemma fromRad_binary64_not_finite (r : float) :
  match Prim2SF r with
  | S754_nan => getRad (fromRad r) = nan
  | S754_infinity false => getRad (fromRad r) = - pi64
  | S754_infinity true => getRad (fromRad r) = pi64
  | _ => True
  end.
Proof.
  destruct (Prim2SF r) as [s | s | | s m e] eqn:Hr; try exact I.
  - destruct s.
    + assert (r = neg_infinity) as -> by (apply Prim2SF_inj; rewrite Hr; reflexivity).
      vm_compute. reflexivity.
    + assert (r = infinity) as -> by (apply Prim2SF_inj; rewrite Hr; reflexivity).
      vm_compute. reflexivity.
  - assert (r = nan) as -> by (apply Prim2SF_inj; rewrite Hr; reflexivity).
    reflexivity.
Qed.
End Binary64Edge.

Section Binary64Diag.
Local Open Scope float_scope.

(** The difference of a canonical double angle with itself is +0. *)
Lemma operator_sub_binary64_diag (a : Angle float) :
  (- pi64 <? getRad a) = true -> (getRad a <=? pi64) = true ->
  getRad (operator_sub a a) = 0.
Proof.
  intros Hlo Hhi. pose proof (canonical64_finite _ Hlo Hhi) as Hfin.
  unfold operator_sub, getRad in *. cbn [dsub libm64].
  assert (rad a - rad a = 0) as ->; [| vm_compute; reflexivity].
  apply Prim2SF_inj. rewrite FloatAxioms.sub_spec.
  rewrite (SF64sub_diag _ Hfin). reflexivity.
Qed.
End Binary64Diag.

(** ** Properties of the conversions, the operators and the comparison *)

(** X13: on doubles, isApprox is false as soon as one of the two values or
    the precision is a NaN; fromRad keeps a NaN, so an angle made from a NaN
    is not approximately equal to itself. *)
Theorem isApprox_nan_always_false :
  (forall (a b : Angle float) (p : float),
      getRad a = nan \/ getRad b = nan \/ p = nan -> isApprox a b p = false) /\
  (forall p : float, isApprox (fromRad nan) (fromRad nan) p = false).
Proof.
  split; [exact isApprox_binary64_nan |].
  intros p. apply isApprox_binary64_nan. left. reflexivity.
Qed.

Lemma isApprox_nan_always_false_witness :
  isApprox (fromRad nan) (fromRad 1%float) infinity = false.
Proof.
  apply (proj1 isApprox_nan_always_false). left. reflexivity.
Defined.

(** X14: what fromRad does with a double that is not finite: a NaN is
    kept, +infinity becomes -M_PI and -infinity becomes +M_PI. *)
Theorem fromRad_of_non_finite :
  forall r : float,
    match Prim2SF r with
    | S754_nan => getRad (fromRad r) = nan
    | S754_infinity false => getRad (fromRad r) = (- pi64)%float
    | S754_infinity true => getRad (fromRad r) = pi64
    | _ => True
    end.
Proof. exact fromRad_binary64_not_finite. Qed.

(** ** Rounding to nearest in binary64

    The operations of [SpecFloat] round with [binary_round_aux]: shift the
    mantissa right to the exponent of the format, round to nearest even, and
    shift once more if the rounding carried.  What follows shows that this
    never steps over a number of the format, which bounds every intermediate
    result of [canonize]. *)

Section Rounding.
Local Open Scope Z_scope.

(** Powers of two *)
Lemma pow2_pos (x : Z) : 0 <= x -> 0 < 2 ^ x.
Proof. intros. apply Z.pow_pos_nonneg; lia. Qed.

Lemma pow2_split (b x y : Z) : b <= x -> x <= y -> 2 ^ (y - b) = 2 ^ (y - x) * 2 ^ (x - b).
Proof. intros. rewrite <- Z.pow_add_r by lia. f_equal. lia. Qed.

(** iter_pos *)
Lemma iter_pos_Pos_iter {A : Type} (f : A -> A) (p : positive) (x : A) :
  iter_pos f p x = Pos.iter f x p.
Proof.
  revert x. induction p as [p IH | p IH |]; intros x; simpl.
  - rewrite !IH. now rewrite !Pos.iter_swap.
  - now rewrite !IH.
  - reflexivity.
Qed.

Lemma shr_1_m (mrs : shr_record) :
  0 <= shr_m mrs -> shr_m (shr_1 mrs) = shr_m mrs / 2.
Proof.
  destruct mrs as [m r s]. simpl. intros Hm.
  destruct m as [| p | p]; [reflexivity | | lia].
  destruct p as [p | p |]; simpl shr_m.
  - rewrite Pos2Z.inj_xI. apply Z.div_unique with 1; lia.
  - rewrite Pos2Z.inj_xO. apply Z.div_unique with 0; lia.
  - reflexivity.
Qed.

Lemma shr_1_exact (mrs : shr_record) :
  0 <= shr_m mrs -> shr_m mrs mod 2 = 0 -> shr_r mrs = false -> shr_s mrs = false ->
  shr_r (shr_1 mrs) = false /\ shr_s (shr_1 mrs) = false.
Proof.
  destruct mrs as [m r s]. simpl. intros Hm Hev -> ->.
  destruct m as [| p | p]; [split; reflexivity | | lia].
  destruct p as [p | p |]; simpl.
  - rewrite Pos2Z.inj_xI in Hev.
    rewrite Z.add_comm, Z.mul_comm, Z.mod_add in Hev by lia. discriminate.
  - split; reflexivity.
  - discriminate.
Qed.

Lemma iter_shr_1 (M : Z) (r s : bool) (p : positive) :
  0 <= M ->
  let mrs := iter_pos shr_1 p (Build_shr_record M r s) in
  shr_m mrs = M / 2 ^ Zpos p /\
  (r = false -> s = false -> M mod 2 ^ Zpos p = 0 -> shr_r mrs = false /\ shr_s mrs = false).
Proof.
  intros HM. cbv zeta. rewrite iter_pos_Pos_iter.
  induction p as [| p IH] using Pos.peano_ind.
  - change (Pos.iter shr_1 {| shr_m := M; shr_r := r; shr_s := s |} 1)
      with (shr_1 {| shr_m := M; shr_r := r; shr_s := s |}).
    change (2 ^ 1) with 2. split.
    + now rewrite shr_1_m.
    + intros -> -> Hmod. apply shr_1_exact; auto.
  - rewrite Pos.iter_succ. destruct IH as [IHm IHe].
    assert (0 <= shr_m (Pos.iter shr_1 {| shr_m := M; shr_r := r; shr_s := s |} p)) as Hnn
      by (rewrite IHm; apply Z.div_pos; [lia | apply pow2_pos; lia]).
    rewrite Pos2Z.inj_succ, Z.pow_succ_r by lia.
    split.
    + rewrite shr_1_m by assumption. rewrite IHm.
      rewrite Z.div_div by (try apply pow2_pos; lia). f_equal. lia.
    + intros Hr Hs Hmod.
      assert (M mod 2 ^ Z.pos p = 0) as Hmod'.
      { apply Z.mod_divide in Hmod; [| pose proof (pow2_pos (Z.pos p)); lia].
        apply Z.mod_divide; [pose proof (pow2_pos (Z.pos p)); lia |].
        destruct Hmod as [k Hk]. exists (k * 2). lia. }
      destruct (IHe Hr Hs Hmod') as [Hr' Hs'].
      apply shr_1_exact; auto.
      rewrite IHm.
      apply Z.mod_divide in Hmod; [| pose proof (pow2_pos (Z.pos p)); lia].
      destruct Hmod as [k Hk]. rewrite Hk.
      replace (k * (2 * 2 ^ Z.pos p)) with ((k * 2) * 2 ^ Z.pos p) by ring.
      rewrite Z.div_mul by (pose proof (pow2_pos (Z.pos p)); lia).
      apply Z.mod_mul. lia.
Qed.

Lemma shr_nonpos (mrs : shr_record) (e n : Z) : n <= 0 -> shr mrs e n = (mrs, e).
Proof. destruct n; intros; [reflexivity | lia | reflexivity]. Qed.

Lemma shr_pos (M : Z) (r s : bool) (e n : Z) :
  0 <= M -> 0 < n ->
  snd (shr (Build_shr_record M r s) e n) = e + n /\
  shr_m (fst (shr (Build_shr_record M r s) e n)) = M / 2 ^ n /\
  (r = false -> s = false -> M mod 2 ^ n = 0 ->
   loc_of_shr_record (fst (shr (Build_shr_record M r s) e n)) = loc_Exact).
Proof.
  intros HM Hn. destruct n as [| p | p]; try lia. simpl shr. simpl fst. simpl snd.
  destruct (iter_shr_1 M r s p HM) as [Hm He].
  split; [reflexivity | split; [exact Hm |]].
  intros Hr Hs Hmod. destruct (He Hr Hs Hmod) as [Hr' Hs'].
  destruct (iter_pos shr_1 p _) as [m' r' s']. simpl in *. subst. reflexivity.
Qed.

Lemma shr_m_nonneg (mrs : shr_record) (e n : Z) :
  0 <= shr_m mrs -> 0 <= shr_m (fst (shr mrs e n)).
Proof.
  intros Hm. destruct (Z_le_gt_dec n 0) as [Hn | Hn].
  - now rewrite shr_nonpos.
  - destruct mrs as [M r s]. simpl in Hm.
    destruct (shr_pos M r s e n Hm) as (_ & -> & _); [lia |].
    apply Z.div_pos; [lia | apply pow2_pos; lia].
Qed.

Lemma shr_record_of_loc_m (m : Z) (l : location) : shr_m (shr_record_of_loc m l) = m.
Proof. destruct l as [| []]; reflexivity. Qed.

Lemma round_nearest_even_bounds (m : Z) (l : location) :
  m <= round_nearest_even m l <= m + 1.
Proof. destruct l as [| []]; simpl; try lia. destruct (Z.even m); lia. Qed.

Lemma digits2_pos_bounds (p : positive) :
  2 ^ (Zpos (digits2_pos p) - 1) <= Zpos p < 2 ^ Zpos (digits2_pos p).
Proof.
  induction p as [p IH | p IH |]; simpl digits2_pos.
  - rewrite Pos2Z.inj_succ, Z.pow_succ_r by lia.
    replace (Z.succ (Z.pos (digits2_pos p)) - 1) with (Z.succ (Z.pos (digits2_pos p) - 1)) by lia.
    rewrite Z.pow_succ_r by lia. lia.
  - rewrite Pos2Z.inj_succ, Z.pow_succ_r by lia.
    replace (Z.succ (Z.pos (digits2_pos p)) - 1) with (Z.succ (Z.pos (digits2_pos p) - 1)) by lia.
    rewrite Z.pow_succ_r by lia. lia.
  - simpl. lia.
Qed.

Lemma Zdigits2_bounds (m : Z) :
  0 < m -> 0 < Zdigits2 m /\ 2 ^ (Zdigits2 m - 1) <= m < 2 ^ Zdigits2 m.
Proof.
  destruct m as [| p | p]; try lia. intros _. simpl Zdigits2.
  split; [lia | apply digits2_pos_bounds].
Qed.

(** The magnitude of a smaller number is not larger. *)
Lemma Zdigits2_le (b m e mc ec : Z) :
  0 < m -> 0 < mc -> b <= e -> b <= ec ->
  m * 2 ^ (e - b) <= mc * 2 ^ (ec - b) ->
  Zdigits2 m + e <= Zdigits2 mc + ec.
Proof.
  intros Hm Hmc Hbe Hbec Hle.
  destruct (Zdigits2_bounds m Hm) as (Hd & Hlo & _).
  destruct (Zdigits2_bounds mc Hmc) as (Hdc & _ & Hhi).
  destruct (Z_le_gt_dec (Zdigits2 m + e) (Zdigits2 mc + ec)) as [|Hgt]; [assumption | exfalso].
  assert (2 ^ (Zdigits2 mc + (ec - b)) <= 2 ^ (Zdigits2 m - 1 + (e - b))) as Hp
    by (apply Z.pow_le_mono_r; lia).
  rewrite !Z.pow_add_r in Hp by lia.
  pose proof (pow2_pos (e - b)). pose proof (pow2_pos (ec - b)). nia.
Qed.

Lemma fexp_le (x y : Z) : x <= y -> fexp prec emax x <= fexp prec emax y.
Proof. unfold fexp, SpecFloat.emin. lia. Qed.

Lemma fexp_ge_emin (x : Z) : emin <= fexp prec emax x.
Proof. unfold fexp. lia. Qed.

(** The shape of a rounded result *)
Lemma binary_round_aux_cases (s : bool) (m e : Z) (l : location) :
  0 <= m ->
  binary_round_aux prec emax s m e l = S754_zero s \/
  binary_round_aux prec emax s m e l = S754_infinity s \/
  exists m' e', binary_round_aux prec emax s m e l = S754_finite s m' e'.
Proof.
  intros Hm. unfold binary_round_aux, shr_fexp.
  set (n := fexp prec emax (Zdigits2 m + e) - e).
  pose proof (shr_m_nonneg (shr_record_of_loc m l) e n) as H1.
  rewrite shr_record_of_loc_m in H1. specialize (H1 Hm).
  destruct (shr (shr_record_of_loc m l) e n) as [mrs' e'].
  simpl fst in H1.
  set (m2 := round_nearest_even (shr_m mrs') (loc_of_shr_record mrs')).
  assert (0 <= m2) as Hm2
    by (pose proof (round_nearest_even_bounds (shr_m mrs') (loc_of_shr_record mrs')); unfold m2; lia).
  set (n2 := fexp prec emax (Zdigits2 m2 + e') - e').
  pose proof (shr_m_nonneg (shr_record_of_loc m2 loc_Exact) e' n2) as H2.
  rewrite shr_record_of_loc_m in H2. specialize (H2 Hm2).
  destruct (shr (shr_record_of_loc m2 loc_Exact) e' n2) as [mrs'' e''].
  simpl fst in H2.
  destruct (shr_m mrs'') as [| p | p]; [left; reflexivity | | lia].
  destruct (e'' <=? emax - prec); right; [right; eauto | left; reflexivity].
Qed.

Lemma bounded_inv (m : positive) (e : Z) :
  bounded prec emax m e = true ->
  fexp prec emax (Zpos (digits2_pos m) + e) = e /\ e <= emax - prec.
Proof.
  unfold bounded, canonical_mantissa. intros H.
  apply andb_true_iff in H. destruct H as [H1 H2].
  apply Z.eqb_eq in H1. apply Z.leb_le in H2. split; assumption.
Qed.

(** Rounding does not step over a number of the format. *)
Lemma binary_round_aux_le (b : Z) (s : bool) (m e : Z) (mc : positive) (ec : Z) :
  0 < m -> e <= fexp prec emax (Zdigits2 m + e) -> b <= e -> b <= ec ->
  bounded prec emax mc ec = true ->
  m * 2 ^ (e - b) <= Zpos mc * 2 ^ (ec - b) ->
  binary_round_aux prec emax s m e loc_Exact = S754_zero s \/
  exists m' e',
    binary_round_aux prec emax s m e loc_Exact = S754_finite s m' e' /\
    e <= e' /\ Zpos m' * 2 ^ (e' - b) <= Zpos mc * 2 ^ (ec - b).
Proof.
  intros Hm Hn Hbe Hbec Hbd Hle.
  destruct (bounded_inv _ _ Hbd) as [Hcan Hmax].
  set (e1 := fexp prec emax (Zdigits2 m + e)) in *.
  assert (e1 <= ec) as He1.
  { rewrite <- Hcan. apply fexp_le.
    apply (Zdigits2_le b m e (Zpos mc) ec); auto; lia. }
  set (K := Zpos mc * 2 ^ (ec - e1)).
  assert (Zpos mc * 2 ^ (ec - b) = K * 2 ^ (e1 - b)) as HK.
  { unfold K. rewrite (pow2_split b e1 ec) by lia. ring. }
  assert (0 < 2 ^ (e1 - b)) as Hp1 by (apply pow2_pos; lia).
  assert (0 < 2 ^ (e - b)) as Hp0 by (apply pow2_pos; lia).
  (* the second pass, on a mantissa at most K *)
  assert (forall m2, 0 <= m2 -> m2 <= K ->
          forall R,
            R = (let '(mrs'', e'') := shr_fexp prec emax m2 e1 loc_Exact in
                 match shr_m mrs'' with
                 | Z0 => S754_zero s
                 | Zpos p =>
                     if e'' <=? emax - prec then S754_finite s p e''
                     else S754_infinity s
                 | Zneg _ => S754_nan
                 end) ->
            R = S754_zero s \/
            exists m' e', R = S754_finite s m' e' /\ e <= e' /\
              Zpos m' * 2 ^ (e' - b) <= Zpos mc * 2 ^ (ec - b)) as Hsecond.
  { intros m2 Hm2 Hm2K R ->. unfold shr_fexp. simpl shr_record_of_loc.
    set (n2 := fexp prec emax (Zdigits2 m2 + e1) - e1).
    destruct (Z_le_gt_dec n2 0) as [Hn2 | Hn2].
    - rewrite shr_nonpos by assumption. simpl shr_m.
      destruct m2 as [| p | p]; [left; reflexivity | | lia].
      right. exists p, e1.
      replace (e1 <=? emax - prec) with true by (symmetry; apply Z.leb_le; lia).
      split; [reflexivity | split; [unfold e1; lia |]].
      rewrite HK. nia.
    - destruct (shr_pos m2 false false e1 n2 Hm2) as (He'' & Hm3 & _); [lia |].
      destruct (shr _ e1 n2) as [mrs'' e'']. simpl fst in *. simpl snd in *.
      rewrite Hm3.
      assert (0 < 2 ^ n2) as Hpn by (apply pow2_pos; lia).
      assert (0 <= m2 / 2 ^ n2) as Hq by (apply Z.div_pos; lia).
      destruct (m2 / 2 ^ n2) as [| p | p] eqn:Hdiv; [left; reflexivity | | lia].
      assert (0 < m2) as Hm2pos.
      { destruct (Z.eq_dec m2 0) as [-> |]; [| lia]. rewrite Z.div_0_l in Hdiv by lia. discriminate. }
      assert (e'' <= ec) as He''ec.
      { rewrite He''. unfold n2.
        replace (e1 + (fexp prec emax (Zdigits2 m2 + e1) - e1))
          with (fexp prec emax (Zdigits2 m2 + e1)) by lia.
        rewrite <- Hcan. apply fexp_le.
        apply (Zdigits2_le b m2 e1 (Zpos mc) ec); auto; try lia.
        rewrite HK. nia. }
      right. exists p, e''.
      replace (e'' <=? emax - prec) with true by (symmetry; apply Z.leb_le; lia).
      split; [reflexivity | split; [unfold e1 in *; lia |]].
      rewrite HK, He''.
      rewrite (pow2_split b e1 (e1 + n2)) by lia.
      replace (e1 + n2 - e1) with n2 by lia.
      assert (Zpos p * 2 ^ n2 <= m2) as Hfloor.
      { rewrite <- Hdiv. rewrite Z.mul_comm. apply Z.mul_div_le. lia. }
      nia. }
  remember (binary_round_aux prec emax s m e loc_Exact) as R eqn:HR.
  unfold binary_round_aux in HR. unfold shr_fexp at 1 in HR.
  simpl shr_record_of_loc in HR. fold e1 in HR. set (n := e1 - e) in HR.
  destruct (Z_le_gt_dec n 0) as [Hn0 | Hn0].
  - rewrite shr_nonpos in HR by assumption.
    simpl shr_m in HR. simpl loc_of_shr_record in HR.
    simpl round_nearest_even in HR.
    assert (e = e1) as Hee by (unfold n in *; lia).
    apply (Hsecond m); [lia | | rewrite <- Hee; exact HR].
    rewrite HK in Hle. rewrite <- Hee in Hle. nia.
  - destruct (shr_pos m false false e n) as (He' & Hm1 & Hex); [lia | lia |].
    destruct (shr _ e n) as [mrs' e']. simpl fst in *. simpl snd in *.
    assert (e' = e1) as -> by (unfold n in *; lia).
    assert (0 < 2 ^ n) as Hpn by (apply pow2_pos; lia).
    assert (m <= K * 2 ^ n) as HmK.
    { rewrite HK in Hle. rewrite (pow2_split b e e1) in Hle by (unfold e1 in *; lia).
      fold n in Hle. nia. }
    apply (Hsecond (round_nearest_even (shr_m mrs') (loc_of_shr_record mrs')));
      [| | exact HR].
    + pose proof (round_nearest_even_bounds (shr_m mrs') (loc_of_shr_record mrs')).
      assert (0 <= m / 2 ^ n) by (apply Z.div_pos; lia). lia.
    + destruct (Z.eq_dec (m mod 2 ^ n) 0) as [Hmod | Hmod].
      * rewrite (Hex eq_refl eq_refl Hmod). simpl round_nearest_even.
        rewrite Hm1. apply Z.div_le_upper_bound; lia.
      * pose proof (round_nearest_even_bounds (shr_m mrs') (loc_of_shr_record mrs')).
        rewrite Hm1 in *.
        assert (m / 2 ^ n < K); [| lia].
        apply Z.div_lt_upper_bound; [lia |].
        destruct (Z.eq_dec m (K * 2 ^ n)) as [Heq |]; [| lia].
        rewrite Heq, Z.mod_mul in Hmod by lia. contradiction.
Qed.

Lemma iter_xO_val (m d : positive) :
  Zpos (Pos.iter xO m d) = Zpos m * 2 ^ Zpos d /\
  Zpos (digits2_pos (Pos.iter xO m d)) = Zpos (digits2_pos m) + Zpos d.
Proof.
  induction d as [| d [IHv IHd]] using Pos.peano_ind.
  - simpl. split; lia.
  - rewrite Pos.iter_succ. simpl digits2_pos.
    rewrite Pos2Z.inj_xO, IHv, !Pos2Z.inj_succ, IHd, Z.pow_succ_r by lia.
    split; lia.
Qed.

Lemma shl_align_spec (mx : positive) (ex ex' : Z) :
  snd (shl_align mx ex ex') = Z.min ex ex' /\
  Zpos (fst (shl_align mx ex ex')) = Zpos mx * 2 ^ (ex - Z.min ex ex') /\
  Zpos (digits2_pos (fst (shl_align mx ex ex'))) + Z.min ex ex' =
    Zpos (digits2_pos mx) + ex.
Proof.
  unfold shl_align. destruct (ex' - ex) as [| d | d] eqn:Hd; simpl fst; simpl snd.
  - replace (Z.min ex ex') with ex by lia. rewrite Z.sub_diag. simpl. split; [| split]; lia.
  - replace (Z.min ex ex') with ex by lia. rewrite Z.sub_diag. simpl. split; [| split]; lia.
  - replace (Z.min ex ex') with ex' by lia.
    destruct (iter_xO_val mx d) as [Hv Hdg].
    replace (ex - ex') with (Zpos d) by lia.
    split; [reflexivity | split; [exact Hv | lia]].
Qed.

(** [binary_round] aligns first, so its rounding starts on or below the grid. *)
Lemma binary_round_le (b : Z) (s : bool) (m : positive) (e : Z) (mc : positive) (ec : Z) :
  b <= e -> b <= emin -> b <= ec ->
  bounded prec emax mc ec = true ->
  Zpos m * 2 ^ (e - b) <= Zpos mc * 2 ^ (ec - b) ->
  binary_round prec emax s m e = S754_zero s \/
  exists m' e',
    binary_round prec emax s m e = S754_finite s m' e' /\
    Zpos m' * 2 ^ (e' - b) <= Zpos mc * 2 ^ (ec - b).
Proof.
  intros Hbe Hbmin Hbec Hbd Hle. unfold binary_round.
  set (e0 := fexp prec emax (Zpos (digits2_pos m) + e)).
  destruct (shl_align_spec m e e0) as (Hez & Hmz & Hdg).
  destruct (shl_align m e e0) as [mz ez]. simpl fst in *. simpl snd in *.
  pose proof (fexp_ge_emin (Zpos (digits2_pos m) + e)) as Hmin. fold e0 in Hmin.
  subst ez.
  assert (b <= Z.min e e0) as Hbez by lia.
  destruct (binary_round_aux_le b s (Zpos mz) (Z.min e e0) mc ec)
    as [Hz | (m' & e' & Hr & _ & Hv)]; auto; try lia.
  - simpl Zdigits2. rewrite Hdg. fold e0. lia.
  - rewrite Hmz. rewrite <- Z.mul_assoc, <- Z.pow_add_r by lia.
    replace (e - Z.min e e0 + (Z.min e e0 - b)) with (e - b) by lia. exact Hle.
  - right. exists m', e'. split; assumption.
Qed.

(** A number of the format is rounded to itself. *)
Lemma binary_round_aux_exact (s : bool) (m : positive) (e : Z) :
  bounded prec emax m e = true ->
  binary_round_aux prec emax s (Zpos m) e loc_Exact = S754_finite s m e.
Proof.
  intros Hbd. destruct (bounded_inv _ _ Hbd) as [Hcan Hmax].
  unfold binary_round_aux, shr_fexp.
  change (Zdigits2 (Zpos m)) with (Zpos (digits2_pos m)).
  rewrite Hcan, Z.sub_diag.
  cbn [shr shr_record_of_loc fst snd shr_m loc_of_shr_record round_nearest_even].
  change (Zdigits2 (Zpos m)) with (Zpos (digits2_pos m)).
  rewrite Hcan, Z.sub_diag.
  cbn [shr shr_record_of_loc fst snd shr_m].
  replace (e <=? emax - prec) with true by (symmetry; apply Z.leb_le; assumption).
  reflexivity.
Qed.

Lemma binary_round_exact (s : bool) (m : positive) (e : Z) :
  Zpos (digits2_pos m) <= prec -> emin <= e -> Zpos (digits2_pos m) + e <= emax ->
  exists m' e',
    binary_round prec emax s m e = S754_finite s m' e' /\
    bounded prec emax m' e' = true /\
    e' <= e /\ Zpos m' = Zpos m * 2 ^ (e - e').
Proof.
  intros Hd He Hmax. unfold binary_round.
  set (e0 := fexp prec emax (Zpos (digits2_pos m) + e)).
  destruct (shl_align_spec m e e0) as (Hez & Hmz & Hdg).
  destruct (shl_align m e e0) as [mz ez]. simpl fst in *. simpl snd in *.
  assert (e0 <= e) as He0 by (unfold e0, fexp, SpecFloat.emin in *; lia).
  assert (ez = e0) as -> by lia.
  replace (Z.min e e0) with e0 in * by lia.
  assert (bounded prec emax mz e0 = true) as Hbd.
  { unfold bounded, canonical_mantissa. apply andb_true_iff. split.
    - apply Z.eqb_eq. rewrite Hdg. reflexivity.
    - apply Z.leb_le. unfold e0, fexp, SpecFloat.emin, emax, prec in *. lia. }
  exists mz, e0. rewrite binary_round_aux_exact by assumption.
  repeat split; auto.
Qed.

Lemma binary_round_cases (s : bool) (m : positive) (e : Z) :
  binary_round prec emax s m e = S754_zero s \/
  binary_round prec emax s m e = S754_infinity s \/
  exists m' e', binary_round prec emax s m e = S754_finite s m' e'.
Proof.
  unfold binary_round. destruct (shl_align m e _) as [mz ez].
  apply binary_round_aux_cases. lia.
Qed.

Lemma bounded_digits (m : positive) (e : Z) :
  bounded prec emax m e = true ->
  Zpos (digits2_pos m) <= prec /\ emin <= e /\ e <= emax - prec /\
  (emin < e -> Zpos (digits2_pos m) = prec).
Proof.
  intros H. destruct (bounded_inv _ _ H) as [Hc Hm].
  unfold fexp, SpecFloat.emin, prec, emax in *. lia.
Qed.

Lemma bounded_exp_lt (b : Z) (m1 : positive) (e1 : Z) (m2 : positive) (e2 : Z) :
  bounded prec emax m1 e1 = true -> bounded prec emax m2 e2 = true ->
  b <= e1 -> e1 < e2 ->
  Zpos m1 * 2 ^ (e1 - b) < Zpos m2 * 2 ^ (e2 - b).
Proof.
  intros H1 H2 Hb Hlt.
  destruct (bounded_digits _ _ H1) as (Hd1 & Hmin1 & _ & _).
  destruct (bounded_digits _ _ H2) as (_ & _ & _ & Hd2).
  specialize (Hd2 ltac:(lia)).
  destruct (digits2_pos_bounds m1) as [_ Hhi].
  destruct (digits2_pos_bounds m2) as [Hlo _].
  rewrite Hd2 in Hlo.
  assert (Zpos m1 < 2 ^ prec) as Hm1.
  { eapply Z.lt_le_trans; [exact Hhi |]. apply Z.pow_le_mono_r; lia. }
  rewrite (pow2_split b e1 e2) by lia.
  assert (2 <= 2 ^ (e2 - e1)) as Hp.
  { change 2 with (2 ^ 1) at 1. apply Z.pow_le_mono_r; lia. }
  assert (0 < 2 ^ (e1 - b)) by (apply pow2_pos; lia).
  assert (2 ^ prec = 2 * 2 ^ (prec - 1)) as Hpp by reflexivity.
  rewrite Hpp in Hm1.
  remember (2 ^ (prec - 1)) as A eqn:HA.
  remember (2 ^ (e1 - b)) as P eqn:HP.
  remember (2 ^ (e2 - e1)) as Q eqn:HQ.
  assert (Zpos m1 * P < 2 * A * P) as Ha by (apply Z.mul_lt_mono_pos_r; lia).
  assert (2 * A * P <= Zpos m2 * (Q * P)) as Hb'; [| lia].
  rewrite Z.mul_assoc. apply Z.mul_le_mono_nonneg_r; [lia |].
  assert (0 < A) by (subst A; apply pow2_pos; unfold prec; lia).
  nia.
Qed.

Lemma Zcompare_mul_pos (x y p : Z) : 0 < p -> (x * p ?= y * p) = (x ?= y).
Proof.
  intros Hp. destruct (Z.compare_spec x y) as [-> | H | H].
  - apply Z.compare_refl.
  - apply Z.compare_lt_iff. nia.
  - apply Z.compare_gt_iff. nia.
Qed.

(** On numbers of the format, the comparison is the comparison of the values. *)
Lemma SFcompare_finite_pos (b : Z) (m1 : positive) (e1 : Z) (m2 : positive) (e2 : Z) :
  bounded prec emax m1 e1 = true -> bounded prec emax m2 e2 = true ->
  b <= e1 -> b <= e2 ->
  SFcompare (S754_finite false m1 e1) (S754_finite false m2 e2) =
  Some (Zpos m1 * 2 ^ (e1 - b) ?= Zpos m2 * 2 ^ (e2 - b)).
Proof.
  intros H1 H2 Hb1 Hb2. cbn [SFcompare]. f_equal.
  destruct (Z.compare_spec e1 e2) as [Heq | Hlt | Hgt].
  - subst e2. rewrite Pos.compare_cont_spec. cbn [Pos.switch_Eq].
    rewrite Zcompare_mul_pos by (apply pow2_pos; lia).
    change (Z.pos m1 ?= Z.pos m2) with (m1 ?= m2)%positive.
    destruct (m1 ?= m2)%positive; reflexivity.
  - symmetry. apply Z.compare_lt_iff. apply bounded_exp_lt; assumption.
  - symmetry. apply Z.compare_gt_iff. apply bounded_exp_lt; assumption.
Qed.

Lemma SFcompare_finite_neg (b : Z) (m1 : positive) (e1 : Z) (m2 : positive) (e2 : Z) :
  bounded prec emax m1 e1 = true -> bounded prec emax m2 e2 = true ->
  b <= e1 -> b <= e2 ->
  SFcompare (S754_finite true m1 e1) (S754_finite true m2 e2) =
  Some (Zpos m2 * 2 ^ (e2 - b) ?= Zpos m1 * 2 ^ (e1 - b)).
Proof.
  intros H1 H2 Hb1 Hb2. cbn [SFcompare]. f_equal.
  destruct (Z.compare_spec e1 e2) as [Heq | Hlt | Hgt].
  - subst e2. rewrite Pos.compare_cont_spec. cbn [Pos.switch_Eq].
    rewrite Zcompare_mul_pos by (apply pow2_pos; lia).
    change (Z.pos m2 ?= Z.pos m1) with (m2 ?= m1)%positive.
    rewrite (Pos.compare_antisym m1 m2).
    destruct (m1 ?= m2)%positive; reflexivity.
  - symmetry. apply Z.compare_gt_iff. apply bounded_exp_lt; assumption.
  - symmetry. apply Z.compare_lt_iff. apply bounded_exp_lt; assumption.
Qed.
End Rounding.

(** ** [canonize] on every double *)

Section Binary64Canonize.
Local Open Scope Z_scope.

Lemma get_sign_spec (x : float) : get_sign x = SFsign (Prim2SF x).
Proof.
  unfold get_sign, PrimFloat.is_zero. cbv zeta. rewrite FloatAxioms.eqb_spec.
  change (Prim2SF zero) with (S754_zero false).
  destruct (Prim2SF x) as [s | s | | s m e] eqn:Hx;
    try destruct s; cbn [SFeqb SFcompare SFsign];
    rewrite FloatAxioms.ltb_spec, ?FloatAxioms.div_spec, Hx;
    reflexivity.
Qed.

Lemma is_infinity_spec (x : float) :
  is_infinity x = match Prim2SF x with S754_infinity _ => true | _ => false end.
Proof.
  unfold is_infinity. rewrite FloatAxioms.eqb_spec, abs_spec.
  change (Prim2SF infinity) with (S754_infinity false).
  destruct (Prim2SF x) as [s | s | | s m e]; reflexivity.
Qed.

(** [copysign64] keeps the magnitude of the first argument. *)
Lemma copysign64_spec (x y : float) :
  Prim2SF (copysign64 x y) =
  if SFsign (Prim2SF y) then SFopp (SFabs (Prim2SF x)) else SFabs (Prim2SF x).
Proof.
  unfold copysign64. rewrite get_sign_spec.
  destruct (SFsign (Prim2SF y)).
  - now rewrite FloatAxioms.opp_spec, FloatAxioms.abs_spec.
  - now rewrite FloatAxioms.abs_spec.
Qed.


Lemma SFle_mag_abs (b : Z) (u : spec_float) (s s' : bool) (mc : positive) (ec : Z) :
  SFle_mag b u s mc ec ->
  SFle_mag b (if s' then SFopp (SFabs u) else SFabs u) s' mc ec.
Proof.
  intros [-> | (m & e & -> & Hv)].
  - left. destruct s'; reflexivity.
  - right. exists m, e. split; [destruct s'; reflexivity | exact Hv].
Qed.

Lemma one_value (b : Z) : b <= -52 -> Zpos 4503599627370496 * 2 ^ (-52 - b) = 2 ^ (0 - b).
Proof.
  intros Hb. rewrite (pow2_split b (-52) 0) by lia. reflexivity.
Qed.

Lemma one_bounded : bounded prec emax 4503599627370496 (-52) = true.
Proof. reflexivity. Qed.

Lemma digits2_pos_le (n : positive) (k : Z) :
  Zpos n < 2 ^ k -> Zpos (digits2_pos n) <= k.
Proof.
  intros Hn. destruct (digits2_pos_bounds n) as [Hlo _].
  destruct (Z_le_gt_dec (Zpos (digits2_pos n)) k) as [| Hgt]; [assumption | exfalso].
  assert (2 ^ k <= 2 ^ (Zpos (digits2_pos n) - 1)); [| lia].
  destruct (Z_lt_le_dec k 0) as [Hk | Hk].
  - rewrite (Z.pow_neg_r 2 k) by assumption. apply Z.pow_nonneg. lia.
  - apply Z.pow_le_mono_r; lia.
Qed.

(** What is left of a number of the format after its integral part is taken
    away is at most one in magnitude. *)
Lemma frac_core (b : Z) (s : bool) (m : positive) (e : Z) :
  bounded prec emax m e = true -> e < 0 -> b <= emin ->
  let T := binary_normalize prec emax (Z.shiftr (Zpos m) (- e)) 0 false in
  exists s',
    SFle_mag b (SF64sub (S754_finite s m e) (if s then SFopp T else T)) s'
             4503599627370496 (-52).
Proof.
  intros Hbd He Hb. cbv zeta.
  destruct (bounded_digits _ _ Hbd) as (Hdm & Hemin & _ & _).
  assert (b <= -52) as Hb52 by (unfold SpecFloat.emin, emax, prec in *; lia).
  rewrite Z.shiftr_div_pow2 by lia.
  set (k := - e). set (N := Zpos m / 2 ^ k).
  assert (0 < 2 ^ k) as Hpk by (apply pow2_pos; unfold k; lia).
  assert (0 < 2 ^ (e - b)) as HP by (apply pow2_pos; lia).
  assert (2 ^ (0 - b) = 2 ^ k * 2 ^ (e - b)) as Hunit.
  { rewrite (pow2_split b e 0) by lia. unfold k. f_equal. }
  assert (0 <= N) as HN by (apply Z.div_pos; lia).
  assert (N * 2 ^ k <= Zpos m < N * 2 ^ k + 2 ^ k) as Hfl.
  { unfold N. pose proof (Z.mul_div_le (Zpos m) (2 ^ k) Hpk).
    pose proof (Z.mul_succ_div_gt (Zpos m) (2 ^ k) Hpk). lia. }
  destruct N as [| n | n] eqn:HNeq; [| | lia].
  - (* the integral part is zero *)
    exists s. right. exists m, e.
    split; [destruct s; reflexivity |].
    rewrite one_value, Hunit by assumption. nia.
  - assert (Zpos (digits2_pos n) <= prec) as Hdn.
    { apply digits2_pos_le.
      destruct (digits2_pos_bounds m) as [_ Hm].
      assert (2 ^ Zpos (digits2_pos m) <= 2 ^ prec) by (apply Z.pow_le_mono_r; lia).
      assert (1 <= 2 ^ k) by lia. nia. }
    destruct (binary_round_exact false n 0) as (mi & ei & Hr & Hbi & Hei & Hmi);
      [assumption | unfold SpecFloat.emin, emax, prec; lia
       | unfold emax, prec in *; lia |].
    cbn [binary_normalize]. rewrite Hr.
    destruct (bounded_digits _ _ Hbi) as (_ & Heimin & _ & _).
    replace (if s then SFopp (S754_finite false mi ei) else S754_finite false mi ei)
      with (S754_finite s mi ei) by (destruct s; reflexivity).
    unfold SF64sub, SFsub. cbv zeta.
    set (ez := Z.min e ei).
    destruct (shl_align_spec m e ez) as (_ & HM1 & _).
    destruct (shl_align_spec mi ei ez) as (_ & HM2 & _).
    replace (Z.min e ez) with ez in HM1 by (unfold ez; lia).
    replace (Z.min ei ez) with ez in HM2 by (unfold ez; lia).
    set (M1 := Zpos (fst (shl_align m e ez))) in *.
    set (M2 := Zpos (fst (shl_align mi ei ez))) in *.
    assert (b <= ez) as Hbez by (unfold ez; lia).
    assert (0 < 2 ^ (ez - b)) as HPz by (apply pow2_pos; lia).
    assert (M1 * 2 ^ (ez - b) = Zpos m * 2 ^ (e - b)) as HV1.
    { rewrite HM1, (pow2_split b ez e) by (unfold ez; lia). ring. }
    assert (M2 * 2 ^ (ez - b) = Zpos n * 2 ^ (0 - b)) as HV2.
    { rewrite HM2, Hmi, (pow2_split b ei 0), (pow2_split b ez ei) by (unfold ez; lia). ring. }
    assert (0 <= M1 - M2 /\ (M1 - M2) * 2 ^ (ez - b) <= 2 ^ (0 - b)) as [HD0 HD1].
    { rewrite Z.mul_sub_distr_r, HV1, HV2, Hunit. split; nia. }
    assert (cond_Zopp s M1 - cond_Zopp s M2 = cond_Zopp s (M1 - M2)) as ->
      by (destruct s; unfold cond_Zopp; lia).
    destruct (M1 - M2) as [| p | p] eqn:HD; [| | lia].
    + exists false. left. destruct s; reflexivity.
    + exists s.
      replace (binary_normalize prec emax (cond_Zopp s (Zpos p)) ez false)
        with (binary_round prec emax s p ez) by (destruct s; reflexivity).
      destruct (binary_round_le b s p ez 4503599627370496 (-52)) as [Hz | (m' & e' & Hr' & Hv')];
        auto; try lia.
      * rewrite one_value by assumption. exact HD1.
      * left. exact Hz.
      * right. exists m', e'. split; assumption.
Qed.

Lemma Prim2SF_bounded (x : float) (s : bool) (m : positive) (e : Z) :
  Prim2SF x = S754_finite s m e -> bounded prec emax m e = true.
Proof. intros H. pose proof (Prim2SF_valid x) as Hv. rewrite H in Hv. exact Hv. Qed.

Lemma shiftr_small (m : positive) (e : Z) :
  bounded prec emax m e = true -> e < 0 ->
  to_Z (Uint63.of_Z (Z.shiftr (Zpos m) (- e))) = Z.shiftr (Zpos m) (- e).
Proof.
  intros Hbd He. destruct (bounded_digits _ _ Hbd) as (Hdm & _).
  rewrite Uint63.of_Z_spec. apply Z.mod_small.
  rewrite Z.shiftr_div_pow2 by lia.
  assert (0 < 2 ^ (- e)) as Hp by (apply pow2_pos; lia).
  split; [apply Z.div_pos; lia |].
  apply Z.div_lt_upper_bound; [lia |].
  destruct (digits2_pos_bounds m) as [_ Hm].
  assert (2 ^ Zpos (digits2_pos m) <= 2 ^ prec) by (apply Z.pow_le_mono_r; lia).
  assert (2 ^ prec < wB) by reflexivity.
  nia.
Qed.

Lemma modf64_frac_small (b : Z) (q : float) :
  b <= emin -> Prim2SF q <> S754_nan ->
  SFle_mag b (Prim2SF (fst (modf64 q))) (SFsign (Prim2SF q))
           4503599627370496 (-52).
Proof.
  intros Hb Hnan. unfold modf64. rewrite is_infinity_spec.
  assert (forall u, Prim2SF u = S754_zero false ->
            SFle_mag b (Prim2SF (copysign64 u q)) (SFsign (Prim2SF q))
                     4503599627370496 (-52)) as Hzero.
  { intros u Hu. rewrite copysign64_spec, Hu. left.
    destruct (SFsign (Prim2SF q)); reflexivity. }
  destruct (Prim2SF q) as [s | s | | s m e] eqn:Hq.
  - cbn [fst]. apply Hzero.
    unfold trunc64. rewrite Hq, FloatAxioms.sub_spec, Hq.
    apply SF64sub_diag. exact I.
  - cbn [fst]. apply Hzero. reflexivity.
  - contradiction.
  - pose proof (Prim2SF_bounded _ _ _ _ Hq) as Hbd.
    cbn [fst]. unfold trunc64. rewrite Hq.
    destruct (0 <=? e) eqn:He.
    + apply Hzero. rewrite FloatAxioms.sub_spec, Hq. apply SF64sub_diag. exact I.
    + apply Z.leb_gt in He. cbv zeta.
      rewrite copysign64_spec, FloatAxioms.sub_spec, Hq.
      assert (Prim2SF (if s
                       then (- of_uint63 (Uint63.of_Z (Z.shiftr (Z.pos m) (- e))))%float
                       else of_uint63 (Uint63.of_Z (Z.shiftr (Z.pos m) (- e)))) =
              if s then SFopp (binary_normalize prec emax (Z.shiftr (Zpos m) (- e)) 0 false)
              else binary_normalize prec emax (Z.shiftr (Zpos m) (- e)) 0 false) as ->.
      { destruct s; rewrite ?FloatAxioms.opp_spec, of_uint63_spec, shiftr_small by assumption;
          reflexivity. }
      destruct (frac_core b s m e Hbd He Hb) as [s' Hs'].
      cbn [SFsign]. apply (SFle_mag_abs b _ s' s). exact Hs'.
Qed.


Lemma Prim2SF_pi64 : Prim2SF pi64 = S754_finite false 7074237752028440 (-51).
Proof. vm_compute. reflexivity. Qed.

Lemma Prim2SF_opp_pi64 : Prim2SF (- pi64)%float = S754_finite true 7074237752028440 (-51).
Proof. vm_compute. reflexivity. Qed.

Lemma Prim2SF_tau64 : Prim2SF tau64 = S754_finite false 7074237752028440 (-50).
Proof. vm_compute. reflexivity. Qed.

Lemma pi64_bounded : bounded prec emax 7074237752028440 (-51) = true.
Proof. reflexivity. Qed.

Lemma tau64_bounded : bounded prec emax 7074237752028440 (-50) = true.
Proof. reflexivity. Qed.

Lemma SFle_mag_bounded (b : Z) (x : float) (s : bool) (mc : positive) (ec : Z) :
  SFle_mag b (Prim2SF x) s mc ec ->
  Prim2SF x = S754_zero s \/
  exists m e, Prim2SF x = S754_finite s m e /\ bounded prec emax m e = true /\
              Zpos m * 2 ^ (e - b) <= Zpos mc * 2 ^ (ec - b).
Proof.
  intros [H | (m & e & H & Hv)]; [left; exact H |].
  right. exists m, e. split; [exact H | split; [| exact Hv]].
  exact (Prim2SF_bounded _ _ _ _ H).
Qed.

(** A fraction times 2*pi is at most 2*pi in magnitude. *)
Lemma mul_tau64_le (b : Z) (f : float) (s : bool) :
  b <= emin ->
  SFle_mag b (Prim2SF f) s 4503599627370496 (-52) ->
  SFle_mag (b - 50) (Prim2SF (tau64 * f)%float) s 7074237752028440 (-50).
Proof.
  intros Hb Hf. rewrite FloatAxioms.mul_spec, Prim2SF_tau64.
  assert (b <= -52) as Hb52 by (unfold SpecFloat.emin, emax, prec in *; lia).
  destruct (SFle_mag_bounded _ _ _ _ _ Hf) as [-> | (mf & ef & -> & Hbd & Hv)].
  - left. reflexivity.
  - destruct (bounded_digits _ _ Hbd) as (_ & Hef & _ & _).
    unfold SF64mul, SFmul. cbn [xorb].
    set (mt := 7074237752028440%positive) in *.
    assert (2 ^ 52 <= Zpos mt) as Hmt by (unfold mt; simpl; lia).
    destruct (binary_round_aux_le (b - 50) s (Zpos (mt * mf)) (-50 + ef) mt (-50))
      as [Hz | (m' & e' & Hr & _ & Hv')]; try lia.
    + destruct (digits2_pos_bounds (mt * mf)) as [_ Hhi].
      assert (52 < Zpos (digits2_pos (mt * mf))) as Hd.
      { apply (Z.pow_lt_mono_r_iff 2); [lia | lia |].
        rewrite Pos2Z.inj_mul in Hhi. nia. }
      change (Zdigits2 (Zpos (mt * mf))) with (Zpos (digits2_pos (mt * mf))).
      unfold fexp, prec. lia.
    + exact tau64_bounded.
    + rewrite one_value in Hv by assumption.
      replace (-50 + ef - (b - 50)) with (ef - b) by lia.
      replace (-50 - (b - 50)) with (0 - b) by lia.
      rewrite Pos2Z.inj_mul. nia.
    + left. exact Hz.
    + right. exists m', e'. split; assumption.
Qed.

(** Adding to +-pi a number of the other sign and of magnitude at most 2*pi
    gives a number of magnitude at most pi. *)
Lemma add_pi64_le (b : Z) (p y : float) (s : bool) :
  b <= emin ->
  Prim2SF p = S754_finite (negb s) 7074237752028440 (-51) ->
  SFle_mag b (Prim2SF y) s 7074237752028440 (-50) ->
  Prim2SF (p + y)%float = Prim2SF p \/
  exists s', SFle_mag b (Prim2SF (p + y)%float) s' 7074237752028440 (-51).
Proof.
  intros Hb Hp Hy. rewrite FloatAxioms.add_spec, Hp.
  assert (b <= -52) as Hb52 by (unfold SpecFloat.emin, emax, prec in *; lia).
  destruct (SFle_mag_bounded _ _ _ _ _ Hy) as [-> | (my & ey & -> & Hbd & Hv)].
  - left. reflexivity.
  - right. destruct (bounded_digits _ _ Hbd) as (_ & Hey & _ & _).
    set (mt := 7074237752028440%positive) in *.
    unfold SF64add, SFadd. cbv zeta.
    set (ez := Z.min (-51) ey).
    destruct (shl_align_spec mt (-51) ez) as (_ & HA & _).
    destruct (shl_align_spec my ey ez) as (_ & HY & _).
    replace (Z.min (-51) ez) with ez in HA by (unfold ez; lia).
    replace (Z.min ey ez) with ez in HY by (unfold ez; lia).
    set (A := Zpos (fst (shl_align mt (-51) ez))) in *.
    set (Y := Zpos (fst (shl_align my ey ez))) in *.
    assert (b <= ez) as Hbez by (unfold ez; lia).
    assert (0 < 2 ^ (ez - b)) as HPz by (apply pow2_pos; lia).
    assert (A * 2 ^ (ez - b) = Zpos mt * 2 ^ (-51 - b)) as HVA.
    { rewrite HA, (pow2_split b ez (-51)) by (unfold ez; lia). ring. }
    assert (Y * 2 ^ (ez - b) = Zpos my * 2 ^ (ey - b)) as HVY.
    { rewrite HY, (pow2_split b ez ey) by (unfold ez; lia). ring. }
    assert (2 ^ (-50 - b) = 2 * 2 ^ (-51 - b)) as Htwo.
    { rewrite (pow2_split b (-51) (-50)) by lia. reflexivity. }
    assert (0 < A) as HApos by (unfold A; lia).
    assert (0 < Y) as HYpos by (unfold Y; lia).
    assert (Y <= 2 * A) as HYA by nia.
    assert (forall s' q, Zpos q <= A ->
              SFle_mag b (binary_round prec emax s' q ez) s' mt (-51)) as Hround.
    { intros s' q Hq.
      destruct (binary_round_le b s' q ez mt (-51)) as [Hz | (m' & e' & Hr & Hv')];
        auto; try lia.
      - rewrite <- HVA. nia.
      - left. exact Hz.
      - right. exists m', e'. split; assumption. }
    assert (cond_Zopp (negb s) A + cond_Zopp s Y = cond_Zopp s (Y - A)) as ->
      by (destruct s; unfold cond_Zopp; cbn [negb]; lia).
    destruct (Y - A) as [| q | q] eqn:HD.
    + exists false. left. destruct s; reflexivity.
    + exists s.
      replace (binary_normalize prec emax (cond_Zopp s (Zpos q)) ez false)
        with (binary_round prec emax s q ez) by (destruct s; reflexivity).
      apply Hround. lia.
    + exists (negb s).
      replace (binary_normalize prec emax (cond_Zopp s (Zneg q)) ez false)
        with (binary_round prec emax (negb s) q ez) by (destruct s; reflexivity).
      apply Hround. lia.
Qed.

(** A double of magnitude at most pi lies between -M_PI and M_PI. *)
Lemma SFle_mag_pi64_leb (b : Z) (v : float) (s : bool) :
  b <= emin ->
  SFle_mag b (Prim2SF v) s 7074237752028440 (-51) ->
  (- pi64 <=? v)%float = true /\ (v <=? pi64)%float = true.
Proof.
  intros Hb Hv. rewrite !FloatAxioms.leb_spec, Prim2SF_pi64, Prim2SF_opp_pi64.
  assert (b <= -52) as Hb52 by (unfold SpecFloat.emin, emax, prec in *; lia).
  destruct (SFle_mag_bounded _ _ _ _ _ Hv) as [-> | (m & e & -> & Hbd & Hle)].
  - split; reflexivity.
  - destruct (bounded_digits _ _ Hbd) as (_ & He & _ & _).
    unfold SFleb. destruct s.
    + rewrite (SFcompare_finite_neg b) by (auto using pi64_bounded; lia).
      split; [| reflexivity].
      destruct (Z.compare_spec (Zpos m * 2 ^ (e - b))
                  (Zpos 7074237752028440 * 2 ^ (-51 - b))); try reflexivity; lia.
    + rewrite (SFcompare_finite_pos b) by (auto using pi64_bounded; lia).
      split; [reflexivity |].
      destruct (Z.compare_spec (Zpos m * 2 ^ (e - b))
                  (Zpos 7074237752028440 * 2 ^ (-51 - b))); try reflexivity; lia.
Qed.


Lemma binary_round_sign (s : bool) (m : positive) (e : Z) :
  SFnot_nan (binary_round prec emax s m e) /\
  SFsign (binary_round prec emax s m e) = s.
Proof.
  destruct (binary_round_cases s m e) as [-> | [-> | (m' & e' & ->)]];
    split; simpl; auto.
Qed.

(** Above M_PI the difference with M_PI has the sign bit clear. *)
Lemma sub_pi64_above (r : float) (m : positive) (e : Z) :
  Prim2SF r = S754_finite false m e -> (pi64 <? r)%float = true ->
  SFnot_nan (Prim2SF (r - pi64)%float) /\ SFsign (Prim2SF (r - pi64)%float) = false.
Proof.
  intros Hr Hlt. pose proof (Prim2SF_bounded _ _ _ _ Hr) as Hbd.
  destruct (bounded_digits _ _ Hbd) as (_ & He & _ & _).
  rewrite FloatAxioms.ltb_spec, Prim2SF_pi64, Hr in Hlt. unfold SFltb in Hlt.
  set (b := emin - 60).
  rewrite (SFcompare_finite_pos b) in Hlt
    by (auto using pi64_bounded; unfold b, SpecFloat.emin, emax, prec in *; lia).
  set (mt := 7074237752028440%positive) in *.
  destruct (Z.compare_spec (Zpos mt * 2 ^ (-51 - b)) (Zpos m * 2 ^ (e - b)))
    as [| Hval |]; try discriminate.
  rewrite FloatAxioms.sub_spec, Hr, Prim2SF_pi64. fold mt.
  unfold SF64sub, SFsub. cbv zeta. cbn [cond_Zopp].
  set (ez := Z.min e (-51)).
  destruct (shl_align_spec m e ez) as (_ & HM & _).
  destruct (shl_align_spec mt (-51) ez) as (_ & HA & _).
  replace (Z.min e ez) with ez in HM by (unfold ez; lia).
  replace (Z.min (-51) ez) with ez in HA by (unfold ez; lia).
  set (M := Zpos (fst (shl_align m e ez))) in *.
  set (A := Zpos (fst (shl_align mt (-51) ez))) in *.
  assert (b <= ez) as Hbez by (unfold ez, b, SpecFloat.emin, emax, prec in *; lia).
  assert (0 < 2 ^ (ez - b)) as HPz by (apply pow2_pos; lia).
  assert (M * 2 ^ (ez - b) = Zpos m * 2 ^ (e - b)) as HVM.
  { rewrite HM, (pow2_split b ez e) by (unfold ez; lia). ring. }
  assert (A * 2 ^ (ez - b) = Zpos mt * 2 ^ (-51 - b)) as HVA.
  { rewrite HA, (pow2_split b ez (-51)) by (unfold ez; lia). ring. }
  assert (0 < M - A) as HD by nia.
  destruct (M - A) as [| p | p]; try lia.
  cbn [binary_normalize]. apply binary_round_sign.
Qed.

(** At or below -M_PI the difference with -M_PI has the sign bit set, unless
    the double is -M_PI itself. *)
Lemma sub_pi64_below (r : float) (m : positive) (e : Z) :
  Prim2SF r = S754_finite true m e -> (r <=? - pi64)%float = true ->
  r = (- pi64)%float \/
  (SFnot_nan (Prim2SF (r - - pi64)%float) /\
   SFsign (Prim2SF (r - - pi64)%float) = true).
Proof.
  intros Hr Hle. pose proof (Prim2SF_bounded _ _ _ _ Hr) as Hbd.
  destruct (bounded_digits _ _ Hbd) as (_ & He & _ & _).
  rewrite FloatAxioms.leb_spec, Prim2SF_opp_pi64, Hr in Hle. unfold SFleb in Hle.
  set (b := emin - 60).
  rewrite (SFcompare_finite_neg b) in Hle
    by (auto using pi64_bounded; unfold b, SpecFloat.emin, emax, prec in *; lia).
  set (mt := 7074237752028440%positive) in *.
  rewrite FloatAxioms.sub_spec, Hr, Prim2SF_opp_pi64. fold mt.
  unfold SF64sub, SFsub. cbv zeta. cbn [cond_Zopp].
  set (ez := Z.min e (-51)).
  destruct (shl_align_spec m e ez) as (_ & HM & _).
  destruct (shl_align_spec mt (-51) ez) as (_ & HA & _).
  replace (Z.min e ez) with ez in HM by (unfold ez; lia).
  replace (Z.min (-51) ez) with ez in HA by (unfold ez; lia).
  set (M := Zpos (fst (shl_align m e ez))) in *.
  set (A := Zpos (fst (shl_align mt (-51) ez))) in *.
  assert (b <= ez) as Hbez by (unfold ez, b, SpecFloat.emin, emax, prec in *; lia).
  assert (0 < 2 ^ (ez - b)) as HPz by (apply pow2_pos; lia).
  assert (M * 2 ^ (ez - b) = Zpos m * 2 ^ (e - b)) as HVM.
  { rewrite HM, (pow2_split b ez e) by (unfold ez; lia). ring. }
  assert (A * 2 ^ (ez - b) = Zpos mt * 2 ^ (-51 - b)) as HVA.
  { rewrite HA, (pow2_split b ez (-51)) by (unfold ez; lia). ring. }
  destruct (Z.compare_spec (Zpos mt * 2 ^ (-51 - b)) (Zpos m * 2 ^ (e - b)))
    as [Heq | Hval |]; try discriminate.
  - left. apply Prim2SF_inj. rewrite Hr, Prim2SF_opp_pi64. fold mt.
    destruct (Z.compare_spec e (-51)) as [-> | Hlt | Hgt].
    + f_equal. assert (Zpos m = Zpos mt) by nia. congruence.
    + pose proof (bounded_exp_lt b m e mt (-51) Hbd pi64_bounded).
      unfold b, SpecFloat.emin, emax, prec in *. lia.
    + pose proof (bounded_exp_lt b mt (-51) m e pi64_bounded Hbd).
      unfold b, SpecFloat.emin, emax, prec in *. lia.
  - right. assert (- M - - A < 0) as HD by nia.
    destruct (- M - - A) as [| p | p]; try lia.
    cbn [binary_normalize]. apply binary_round_sign.
Qed.

(** Dividing by 2*pi keeps the sign bit and makes no NaN. *)
Lemma div_tau64_sign (x : float) :
  SFnot_nan (Prim2SF x) ->
  SFnot_nan (Prim2SF (x / tau64)%float) /\
  SFsign (Prim2SF (x / tau64)%float) = SFsign (Prim2SF x).
Proof.
  intros Hx. rewrite FloatAxioms.div_spec, Prim2SF_tau64.
  destruct (Prim2SF x) as [s | s | | s m e]; try contradiction;
    try (split; [exact I | destruct s; reflexivity]).
  unfold SF64div, SFdiv.
  destruct (SFdiv_core_binary prec emax (Zpos m) e 7074237752028440 (-50))
    as [[mz ez] lz] eqn:Hcore.
  assert (0 <= mz) as Hmz.
  { unfold SFdiv_core_binary in Hcore. cbv zeta in Hcore.
    match type of Hcore with
    | (let '(q, r) := Z.div_eucl ?a ?d in _) = _ =>
        assert (0 <= a) as Ha;
        [ | pose proof (Z.div_pos a d Ha ltac:(lia)) as Hq;
            unfold Z.div in Hq; destruct (Z.div_eucl a d) as [q r];
            inversion Hcore; subst; exact Hq ]
    end.
    match goal with
    | |- 0 <= match ?sft with _ => _ end =>
        destruct sft; [lia | | lia]
    end.
    apply Z.shiftl_nonneg. lia. }
  replace (xorb s false) with s by (destruct s; reflexivity).
  destruct (binary_round_aux_cases s mz ez lz Hmz) as [-> | [-> | (m' & e' & ->)]];
    split; simpl; auto.
Qed.

Lemma canonize64_eq (r : float) :
  getRad (fromRad r) =
  if ((pi64 <? r) || (r <=? - pi64))%float then
    (- copysign64 pi64 r +
     tau64 * fst (modf64 ((r - copysign64 pi64 r) / tau64)))%float
  else r.
Proof.
  unfold getRad, fromRad, Angle_of, canonize.
  cbn [rad dlt dle dneg dadd dsub dmul ddiv M_PI lit copysign modf libm64].
  fold tau64.
  destruct ((pi64 <? r) || (r <=? - pi64))%float; [| reflexivity].
  cbv zeta. destruct (modf64 ((r - copysign64 pi64 r) / tau64)); reflexivity.
Qed.

Lemma SFcompare_some (u v : spec_float) :
  SFnot_nan u -> SFnot_nan v -> exists c, SFcompare u v = Some c.
Proof.
  destruct u as [su | su | | su mu eu], v as [sv | sv | | sv mv ev];
    simpl; intros Hu Hv; try contradiction; eauto.
Qed.

(** Outside the two guards nothing is done, and the guards being false
    bound the value. *)
Lemma guards_false_bounds (r : float) :
  SFnot_nan (Prim2SF r) ->
  (pi64 <? r)%float = false -> (r <=? - pi64)%float = false ->
  (- pi64 <=? r)%float = true /\ (r <=? pi64)%float = true.
Proof.
  intros Hr Ha Hb.
  rewrite FloatAxioms.ltb_spec in Ha. rewrite FloatAxioms.leb_spec in Hb.
  rewrite !FloatAxioms.leb_spec.
  assert (SFnot_nan (Prim2SF pi64)) as Hp by (rewrite Prim2SF_pi64; exact I).
  assert (SFnot_nan (Prim2SF (- pi64)%float)) as Hn by (rewrite Prim2SF_opp_pi64; exact I).
  unfold SFltb, SFleb in *.
  rewrite (SFcompare_swap (Prim2SF r) (Prim2SF (- pi64)%float)).
  rewrite (SFcompare_swap (Prim2SF pi64) (Prim2SF r)).
  destruct (SFcompare_some _ _ Hr Hn) as [c1 Hc1].
  destruct (SFcompare_some _ _ Hp Hr) as [c2 Hc2].
  rewrite Hc1 in *. rewrite Hc2 in *.
  destruct c1, c2; simpl in *; try discriminate; split; reflexivity.
Qed.

(** Every double that is not a NaN is sent into [-M_PI, M_PI]. *)
Lemma fromRad_binary64_closed (r : float) :
  SFnot_nan (Prim2SF r) ->
  (- pi64 <=? getRad (fromRad r))%float = true /\
  (getRad (fromRad r) <=? pi64)%float = true.
Proof.
  intros Hnan. rewrite canonize64_eq.
  set (b := emin - 100).
  assert (b <= emin) as Hb by (unfold b; lia).
  assert (b - 50 <= emin) as Hb' by (unfold b; lia).
  destruct (pi64 <? r)%float eqn:Ha; cbn [orb].
  - (* above M_PI *)
    pose proof Ha as Ha'. rewrite FloatAxioms.ltb_spec, Prim2SF_pi64 in Ha'.
    destruct (Prim2SF r) as [s | s | | s m e] eqn:Hr;
      try (destruct s); try discriminate Ha'.
    + assert (r = infinity) as -> by (apply Prim2SF_inj; rewrite Hr; reflexivity).
      split; vm_compute; reflexivity.
    + assert (copysign64 pi64 r = pi64) as ->
        by (unfold copysign64; rewrite get_sign_spec, Hr; reflexivity).
      destruct (sub_pi64_above r m e Hr Ha) as [Hx Hxs].
      destruct (div_tau64_sign _ Hx) as [Hq Hqs]. rewrite Hxs in Hqs.
      assert (Prim2SF ((r - pi64) / tau64)%float <> S754_nan) as Hq'
        by (intros H; rewrite H in Hq; exact Hq).
      pose proof (modf64_frac_small b _ Hb Hq') as Hf. rewrite Hqs in Hf.
      pose proof (mul_tau64_le b _ false Hb Hf) as Hy.
      destruct (add_pi64_le (b - 50) (- pi64)%float _ false Hb' Prim2SF_opp_pi64 Hy)
        as [Heq | [s' Hv]].
      * apply Prim2SF_inj in Heq. rewrite Heq. split; vm_compute; reflexivity.
      * exact (SFle_mag_pi64_leb (b - 50) _ s' Hb' Hv).
  - destruct (r <=? - pi64)%float eqn:Hle.
    + (* at or below -M_PI *)
      pose proof Hle as Hle'.
      rewrite FloatAxioms.leb_spec, Prim2SF_opp_pi64 in Hle'.
      destruct (Prim2SF r) as [s | s | | s m e] eqn:Hr;
        try (destruct s); try discriminate Hle'.
      * assert (r = neg_infinity) as -> by (apply Prim2SF_inj; rewrite Hr; reflexivity).
        split; vm_compute; reflexivity.
      * assert (copysign64 pi64 r = (- pi64)%float) as ->
          by (unfold copysign64; rewrite get_sign_spec, Hr; reflexivity).
        destruct (sub_pi64_below r m e Hr Hle) as [-> | [Hx Hxs]];
          [split; vm_compute; reflexivity |].
        destruct (div_tau64_sign _ Hx) as [Hq Hqs]. rewrite Hxs in Hqs.
        assert (Prim2SF ((r - - pi64) / tau64)%float <> S754_nan) as Hq'
          by (intros H; rewrite H in Hq; exact Hq).
        pose proof (modf64_frac_small b _ Hb Hq') as Hf. rewrite Hqs in Hf.
        pose proof (mul_tau64_le b _ true Hb Hf) as Hy.
        change (- - pi64)%float with pi64.
        destruct (add_pi64_le (b - 50) pi64 _ true Hb' Prim2SF_pi64 Hy)
          as [Heq | [s' Hv]].
        -- apply Prim2SF_inj in Heq. rewrite Heq. split; vm_compute; reflexivity.
        -- exact (SFle_mag_pi64_leb (b - 50) _ s' Hb' Hv).
    + apply guards_false_bounds; assumption.
Qed.
End Binary64Canonize.

Section Binary64Corollaries.
Local Open Scope float_scope.

Lemma not_nan_SF (r : float) : r <> nan -> SFnot_nan (Prim2SF r).
Proof.
  intros Hr. destruct (Prim2SF r) eqn:H; try exact I.
  apply Hr. apply Prim2SF_inj. rewrite H. reflexivity.
Qed.

(** NaN in, NaN out; anything else ends in [-M_PI, M_PI]. *)
Lemma fromRad_binary64_nan_or_closed (r : float) :
  (r = nan /\ getRad (fromRad r) = nan) \/
  ((- pi64 <=? getRad (fromRad r)) = true /\ (getRad (fromRad r) <=? pi64) = true).
Proof.
  destruct (Prim2SF r) eqn:H.
  1, 2, 4: right; apply fromRad_binary64_closed; rewrite H; exact I.
  left. assert (r = nan) as -> by (apply Prim2SF_inj; rewrite H; reflexivity).
  split; reflexivity.
Qed.

Lemma leb_opp_pi64_strict (v : float) :
  (- pi64 <=? v) = true -> v <> (- pi64) -> (- pi64 <? v) = true.
Proof.
  rewrite FloatAxioms.leb_spec, FloatAxioms.ltb_spec, Prim2SF_opp_pi64.
  intros Hle Hne. unfold SFleb, SFltb in *.
  destruct (Prim2SF v) as [s | s | | s m e] eqn:Hv;
    try destruct s; try discriminate Hle; try reflexivity.
  cbn [SFcompare] in *.
  destruct (Z.compare_spec (-51) e) as [He | He | He]; try discriminate Hle;
    try reflexivity.
  rewrite Pos.compare_cont_spec in *. cbn [Pos.switch_Eq] in *.
  destruct (Pos.compare_spec 7074237752028440 m) as [Hm | Hm | Hm];
    try discriminate Hle; try reflexivity.
  exfalso. apply Hne. apply Prim2SF_inj.
  rewrite Hv, Prim2SF_opp_pi64, <- He, <- Hm. reflexivity.
Qed.

Lemma fromRad_binary64_idem (r : float) :
  getRad (fromRad r) <> - pi64 ->
  getRad (fromRad (getRad (fromRad r))) = getRad (fromRad r).
Proof.
  intros Hne. destruct (fromRad_binary64_nan_or_closed r) as [[-> _] | [Hlo Hhi]].
  - reflexivity.
  - apply fromRad_binary64_canonical; [| exact Hhi].
    apply leb_opp_pi64_strict; assumption.
Qed.

Lemma closed64_finite (v : float) :
  (- pi64 <=? v) = true -> (v <=? pi64) = true ->
  match Prim2SF v with S754_zero _ | S754_finite _ _ _ => True | _ => False end.
Proof.
  rewrite !FloatAxioms.leb_spec, Prim2SF_pi64, Prim2SF_opp_pi64.
  destruct (Prim2SF v) as [s | s | | s m e]; try exact (fun _ _ => I);
    try discriminate; destruct s; discriminate.
Qed.

Lemma isApprox_default_binary64_constructed (r : float) :
  r <> nan -> isApprox_default (fromRad r) (fromRad r) = true.
Proof.
  intros Hr.
  destruct (fromRad_binary64_closed r (not_nan_SF r Hr)) as [Hlo Hhi].
  pose proof (closed64_finite _ Hlo Hhi) as Hfin.
  unfold isApprox_default, isApprox, getRad in *.
  cbn [dlt fabs dsub lit_1e_5 libm64].
  rewrite FloatAxioms.ltb_spec, FloatAxioms.abs_spec, FloatAxioms.sub_spec.
  rewrite (SF64sub_diag _ Hfin). vm_compute. reflexivity.
Qed.
End Binary64Corollaries.

(** ** The interval on every double *)

(** X15: in binary64 every angle that fromRad, fromDeg or one of the
    operators makes holds a double v that is a NaN or satisfies
    -M_PI <= v <= M_PI; from fromRad a NaN comes out only when a NaN went
    in, so infinities and the largest doubles are brought into the interval
    as well. *)
Theorem binary64_angles_in_closed_interval :
  (forall r : float,
      (r = nan /\ getRad (fromRad r) = nan) \/
      ((- pi64 <=? getRad (fromRad r))%float = true /\
       (getRad (fromRad r) <=? pi64)%float = true)) /\
  (forall a : Angle float,
      (exists d, a = fromDeg d) \/
      (exists b c, a = operator_add b c) \/
      (exists b c, a = operator_sub b c) \/
      (exists b k, a = operator_mul b k) \/
      (exists k b, a = operator_mul_l k b) ->
      getRad a = nan \/
      ((- pi64 <=? getRad a)%float = true /\ (getRad a <=? pi64)%float = true)).
Proof.
  split; [exact fromRad_binary64_nan_or_closed |].
  assert (forall r : float,
            getRad (fromRad r) = nan \/
            ((- pi64 <=? getRad (fromRad r))%float = true /\
             (getRad (fromRad r) <=? pi64)%float = true)) as H.
  { intros r.
    destruct (fromRad_binary64_nan_or_closed r) as [[_ Hn] | Hc];
      [left; exact Hn | right; exact Hc]. }
  intros a [[d ->] | [(b & c & ->) | [(b & c & ->) | [(b & k & ->) | (k & b & ->)]]]];
    apply H.
Qed.

Lemma binary64_angles_in_closed_interval_witness :
  getRad (operator_mul (fromRad pi64) 3%float) = nan \/
  ((- pi64 <=? getRad (operator_mul (fromRad pi64) 3%float))%float = true /\
   (getRad (operator_mul (fromRad pi64) 3%float) <=? pi64)%float = true).
Proof.
  apply (proj2 binary64_angles_in_closed_interval).
  right. right. right. left. exists (fromRad pi64), 3%float. reflexivity.
Defined.

(** X16: in binary64 fromRad is idempotent on every double whose result is
    not -M_PI. *)
Theorem fromRad_binary64_idempotent :
  forall r : float,
    getRad (fromRad r) <> (- pi64)%float ->
    getRad (fromRad (getRad (fromRad r))) = getRad (fromRad r).
Proof. exact fromRad_binary64_idem. Qed.

Lemma fromRad_binary64_idempotent_witness :
  getRad (fromRad 4%float) <> (- pi64)%float /\
  getRad (fromRad (getRad (fromRad 4%float))) = getRad (fromRad 4%float).
Proof.
  assert (getRad (fromRad 4%float) <> (- pi64)%float) as H.
  { intros Heq. apply (f_equal Prim2SF) in Heq. vm_compute in Heq.
    discriminate Heq. }
  split; [exact H |].
  exact (fromRad_binary64_idempotent 4%float H).
Defined.

(** X17: in binary64 an angle made by fromRad from a double that is not a
    NaN is approximately equal to itself at the default precision; this
    includes the angles that hold -M_PI. *)
Theorem isApprox_default_binary64_reflexive_on_fromRad :
  forall r : float,
    r <> nan -> isApprox_default (fromRad r) (fromRad r) = true.
Proof. exact isApprox_default_binary64_constructed. Qed.

Lemma isApprox_default_binary64_reflexive_on_fromRad_witness :
  (3 * pi64)%float <> nan /\
  isApprox_default (fromRad (3 * pi64)%float) (fromRad (3 * pi64)%float) = true.
Proof.
  assert ((3 * pi64)%float <> nan) as H.
  { intros Heq. apply (f_equal Prim2SF) in Heq. vm_compute in Heq.
    discriminate Heq. }
  split; [exact H |].
  exact (isApprox_default_binary64_reflexive_on_fromRad (3 * pi64)%float H).
Defined.

(** ** The interval is kept by the operators *)

Section Binary64Closure.
Local Open Scope float_scope.

Lemma is_finite_spec (x : float) :
  is_finite x = true ->
  match Prim2SF x with S754_zero _ | S754_finite _ _ _ => True | _ => False end.
Proof.
  unfold is_finite, is_nan. rewrite is_infinity_spec, FloatAxioms.eqb_spec.
  destruct (Prim2SF x) as [s | s | | s m e]; try exact (fun _ => I).
  - destruct s; discriminate.
  - discriminate.
Qed.

Lemma binary_normalize_not_nan (m e : Z) (sz : bool) :
  SFnot_nan (binary_normalize prec emax m e sz).
Proof.
  destruct m as [| p | p]; cbn [binary_normalize]; [exact I | |];
    apply binary_round_sign.
Qed.

Lemma SF64add_not_nan (u v : spec_float) :
  match u with S754_zero _ | S754_finite _ _ _ => True | _ => False end ->
  match v with S754_zero _ | S754_finite _ _ _ => True | _ => False end ->
  SFnot_nan (SF64add u v).
Proof.
  destruct u as [su | su | | su mu eu], v as [sv | sv | | sv mv ev];
    intros Hu Hv; try contradiction; unfold SF64add, SFadd;
    try exact I; try (destruct su, sv; exact I).
  apply binary_normalize_not_nan.
Qed.

Lemma SF64sub_not_nan (u v : spec_float) :
  match u with S754_zero _ | S754_finite _ _ _ => True | _ => False end ->
  match v with S754_zero _ | S754_finite _ _ _ => True | _ => False end ->
  SFnot_nan (SF64sub u v).
Proof.
  destruct u as [su | su | | su mu eu], v as [sv | sv | | sv mv ev];
    intros Hu Hv; try contradiction; unfold SF64sub, SFsub;
    try exact I; try (destruct su, sv; exact I).
  apply binary_normalize_not_nan.
Qed.

Lemma SF64mul_not_nan (u v : spec_float) :
  match u with S754_zero _ | S754_finite _ _ _ => True | _ => False end ->
  match v with S754_zero _ | S754_finite _ _ _ => True | _ => False end ->
  SFnot_nan (SF64mul u v).
Proof.
  destruct u as [su | su | | su mu eu], v as [sv | sv | | sv mv ev];
    intros Hu Hv; try contradiction; unfold SF64mul, SFmul; try exact I.
  destruct (binary_round_aux_cases (xorb su sv) (Zpos (mu * mv)) (eu + ev) loc_Exact)
    as [-> | [-> | (m' & e' & ->)]]; try exact I. lia.
Qed.

Lemma SF64div_not_nan (u : spec_float) (s : bool) (m : positive) (e : Z) :
  SFnot_nan u -> SFnot_nan (SF64div u (S754_finite s m e)).
Proof.
  destruct u as [su | su | | su mu eu]; intros Hu; try contradiction; try exact I.
  unfold SF64div, SFdiv.
  destruct (SFdiv_core_binary prec emax (Zpos mu) eu (Zpos m) e)
    as [[mz ez] lz] eqn:Hcore.
  assert (0 <= mz)%Z as Hmz.
  { unfold SFdiv_core_binary in Hcore. cbv zeta in Hcore.
    match type of Hcore with
    | (let '(q, r) := Z.div_eucl ?a ?d in _) = _ =>
        assert (0 <= a)%Z as Ha;
        [ | pose proof (Z.div_pos a d Ha ltac:(lia)) as Hq;
            unfold Z.div in Hq; destruct (Z.div_eucl a d) as [q r];
            inversion Hcore; subst; exact Hq ]
    end.
    match goal with
    | |- (0 <= match ?sft with _ => _ end)%Z =>
        destruct sft; [lia | | lia]
    end.
    apply Z.shiftl_nonneg. lia. }
  destruct (binary_round_aux_cases (xorb su s) mz ez lz Hmz)
    as [-> | [-> | (m' & e' & ->)]]; exact I.
Qed.

(** The closed interval is kept by the operators, on doubles. *)
Lemma operators_binary64_closed (a b : Angle float) (k : float) :
  ((- pi64 <=? getRad a) = true /\ (getRad a <=? pi64) = true) ->
  ((- pi64 <=? getRad b) = true /\ (getRad b <=? pi64) = true) ->
  is_finite k = true ->
  ((- pi64 <=? getRad (operator_add a b)) = true /\
   (getRad (operator_add a b) <=? pi64) = true) /\
  ((- pi64 <=? getRad (operator_sub a b)) = true /\
   (getRad (operator_sub a b) <=? pi64) = true) /\
  ((- pi64 <=? getRad (operator_mul a k)) = true /\
   (getRad (operator_mul a k) <=? pi64) = true) /\
  ((- pi64 <=? getRad (operator_mul_l k a)) = true /\
   (getRad (operator_mul_l k a) <=? pi64) = true).
Proof.
  intros [Ha1 Ha2] [Hb1 Hb2] Hk.
  pose proof (closed64_finite _ Ha1 Ha2) as Hfa.
  pose proof (closed64_finite _ Hb1 Hb2) as Hfb.
  pose proof (is_finite_spec _ Hk) as Hfk.
  unfold operator_add, operator_sub, operator_mul, operator_mul_l.
  cbn [dadd dsub dmul libm64].
  repeat apply conj; apply fromRad_binary64_closed.
  - rewrite FloatAxioms.add_spec. apply SF64add_not_nan; assumption.
  - rewrite FloatAxioms.add_spec. apply SF64add_not_nan; assumption.
  - rewrite FloatAxioms.sub_spec. apply SF64sub_not_nan; assumption.
  - rewrite FloatAxioms.sub_spec. apply SF64sub_not_nan; assumption.
  - rewrite FloatAxioms.mul_spec. apply SF64mul_not_nan; assumption.
  - rewrite FloatAxioms.mul_spec. apply SF64mul_not_nan; assumption.
  - rewrite FloatAxioms.mul_spec. apply SF64mul_not_nan; assumption.
  - rewrite FloatAxioms.mul_spec. apply SF64mul_not_nan; assumption.
Qed.

Lemma fromDeg_binary64_closed (d : float) :
  d <> nan ->
  (- pi64 <=? getRad (fromDeg d)) = true /\ (getRad (fromDeg d) <=? pi64) = true.
Proof.
  intros Hd. unfold fromDeg. cbn [ddiv dmul lit M_PI libm64].
  change (Angle_of (d / of_Z 180 * pi64)) with (fromRad (d / of_Z 180 * pi64)).
  destruct (Prim2SF (d / of_Z 180 * pi64)) eqn:Hx.
  1, 2, 4: apply fromRad_binary64_closed; rewrite Hx; exact I.
  (* the product is a NaN only for an infinite quotient times zero, and pi is not zero *)
  exfalso. rewrite FloatAxioms.mul_spec, Prim2SF_pi64 in Hx.
  pose proof (SF64div_not_nan (Prim2SF d) false 6333186975989760 (-45) (not_nan_SF d Hd)) as Hq.
  rewrite FloatAxioms.div_spec in Hx.
  replace (Prim2SF (of_Z 180)) with (S754_finite false 6333186975989760 (-45)) in Hx
    by (vm_compute; reflexivity).
  destruct (SF64div (Prim2SF d) (S754_finite false 6333186975989760 (-45)))
    as [s | s | | s m e]; try contradiction; try discriminate Hx.
  unfold SF64mul, SFmul in Hx.
  destruct (binary_round_aux_cases (xorb s false) (Zpos (m * 7074237752028440)) (e + -51) loc_Exact)
    as [H | [H | (m' & e' & H)]]; try lia; rewrite H in Hx; discriminate Hx.
Qed.
End Binary64Closure.

(** X18: in binary64 the closed interval is an invariant of the class: if
    the values of a and b lie in [-M_PI, M_PI] and k is a finite double,
    then a + b, a - b, a * k and k * a hold values in [-M_PI, M_PI] (no NaN
    arises); and fromDeg(d) holds a value in [-M_PI, M_PI] for every double
    d that is not a NaN. *)
Theorem binary64_closed_interval_invariant :
  (forall (a b : Angle float) (k : float),
      ((- pi64 <=? getRad a)%float = true /\ (getRad a <=? pi64)%float = true) ->
      ((- pi64 <=? getRad b)%float = true /\ (getRad b <=? pi64)%float = true) ->
      is_finite k = true ->
      ((- pi64 <=? getRad (operator_add a b))%float = true /\
       (getRad (operator_add a b) <=? pi64)%float = true) /\
      ((- pi64 <=? getRad (operator_sub a b))%float = true /\
       (getRad (operator_sub a b) <=? pi64)%float = true) /\
      ((- pi64 <=? getRad (operator_mul a k))%float = true /\
       (getRad (operator_mul a k) <=? pi64)%float = true) /\
      ((- pi64 <=? getRad (operator_mul_l k a))%float = true /\
       (getRad (operator_mul_l k a) <=? pi64)%float = true)) /\
  (forall d : float,
      d <> nan ->
      (- pi64 <=? getRad (fromDeg d))%float = true /\
      (getRad (fromDeg d) <=? pi64)%float = true).
Proof. split; [exact operators_binary64_closed | exact fromDeg_binary64_closed]. Qed.

Lemma binary64_closed_interval_invariant_witness :
  ((- pi64 <=? getRad (mkAngle pi64))%float = true /\
   (getRad (mkAngle pi64) <=? pi64)%float = true) /\
  is_finite 3%float = true /\
  (- pi64 <=? getRad (operator_mul (mkAngle pi64) 3%float))%float = true.
Proof.
  assert ((- pi64 <=? getRad (mkAngle pi64))%float = true /\
          (getRad (mkAngle pi64) <=? pi64)%float = true) as H
    by (split; reflexivity).
  assert (is_finite 3%float = true) as Hk by reflexivity.
  split; [exact H | split; [exact Hk |]].
  exact (proj1 (proj1 (proj2 (proj2
           (proj1 binary64_closed_interval_invariant
                  (mkAngle pi64) (mkAngle pi64) 3%float H H Hk))))).
Defined.

(** ** The error of one rounding

    The rounding of [SpecFloat] once more, this time with the distance
    between the number and its rounding: at most two units in the last
    place of any bound of the format that lies above the number. *)

Section RoundingError.
Local Open Scope Z_scope.


(** The second pass of [binary_round_aux], on a mantissa that is at most the
    bound [K] at the exponent [e1] of the first pass. *)
Lemma round_second_pass (b : Z) (s : bool) (m2 e1 : Z) (mc : positive) (ec : Z) :
  0 <= m2 -> b <= e1 -> e1 <= ec ->
  bounded prec emax mc ec = true ->
  m2 * 2 ^ (e1 - b) <= Zpos mc * 2 ^ (ec - b) ->
  forall R,
    R = (let '(mrs'', e'') := shr_fexp prec emax m2 e1 loc_Exact in
         match shr_m mrs'' with
         | Z0 => S754_zero s
         | Zpos p =>
             if e'' <=? emax - prec then S754_finite s p e''
             else S754_infinity s
         | Zneg _ => S754_nan
         end) ->
    SFle_mag b R s mc ec /\ SFexp_ge e1 R /\
    m2 * 2 ^ (e1 - b) - 2 ^ (ec - b) < SFmagZ b R <= m2 * 2 ^ (e1 - b).
Proof.
  intros Hm2 Hbe He1 Hbd Hle R ->.
  destruct (bounded_inv _ _ Hbd) as [Hcan Hmax].
  assert (0 < 2 ^ (e1 - b)) as Hp1 by (apply pow2_pos; lia).
  assert (0 < 2 ^ (ec - b)) as Hpc by (apply pow2_pos; lia).
  unfold shr_fexp. simpl shr_record_of_loc.
  set (n2 := fexp prec emax (Zdigits2 m2 + e1) - e1).
  destruct (Z_le_gt_dec n2 0) as [Hn2 | Hn2].
  - rewrite shr_nonpos by assumption. simpl shr_m.
    destruct m2 as [| p | p]; [| | lia].
    + split; [left; reflexivity | split; [exact I | simpl; lia]].
    + replace (e1 <=? emax - prec) with true by (symmetry; apply Z.leb_le; lia).
      split; [right; exists p, e1; split; [reflexivity | exact Hle] |].
      split; [cbn [SFexp_ge]; lia |].
      cbn [SFmagZ]. lia.
  - destruct (shr_pos m2 false false e1 n2 Hm2) as (He'' & Hm3 & _); [lia |].
    destruct (shr _ e1 n2) as [mrs'' e'']. simpl fst in *. simpl snd in *.
    rewrite Hm3.
    assert (0 < 2 ^ n2) as Hpn by (apply pow2_pos; lia).
    assert (0 <= m2 / 2 ^ n2) as Hq by (apply Z.div_pos; lia).
    assert (2 ^ n2 * (m2 / 2 ^ n2) <= m2 < 2 ^ n2 * (m2 / 2 ^ n2) + 2 ^ n2) as Hfloor.
    { pose proof (Z.mul_div_le m2 (2 ^ n2) Hpn).
      pose proof (Z.mul_succ_div_gt m2 (2 ^ n2) Hpn). lia. }
    destruct (Z.eq_dec m2 0) as [Hz | Hnz].
    { subst m2. rewrite Z.div_0_l by lia.
      split; [left; reflexivity | split; [exact I | simpl; lia]]. }
    assert (e'' <= ec) as He''ec.
    { rewrite He''. unfold n2.
      replace (e1 + (fexp prec emax (Zdigits2 m2 + e1) - e1))
        with (fexp prec emax (Zdigits2 m2 + e1)) by lia.
      rewrite <- Hcan. apply fexp_le.
      apply (Zdigits2_le b m2 e1 (Zpos mc) ec); auto; lia. }
    assert (2 ^ (e'' - b) = 2 ^ n2 * 2 ^ (e1 - b)) as Hsplit.
    { rewrite He'', (pow2_split b e1 (e1 + n2)) by lia. f_equal. f_equal. lia. }
    assert (2 ^ (e'' - b) <= 2 ^ (ec - b)) as Hpow by (apply Z.pow_le_mono_r; lia).
    destruct (m2 / 2 ^ n2) as [| p | p] eqn:Hdiv; [| | lia].
    + split; [left; reflexivity | split; [exact I |]]. cbn [SFmagZ]. nia.
    + replace (e'' <=? emax - prec) with true by (symmetry; apply Z.leb_le; lia).
      assert (Zpos p * 2 ^ (e'' - b) <= m2 * 2 ^ (e1 - b)) as Hup by (rewrite Hsplit; nia).
      split; [right; exists p, e''; split; [reflexivity | lia] |].
      split; [cbn [SFexp_ge]; lia |].
      cbn [SFmagZ]. split; [| exact Hup]. rewrite Hsplit in *. nia.
Qed.

(** Rounding moves a number by at most two units of the last place of the
    bound, whatever the location says about the discarded part. *)
Lemma binary_round_aux_err (b : Z) (s : bool) (m e : Z) (l : location)
      (mc : positive) (ec : Z) :
  0 <= m -> e <= fexp prec emax (Zdigits2 m + e) -> b <= e -> b <= ec ->
  bounded prec emax mc ec = true ->
  (m + 1) * 2 ^ (e - b) <= Zpos mc * 2 ^ (ec - b) ->
  SFle_mag b (binary_round_aux prec emax s m e l) s mc ec /\
  SFexp_ge e (binary_round_aux prec emax s m e l) /\
  e <= ec /\
  m * 2 ^ (e - b) - 2 * 2 ^ (ec - b) <=
    SFmagZ b (binary_round_aux prec emax s m e l) <=
  m * 2 ^ (e - b) + 2 * 2 ^ (ec - b).
Proof.
  intros Hm Hn Hbe Hbec Hbd Hle.
  destruct (bounded_inv _ _ Hbd) as [Hcan Hmax].
  set (e1 := fexp prec emax (Zdigits2 m + e)) in *.
  assert (0 < 2 ^ (e - b)) as Hp0 by (apply pow2_pos; lia).
  assert (0 < 2 ^ (ec - b)) as Hpc by (apply pow2_pos; lia).
  assert (e1 <= ec) as He1.
  { rewrite <- Hcan. unfold e1.
    destruct (Z.eq_dec m 0) as [-> | Hnz].
    - simpl Zdigits2. apply fexp_le.
      pose proof (Zdigits2_le b 1 e (Zpos mc) ec) as H1. simpl Zdigits2 in H1.
      lia.
    - apply fexp_le. apply (Zdigits2_le b m e (Zpos mc) ec); auto; try lia. }
  set (K := Zpos mc * 2 ^ (ec - e1)).
  assert (Zpos mc * 2 ^ (ec - b) = K * 2 ^ (e1 - b)) as HK.
  { unfold K. rewrite (pow2_split b e1 ec) by lia. ring. }
  assert (0 < 2 ^ (e1 - b)) as Hp1 by (apply pow2_pos; lia).
  set (n := e1 - e).
  assert (0 < 2 ^ n) as Hpn by (apply pow2_pos; unfold n; lia).
  assert (2 ^ (e1 - b) = 2 ^ n * 2 ^ (e - b)) as Hsplit.
  { rewrite (pow2_split b e e1) by lia. reflexivity. }
  assert (2 ^ (e1 - b) <= 2 ^ (ec - b)) as Hpow by (apply Z.pow_le_mono_r; lia).
  assert (m + 1 <= K * 2 ^ n) as HmK by (rewrite HK, Hsplit in Hle; nia).
  assert (2 ^ n * (m / 2 ^ n) <= m < 2 ^ n * (m / 2 ^ n) + 2 ^ n) as Hfloor.
  { pose proof (Z.mul_div_le m (2 ^ n) Hpn).
    pose proof (Z.mul_succ_div_gt m (2 ^ n) Hpn). lia. }
  assert (0 <= m / 2 ^ n) as Hq by (apply Z.div_pos; lia).
  (* the first pass *)
  assert (exists mrs', shr_fexp prec emax m e l = (mrs', e1) /\ shr_m mrs' = m / 2 ^ n)
    as (mrs' & Hfirst & Hm1).
  { unfold shr_fexp. fold e1. fold n.
    destruct (Z_le_gt_dec n 0) as [Hn0 | Hn0].
    - rewrite shr_nonpos by assumption.
      assert (n = 0) as Hn00 by (unfold n in *; lia).
      exists (shr_record_of_loc m l). split; [f_equal; unfold n in *; lia |].
      rewrite shr_record_of_loc_m, Hn00. simpl. now rewrite Z.div_1_r.
    - destruct (shr_record_of_loc m l) as [M r0 s0] eqn:Hrec.
      assert (M = m) as -> by (rewrite <- (shr_record_of_loc_m m l), Hrec; reflexivity).
      destruct (shr_pos m r0 s0 e n Hm) as (He' & Hm1 & _); [lia |].
      destruct (shr _ e n) as [mrs' e']. simpl fst in *. simpl snd in *.
      exists mrs'. split; [f_equal; unfold n in *; lia | exact Hm1]. }
  remember (binary_round_aux prec emax s m e l) as R eqn:HR.
  unfold binary_round_aux in HR. rewrite Hfirst in HR.
  set (m2 := round_nearest_even (shr_m mrs') (loc_of_shr_record mrs')) in HR.
  pose proof (round_nearest_even_bounds (shr_m mrs') (loc_of_shr_record mrs')) as Hrne.
  fold m2 in Hrne. rewrite Hm1 in Hrne.
  assert (m2 <= K) as Hm2K.
  { assert (m / 2 ^ n < K); [| lia]. apply Z.div_lt_upper_bound; lia. }
  destruct (round_second_pass b s m2 e1 mc ec) with (R := R) as (Hmag & Hge & Hlo & Hhi);
    auto; try lia.
  { rewrite HK. nia. }
  split; [exact Hmag |].
  split; [destruct R; simpl in *; auto; unfold n in *; lia |].
  split; [unfold n in *; lia |].
  rewrite Hsplit in *. split; nia.
Qed.
End RoundingError.

(** ** Doubles as real numbers *)

Section RealValue.
Local Open Scope R_scope.

Lemma Rabs_le_both (x a : R) : Rabs x <= a -> - a <= x <= a.
Proof. unfold Rabs. destruct (Rcase_abs x); lra. Qed.

Lemma pow2R_pos (e : Z) : 0 < powerRZ 2 e.
Proof. apply powerRZ_lt. lra. Qed.

Lemma pow2R_split (b e : Z) : (b <= e)%Z -> powerRZ 2 e = IZR (2 ^ (e - b)) * powerRZ 2 b.
Proof.
  intros H. replace e with ((e - b) + b)%Z at 1 by lia.
  rewrite powerRZ_add by lra. f_equal.
  destruct (e - b)%Z as [| p | p] eqn:Hd; [reflexivity | | lia].
  cbn [powerRZ]. rewrite pow_IZR. f_equal.
  rewrite positive_nat_Z. reflexivity.
Qed.

Lemma pow2R_le (a b : Z) : (a <= b)%Z -> powerRZ 2 a <= powerRZ 2 b.
Proof.
  intros H. rewrite (pow2R_split a b H).
  pose proof (pow2R_pos a).
  assert (1 <= IZR (2 ^ (b - a))); [| nra].
  apply IZR_le. pose proof (pow2_pos (b - a)). lia.
Qed.

Lemma pow2R_succ (a : Z) : powerRZ 2 (a + 1) = 2 * powerRZ 2 a.
Proof. rewrite powerRZ_add by lra. simpl. lra. Qed.

Lemma IZR_cond_Zopp (s : bool) (z : Z) :
  IZR (cond_Zopp s z) = (if s then -1 else 1) * IZR z.
Proof. destruct s; simpl; [rewrite opp_IZR |]; lra. Qed.

Lemma SF2R_opp (u : spec_float) : SF2R (SFopp u) = - SF2R u.
Proof.
  destruct u as [s | s | | s m e]; simpl; try lra.
  rewrite !IZR_cond_Zopp. destruct s; simpl; lra.
Qed.

Lemma SF2R_abs (u : spec_float) : SF2R (SFabs u) = Rabs (SF2R u).
Proof.
  destruct u as [s | s | | s m e]; simpl; try (rewrite Rabs_R0; reflexivity).
  pose proof (pow2R_pos e). rewrite IZR_cond_Zopp.
  assert (0 < IZR (Zpos m)) by (apply IZR_lt; lia).
  destruct s; cbn [cond_Zopp].
  - rewrite Rabs_left by nra. lra.
  - rewrite Rabs_right by nra. lra.
Qed.

Lemma SFfinite_opp (u : spec_float) : SFfinite u -> SFfinite (SFopp u).
Proof. destruct u; simpl; auto. Qed.

Lemma SFfinite_abs (u : spec_float) : SFfinite u -> SFfinite (SFabs u).
Proof. destruct u; simpl; auto. Qed.

Lemma pow2_bounded (E : Z) :
  (-1022 <= E <= 1023)%Z -> bounded prec emax 4503599627370496 (E - 52) = true.
Proof.
  intros H. unfold bounded, canonical_mantissa.
  apply andb_true_intro. split.
  - apply Z.eqb_eq.
    change (Zpos (digits2_pos 4503599627370496)) with 53%Z.
    unfold fexp, SpecFloat.emin, prec, emax. lia.
  - apply Z.leb_le. unfold emax, prec. lia.
Qed.

(** A number that is zero or finite with a known sign, read off its scaled
    magnitude. *)
Lemma SF2R_scaled (b : Z) (u : spec_float) (s : bool) (mc : positive) (ec : Z) :
  SFle_mag b u s mc ec -> SFexp_ge b u ->
  SFfinite u /\ SF2R u = IZR (cond_Zopp s (SFmagZ b u)) * powerRZ 2 b.
Proof.
  intros [-> | (m & e & -> & _)] Hge.
  - split; [exact I |]. simpl. destruct s; simpl; lra.
  - split; [exact I |]. cbn [SFexp_ge] in Hge. cbn [SF2R SFmagZ].
    rewrite (pow2R_split b e Hge), !IZR_cond_Zopp, mult_IZR. ring.
Qed.

(** Rounding, in real numbers: below [2^E] the result is finite, stays
    below [2^E] and is within [2^(E-51)] of the number rounded. *)
Lemma binary_round_aux_R (s : bool) (m e : Z) (l : location) (E : Z) :
  (0 <= m)%Z -> (e <= fexp prec emax (Zdigits2 m + e))%Z ->
  (-1022 <= E <= 1023)%Z -> (e <= E)%Z ->
  (IZR m + 1) * powerRZ 2 e <= powerRZ 2 E ->
  (e <= E - 52)%Z /\
  SFfinite (binary_round_aux prec emax s m e l) /\
  Rabs (SF2R (binary_round_aux prec emax s m e l)) <= powerRZ 2 E /\
  Rabs (SF2R (binary_round_aux prec emax s m e l) -
        IZR (cond_Zopp s m) * powerRZ 2 e) <= powerRZ 2 (E - 51).
Proof.
  intros Hm Hn HE HeE Hle.
  set (b := Z.min e (E - 52)).
  assert (b <= e)%Z as Hbe by (unfold b; lia).
  assert (b <= E - 52)%Z as Hbc by (unfold b; lia).
  pose proof (pow2R_pos b) as HP.
  assert (2 ^ (E - b) = 4503599627370496 * 2 ^ (E - 52 - b))%Z as Htop.
  { rewrite (pow2_split b (E - 52) E) by lia.
    replace (E - (E - 52))%Z with 52%Z by lia. reflexivity. }
  assert ((m + 1) * 2 ^ (e - b) <= 4503599627370496 * 2 ^ (E - 52 - b))%Z as HleZ.
  { rewrite <- Htop. apply le_IZR. rewrite mult_IZR, plus_IZR.
    rewrite (pow2R_split b e), (pow2R_split b E) in Hle by lia.
    apply (Rmult_le_reg_r (powerRZ 2 b)); [exact HP |]. lra. }
  destruct (binary_round_aux_err b s m e l 4503599627370496 (E - 52) Hm Hn Hbe Hbc
              (pow2_bounded E HE) HleZ) as (Hmag & Hge & Hec & Hlo & Hhi).
  split; [exact Hec |].
  set (R := binary_round_aux prec emax s m e l) in *.
  assert (SFexp_ge b R) as Hgeb by (destruct R; simpl in *; auto; lia).
  destruct (SF2R_scaled b R s _ _ Hmag Hgeb) as [Hfin Hval].
  assert (0 <= SFmagZ b R <= 2 ^ (E - b))%Z as Hrange.
  { rewrite Htop. destruct Hmag as [HR | (m' & e' & HR & Hv)]; rewrite HR in *;
      cbn [SFmagZ SFexp_ge] in *.
    - pose proof (pow2_pos (E - 52 - b)). lia.
    - pose proof (pow2_pos (e' - b)). split; [nia | exact Hv]. }
  split; [exact Hfin |].
  rewrite Hval, (pow2R_split b e Hbe), (pow2R_split b E) by lia.
  replace (E - 51)%Z with ((E - 52) + 1)%Z by lia.
  rewrite pow2R_succ, (pow2R_split b (E - 52) Hbc).
  rewrite !IZR_cond_Zopp.
  set (W := IZR (SFmagZ b R)).
  set (A := IZR (m * 2 ^ (e - b))).
  set (U := IZR (2 ^ (E - 52 - b))).
  assert (0 <= W <= IZR (2 ^ (E - b))) as [HW0 HW1]
    by (split; apply IZR_le; lia).
  assert (A - 2 * U <= W <= A + 2 * U) as [HWl HWh].
  { unfold A, U, W. rewrite <- (mult_IZR 2), <- minus_IZR, <- plus_IZR.
    split; apply IZR_le; lia. }
  assert (IZR m * IZR (2 ^ (e - b)) = A) as HA by (unfold A; now rewrite mult_IZR).
  split.
  - replace ((if s then -1 else 1) * W * powerRZ 2 b)
      with ((if s then -1 else 1) * (W * powerRZ 2 b)) by ring.
    destruct s.
    + rewrite Rabs_left1 by nra. nra.
    + rewrite Rabs_right by nra. nra.
  - replace ((if s then -1 else 1) * W * powerRZ 2 b -
             (if s then -1 else 1) * IZR m * (IZR (2 ^ (e - b)) * powerRZ 2 b))
      with ((if s then -1 else 1) * ((W - A) * powerRZ 2 b)) by (rewrite <- HA; ring).
    apply Rabs_le. destruct s; split; nra.
Qed.

Lemma shl_align_fexp_spec (m : positive) (e : Z) :
  let '(mz, ez) := shl_align m e (fexp prec emax (Zpos (digits2_pos m) + e)) in
  (ez <= e)%Z /\ Zpos mz = (Zpos m * 2 ^ (e - ez))%Z /\
  (ez <= fexp prec emax (Zdigits2 (Zpos mz) + ez))%Z.
Proof.
  destruct (shl_align_spec m e (fexp prec emax (Zpos (digits2_pos m) + e)))
    as (H1 & H2 & H3).
  destruct (shl_align m e _) as [mz ez]. simpl fst in *. simpl snd in *.
  subst ez. split; [lia | split; [exact H2 |]].
  change (Zdigits2 (Zpos mz)) with (Zpos (digits2_pos mz)). rewrite H3. lia.
Qed.

Lemma binary_round_R (s : bool) (m : positive) (e : Z) (E : Z) :
  (-1022 <= E <= 1023)%Z ->
  IZR (Zpos m) * powerRZ 2 e < powerRZ 2 E ->
  SFfinite (binary_round prec emax s m e) /\
  Rabs (SF2R (binary_round prec emax s m e)) <= powerRZ 2 E /\
  Rabs (SF2R (binary_round prec emax s m e) -
        IZR (cond_Zopp s (Zpos m)) * powerRZ 2 e) <= powerRZ 2 (E - 51).
Proof.
  intros HE Hlt. unfold binary_round.
  pose proof (shl_align_fexp_spec m e) as Hal.
  destruct (shl_align m e _) as [mz ez].
  destruct Hal as (Hez & Hmz & Hn).
  assert (IZR (Zpos m) * powerRZ 2 e = IZR (Zpos mz) * powerRZ 2 ez) as Hval.
  { rewrite Hmz, mult_IZR, (pow2R_split ez e Hez). ring. }
  assert (IZR (cond_Zopp s (Zpos m)) * powerRZ 2 e =
          IZR (cond_Zopp s (Zpos mz)) * powerRZ 2 ez) as Hvals.
  { rewrite !IZR_cond_Zopp, !Rmult_assoc, Hval. reflexivity. }
  rewrite Hvals. rewrite Hval in Hlt.
  pose proof (pow2R_pos ez) as HP.
  assert (ez < E)%Z as HezE.
  { destruct (Z_lt_le_dec ez E) as [| Hge]; [assumption | exfalso].
    pose proof (pow2R_le E ez Hge).
    assert (1 <= IZR (Zpos mz)) by (apply IZR_le; lia). nra. }
  apply binary_round_aux_R; auto; try lia.
  rewrite (pow2R_split ez E) in * by lia.
  assert (Zpos mz < 2 ^ (E - ez))%Z as HltZ.
  { apply lt_IZR. apply (Rmult_lt_reg_r (powerRZ 2 ez)); [exact HP | lra]. }
  assert (IZR (Zpos mz) + 1 <= IZR (2 ^ (E - ez))).
  { rewrite <- plus_IZR. apply IZR_le. lia. }
  nra.
Qed.

Lemma binary_normalize_R (S e E : Z) :
  (-1022 <= E <= 1023)%Z ->
  Rabs (IZR S * powerRZ 2 e) < powerRZ 2 E ->
  SFfinite (binary_normalize prec emax S e false) /\
  Rabs (SF2R (binary_normalize prec emax S e false)) <= powerRZ 2 E /\
  Rabs (SF2R (binary_normalize prec emax S e false) - IZR S * powerRZ 2 e)
    <= powerRZ 2 (E - 51).
Proof.
  intros HE Hlt. pose proof (pow2R_pos e) as HP.
  pose proof (pow2R_pos E) as HPE. pose proof (pow2R_pos (E - 51)) as HPU.
  destruct S as [| p | p]; cbn [binary_normalize].
  - split; [exact I |]. simpl SF2R. rewrite Rmult_0_l, Rminus_0_r, Rabs_R0. lra.
  - apply (binary_round_R false p e E HE).
    assert (0 < IZR (Zpos p)) by (apply IZR_lt; lia).
    rewrite Rabs_right in Hlt by nra. exact Hlt.
  - change (Zneg p) with (cond_Zopp true (Zpos p)).
    apply (binary_round_R true p e E HE).
    assert (0 < IZR (Zpos p)) by (apply IZR_lt; lia).
    change (Zneg p) with (- Zpos p)%Z in Hlt. rewrite opp_IZR in Hlt.
    rewrite Rabs_left in Hlt by nra. lra.
Qed.

End RealValue.

(** ** The four operations, with their error *)

Section RealOps.
Local Open Scope R_scope.

Lemma lt_pow2_succ (m e E : Z) :
  (0 < m)%Z -> IZR m * powerRZ 2 e < powerRZ 2 E ->
  (e < E)%Z /\ (IZR m + 1) * powerRZ 2 e <= powerRZ 2 E.
Proof.
  intros Hm Hlt. pose proof (pow2R_pos e) as HP.
  assert (e < E)%Z as HeE.
  { destruct (Z_lt_le_dec e E) as [| Hge]; [assumption | exfalso].
    pose proof (pow2R_le E e Hge).
    assert (1 <= IZR m) by (apply IZR_le; lia). nra. }
  split; [exact HeE |].
  rewrite (pow2R_split e E) in * by lia.
  assert (m < 2 ^ (E - e))%Z as HltZ.
  { apply lt_IZR. apply (Rmult_lt_reg_r (powerRZ 2 e)); [exact HP | lra]. }
  assert (IZR m + 1 <= IZR (2 ^ (E - e))).
  { rewrite <- plus_IZR. apply IZR_le. lia. }
  nra.
Qed.

Lemma SF2R_finite_abs (s : bool) (m : positive) (e : Z) :
  Rabs (SF2R (S754_finite s m e)) = IZR (Zpos m) * powerRZ 2 e.
Proof.
  rewrite <- SF2R_abs. cbn [SFabs SF2R cond_Zopp]. reflexivity.
Qed.

Lemma SF2R_aligned (s : bool) (m : positive) (e ez : Z) :
  (ez <= e)%Z ->
  IZR (cond_Zopp s (Zpos (fst (shl_align m e ez)))) * powerRZ 2 ez =
  SF2R (S754_finite s m e).
Proof.
  intros H. destruct (shl_align_spec m e ez) as (_ & HM & _).
  replace (Z.min e ez) with ez in HM by lia.
  cbn [SF2R]. rewrite !IZR_cond_Zopp, HM, mult_IZR, (pow2R_split ez e H). ring.
Qed.

(** Addition *)
Lemma SF64add_R (x y : spec_float) (E : Z) :
  SFfinite x -> SFfinite y -> (-1022 <= E <= 1023)%Z ->
  Rabs (SF2R x + SF2R y) < powerRZ 2 E ->
  SFfinite (SF64add x y) /\
  Rabs (SF2R (SF64add x y)) <= powerRZ 2 E /\
  Rabs (SF2R (SF64add x y) - (SF2R x + SF2R y)) <= powerRZ 2 (E - 51).
Proof.
  intros Hx Hy HE Hlt.
  pose proof (pow2R_pos E) as HPE. pose proof (pow2R_pos (E - 51)) as HPU.
  assert (forall u : spec_float, SFfinite u -> Rabs (SF2R u) < powerRZ 2 E ->
            SFfinite u /\ Rabs (SF2R u) <= powerRZ 2 E /\
            Rabs (SF2R u - SF2R u) <= powerRZ 2 (E - 51)) as Hsame.
  { intros u Hu Hb. split; [exact Hu | split; [lra |]].
    replace (SF2R u - SF2R u) with 0 by ring. rewrite Rabs_R0. lra. }
  destruct x as [sx | sx | | sx mx ex]; try contradiction;
    destruct y as [sy | sy | | sy my ey]; try contradiction.
  - unfold SF64add, SFadd. cbn [SF2R] in *. rewrite Rplus_0_l.
    destruct sx, sy; cbn [SF2R SFfinite]; rewrite Rminus_0_r, Rabs_R0;
      (split; [exact I | split; lra]).
  - unfold SF64add, SFadd. cbn [SF2R] in Hlt |- *.
    rewrite Rplus_0_l in *. apply Hsame; assumption.
  - unfold SF64add, SFadd. cbn [SF2R] in Hlt |- *.
    rewrite Rplus_0_r in *. apply Hsame; assumption.
  - unfold SF64add, SFadd. cbv zeta.
    set (ez := Z.min ex ey).
    rewrite <- (SF2R_aligned sx mx ex ez), <- (SF2R_aligned sy my ey ez) in *
      by (unfold ez; lia).
    rewrite <- Rmult_plus_distr_r, <- plus_IZR in *.
    apply binary_normalize_R; assumption.
Qed.

(** Subtraction *)
Lemma SF64sub_R (x y : spec_float) (E : Z) :
  SFfinite x -> SFfinite y -> (-1022 <= E <= 1023)%Z ->
  Rabs (SF2R x - SF2R y) < powerRZ 2 E ->
  SFfinite (SF64sub x y) /\
  Rabs (SF2R (SF64sub x y)) <= powerRZ 2 E /\
  Rabs (SF2R (SF64sub x y) - (SF2R x - SF2R y)) <= powerRZ 2 (E - 51).
Proof.
  intros Hx Hy HE Hlt.
  pose proof (pow2R_pos E) as HPE. pose proof (pow2R_pos (E - 51)) as HPU.
  destruct x as [sx | sx | | sx mx ex]; try contradiction;
    destruct y as [sy | sy | | sy my ey]; try contradiction.
  - unfold SF64sub, SFsub. cbn [SF2R] in *. rewrite Rminus_0_r.
    destruct sx, sy; cbn [SF2R SFfinite]; rewrite Rminus_0_r, Rabs_R0;
      (split; [exact I | split; lra]).
  - unfold SF64sub, SFsub.
    change (S754_finite (negb sy) my ey) with (SFopp (S754_finite sy my ey)).
    rewrite SF2R_opp. cbn [SF2R SFopp SFfinite] in Hlt |- *.
    rewrite Rminus_0_l in *. split; [exact I | split; [lra |]].
    match goal with |- Rabs ?t <= _ => replace t with 0 by ring end.
    rewrite Rabs_R0. lra.
  - unfold SF64sub, SFsub. cbn [SF2R SFfinite] in Hlt |- *.
    rewrite Rminus_0_r in *. split; [exact I | split; [lra |]].
    match goal with |- Rabs ?t <= _ => replace t with 0 by ring end.
    rewrite Rabs_R0. lra.
  - unfold SF64sub, SFsub. cbv zeta.
    set (ez := Z.min ex ey).
    rewrite <- (SF2R_aligned sx mx ex ez), <- (SF2R_aligned sy my ey ez) in *
      by (unfold ez; lia).
    rewrite <- Rmult_minus_distr_r, <- minus_IZR in *.
    apply binary_normalize_R; assumption.
Qed.

Lemma Zdigits2_lower (x k : Z) : (0 < x)%Z -> (2 ^ (k - 1) <= x)%Z -> (k <= Zdigits2 x)%Z.
Proof.
  intros Hx Hk. destruct (Zdigits2_bounds x Hx) as (Hd & _ & Hhi).
  destruct (Z_le_gt_dec k (Zdigits2 x)) as [| Hgt]; [assumption | exfalso].
  assert (2 ^ Zdigits2 x <= 2 ^ (k - 1))%Z by (apply Z.pow_le_mono_r; lia).
  lia.
Qed.

(** Multiplication *)
Lemma SF64mul_R (x y : spec_float) (E : Z) :
  valid_binary x = true -> valid_binary y = true ->
  SFfinite x -> SFfinite y -> (-1022 <= E <= 1023)%Z ->
  Rabs (SF2R x * SF2R y) < powerRZ 2 E ->
  SFfinite (SF64mul x y) /\
  Rabs (SF2R (SF64mul x y)) <= powerRZ 2 E /\
  Rabs (SF2R (SF64mul x y) - SF2R x * SF2R y) <= powerRZ 2 (E - 51).
Proof.
  intros Vx Vy Hx Hy HE Hlt.
  pose proof (pow2R_pos E) as HPE. pose proof (pow2R_pos (E - 51)) as HPU.
  assert (forall s, SFfinite (S754_zero s) /\ Rabs (SF2R (S754_zero s)) <= powerRZ 2 E /\
                    Rabs (SF2R (S754_zero s) - 0) <= powerRZ 2 (E - 51)) as Hzero.
  { intros s. cbn [SF2R SFfinite]. rewrite Rminus_0_r, Rabs_R0.
    split; [exact I | split; lra]. }
  destruct x as [sx | sx | | sx mx ex]; try contradiction;
    destruct y as [sy | sy | | sy my ey]; try contradiction;
    unfold SF64mul, SFmul.
  - change (SF2R (S754_zero sx)) with 0. rewrite Rmult_0_l. apply Hzero.
  - change (SF2R (S754_zero sx)) with 0. rewrite Rmult_0_l. apply Hzero.
  - change (SF2R (S754_zero sy)) with 0. rewrite Rmult_0_r. apply Hzero.
  - cbn [SpecFloat.valid_binary] in Vx, Vy.
    destruct (bounded_digits _ _ Vx) as (Hdx & Hex & _ & Hnx).
    destruct (bounded_digits _ _ Vy) as (Hdy & Hey & _ & Hny).
    assert (SF2R (S754_finite sx mx ex) * SF2R (S754_finite sy my ey) =
            IZR (cond_Zopp (xorb sx sy) (Zpos (mx * my))) * powerRZ 2 (ex + ey)) as Hval.
    { cbn [SF2R]. rewrite !IZR_cond_Zopp, Pos2Z.inj_mul, mult_IZR, powerRZ_add by lra.
      destruct sx, sy; cbn [xorb]; ring. }
    rewrite Hval in *.
    assert (IZR (Zpos (mx * my)) * powerRZ 2 (ex + ey) < powerRZ 2 E) as Hlt'.
    { rewrite IZR_cond_Zopp, Rmult_assoc, Rabs_mult in Hlt.
      pose proof (pow2R_pos (ex + ey)).
      assert (0 < IZR (Zpos (mx * my))) by (apply IZR_lt; lia).
      rewrite (Rabs_right (_ * _)) in Hlt by nra.
      destruct (xorb sx sy); [rewrite Rabs_left in Hlt by lra | rewrite Rabs_right in Hlt by lra];
        lra. }
    destruct (lt_pow2_succ _ _ _ (Pos2Z.is_pos _) Hlt') as [HeE Hsucc].
    apply binary_round_aux_R; auto; try lia.
    destruct (digits2_pos_bounds mx) as [Hlx _].
    destruct (digits2_pos_bounds my) as [Hly _].
    assert (Zpos (digits2_pos mx) + Zpos (digits2_pos my) - 1 <= Zdigits2 (Zpos (mx * my)))%Z
      as Hd.
    { apply Zdigits2_lower; [lia |].
      replace (Zpos (digits2_pos mx) + Zpos (digits2_pos my) - 1 - 1)%Z
        with ((Zpos (digits2_pos mx) - 1) + (Zpos (digits2_pos my) - 1))%Z by lia.
      rewrite Z.pow_add_r, Pos2Z.inj_mul by lia.
      pose proof (pow2_pos (Zpos (digits2_pos mx) - 1)).
      pose proof (pow2_pos (Zpos (digits2_pos my) - 1)). nia. }
    unfold fexp, SpecFloat.emin, prec, emax in *. lia.
Qed.

End RealOps.

Section RealDiv.
Local Open Scope R_scope.

(** The integer quotient the division rounds: it has enough digits, and
    it is the floor of the exact quotient at its exponent. *)
Lemma SFdiv_core_spec (mx : positive) (ex : Z) (my : positive) (ey : Z) :
  let '(q, e', l) := SFdiv_core_binary prec emax (Zpos mx) ex (Zpos my) ey in
  (0 <= q)%Z /\ (e' <= fexp prec emax (Zdigits2 q + e'))%Z /\
  (q = 0%Z -> (e' <= emin)%Z) /\
  IZR q * powerRZ 2 e' <=
    (IZR (Zpos mx) * powerRZ 2 ex) / (IZR (Zpos my) * powerRZ 2 ey)
    < (IZR q + 1) * powerRZ 2 e'.
Proof.
  unfold SFdiv_core_binary. cbv zeta.
  change (Zdigits2 (Zpos mx)) with (Zpos (digits2_pos mx)).
  change (Zdigits2 (Zpos my)) with (Zpos (digits2_pos my)).
  set (d1 := Zpos (digits2_pos mx)). set (d2 := Zpos (digits2_pos my)).
  set (mu := (d1 + ex - (d2 + ey))%Z).
  set (e' := Z.min (fexp prec emax mu) (ex - ey)).
  set (s := (ex - ey - e')%Z).
  assert (0 <= s)%Z as Hs by (unfold s, e'; lia).
  set (m' := match s with Zpos _ => Z.shiftl (Zpos mx) s | Z0 => Zpos mx | Zneg _ => 0%Z end).
  assert (m' = Zpos mx * 2 ^ s)%Z as Hm'.
  { unfold m'. destruct s as [| p | p] eqn:Hsp; [simpl; lia | | lia].
    rewrite Z.shiftl_mul_pow2 by lia. reflexivity. }
  clearbody m'.
  pose proof (Z_div_mod m' (Zpos my) eq_refl) as Hdm.
  destruct (Z.div_eucl m' (Zpos my)) as [q r]. destruct Hdm as [Hq Hr].
  assert (0 < 2 ^ s)%Z as Hps by (apply pow2_pos; lia).
  assert (0 <= q)%Z as Hq0 by nia.
  destruct (digits2_pos_bounds mx) as [Hlx Hhx]. fold d1 in Hlx, Hhx.
  destruct (digits2_pos_bounds my) as [Hly Hhy]. fold d2 in Hly, Hhy.
  assert (0 < d1)%Z as Hd1 by (unfold d1; lia).
  assert (0 < d2)%Z as Hd2 by (unfold d2; lia).
  assert ((q = 0%Z -> (e' <= emin)%Z) /\ (e' <= fexp prec emax (Zdigits2 q + e'))%Z)
    as [Hzero Hn].
  { destruct (Z_le_gt_dec (d2 + 1) (d1 + s)) as [Hbig | Hsmall].
    - (* the quotient has at least d1 + s - d2 digits *)
      assert (2 ^ (d1 + s - d2 - 1) <= q)%Z as Hql.
      { assert (2 ^ (d1 + s - d2 - 1) * 2 ^ d2 <= m')%Z as Hmm.
        { rewrite <- Z.pow_add_r by lia.
          replace (d1 + s - d2 - 1 + d2)%Z with ((d1 - 1) + s)%Z by lia.
          rewrite Z.pow_add_r, Hm' by lia. nia. }
        pose proof (pow2_pos (d1 + s - d2 - 1)).
        assert (0 < 2 ^ (d1 + s - d2 - 1))%Z by lia. nia. }
      pose proof (pow2_pos (d1 + s - d2 - 1)).
      assert (0 < q)%Z as Hqpos by lia.
      split; [lia |].
      pose proof (Zdigits2_lower q (d1 + s - d2) Hqpos Hql) as Hdq.
      assert (fexp prec emax mu <= fexp prec emax (Zdigits2 q + e'))%Z
        by (apply fexp_le; unfold mu, s in *; lia).
      unfold e' at 1. lia.
    - (* a short dividend: the exponent is the least one *)
      assert (e' <= emin)%Z as Hemin.
      { assert (mu <= e')%Z by (unfold mu, s in *; lia).
        unfold e' in *. unfold fexp, SpecFloat.emin, prec, emax in *. lia. }
      split; [intros _; exact Hemin |].
      pose proof (fexp_ge_emin (Zdigits2 q + e')). lia. }
  split; [exact Hq0 | split; [exact Hn | split; [exact Hzero |]]].
  pose proof (pow2R_pos e') as HPe. pose proof (pow2R_pos ey) as HPy.
  assert (0 < IZR (Zpos my)) as Hmy by (apply IZR_lt; lia).
  assert (powerRZ 2 ex = IZR (2 ^ s) * powerRZ 2 e' * powerRZ 2 ey) as Hex.
  { replace ex with (s + e' + ey)%Z at 1 by (unfold s; lia).
    rewrite !powerRZ_add by lra.
    rewrite (pow2R_split 0 s Hs), Z.sub_0_r. simpl (powerRZ 2 0). ring. }
  assert (IZR m' = IZR (Zpos my) * IZR q + IZR r) as HqR
    by (rewrite <- mult_IZR, <- plus_IZR, <- Hq; reflexivity).
  assert (0 <= IZR r < IZR (Zpos my)) as [Hr0 Hr1]
    by (split; [apply IZR_le | apply IZR_lt]; lia).
  assert (IZR (Zpos mx) * powerRZ 2 ex / (IZR (Zpos my) * powerRZ 2 ey) =
          (IZR q + IZR r / IZR (Zpos my)) * powerRZ 2 e') as ->.
  { rewrite Hex. rewrite Hm', mult_IZR in HqR.
    replace (IZR (Zpos mx) * (IZR (2 ^ s) * powerRZ 2 e' * powerRZ 2 ey))
      with ((IZR (Zpos my) * IZR q + IZR r) * powerRZ 2 e' * powerRZ 2 ey)
      by (rewrite <- HqR; ring).
    field. split; lra. }
  assert (0 <= IZR r / IZR (Zpos my) < 1) as [Hf0 Hf1].
  { split.
    - apply Rmult_le_pos; [lra |]. left. apply Rinv_0_lt_compat. lra.
    - apply (Rmult_lt_reg_r (IZR (Zpos my))); [lra |].
      unfold Rdiv. rewrite Rmult_assoc, Rinv_l by lra. lra. }
  split; nra.
Qed.

(** Division *)
Lemma SF64div_R (x y : spec_float) (E : Z) :
  SFfinite x -> SFfinite y -> SF2R y <> 0 -> (-1022 <= E <= 1023)%Z ->
  Rabs (SF2R x / SF2R y) < powerRZ 2 E ->
  SFfinite (SF64div x y) /\
  Rabs (SF2R (SF64div x y)) <= powerRZ 2 E /\
  Rabs (SF2R (SF64div x y) - SF2R x / SF2R y) <= powerRZ 2 (E - 50).
Proof.
  intros Hx Hy Hy0 HE Hlt.
  pose proof (pow2R_pos E) as HPE. pose proof (pow2R_pos (E - 50)) as HPU.
  destruct y as [sy | sy | | sy my ey]; try contradiction;
    try (exfalso; apply Hy0; reflexivity).
  destruct x as [sx | sx | | sx mx ex]; try contradiction.
  - unfold SF64div, SFdiv. change (SF2R (S754_zero sx)) with 0.
    cbn [SF2R SFfinite]. unfold Rdiv. rewrite Rmult_0_l, Rminus_0_r, Rabs_R0.
    split; [exact I | split; lra].
  - unfold SF64div, SFdiv.
    pose proof (SFdiv_core_spec mx ex my ey) as Hcore.
    destruct (SFdiv_core_binary prec emax (Zpos mx) ex (Zpos my) ey) as [[q e'] l].
    destruct Hcore as (Hq0 & Hn & Hzero & Hlo & Hhi).
    pose proof (pow2R_pos e') as HPe. pose proof (pow2R_pos ex) as HPx.
    pose proof (pow2R_pos ey) as HPy.
    assert (0 < IZR (Zpos mx)) as Hmx by (apply IZR_lt; lia).
    assert (0 < IZR (Zpos my)) as Hmy by (apply IZR_lt; lia).
    set (Q := IZR (Zpos mx) * powerRZ 2 ex / (IZR (Zpos my) * powerRZ 2 ey)) in *.
    assert (SF2R (S754_finite sx mx ex) / SF2R (S754_finite sy my ey) =
            (if xorb sx sy then -1 else 1) * Q) as Hval.
    { cbn [SF2R]. rewrite !IZR_cond_Zopp. unfold Q.
      destruct sx, sy; cbn [xorb]; field; split; lra. }
    assert (0 <= IZR q) as HqR by (apply IZR_le; lia).
    assert (0 <= Q) as HQ0 by nra.
    rewrite Hval in *.
    assert (Q < powerRZ 2 E) as HQE.
    { destruct (xorb sx sy).
      - rewrite Rabs_left1 in Hlt by lra. lra.
      - rewrite Rabs_right in Hlt by lra. lra. }
    assert ((e' <= E)%Z /\ (IZR q + 1) * powerRZ 2 e' <= powerRZ 2 E) as [HeE Hsucc].
    { destruct (Z.eq_dec q 0) as [Hq | Hq].
      - specialize (Hzero Hq). subst q.
        assert (e' <= E)%Z as HeE by (unfold SpecFloat.emin, prec, emax in *; lia).
        split; [assumption |]. pose proof (pow2R_le e' E HeE). lra.
      - destruct (lt_pow2_succ q e' E) as [H1 H2]; [lia | lra |].
        split; [lia | exact H2]. }
    destruct (binary_round_aux_R (xorb sx sy) q e' l E Hq0 Hn HE HeE Hsucc)
      as (Hec & Hfin & Hmag & Herr).
    split; [exact Hfin | split; [exact Hmag |]].
    rewrite IZR_cond_Zopp in Herr.
    replace (E - 50)%Z with ((E - 51) + 1)%Z by lia. rewrite pow2R_succ.
    replace (E - 51)%Z with ((E - 52) + 1)%Z in * by lia. rewrite pow2R_succ in *.
    pose proof (pow2R_le e' (E - 52) Hec) as Hpe.
    apply Rabs_le. apply Rabs_le_both in Herr.
    destruct (xorb sx sy); split; nra.
Qed.

End RealDiv.

(** ** [modf] is exact *)

Section RealModf.
Local Open Scope R_scope.

Lemma pow2R_nonneg_exp (k : Z) : (0 <= k)%Z -> powerRZ 2 k = IZR (2 ^ k).
Proof.
  intros Hk. rewrite (pow2R_split 0 k Hk), Z.sub_0_r. simpl (powerRZ 2 0). ring.
Qed.

Lemma pow2R_inv (k : Z) : powerRZ 2 k * powerRZ 2 (- k) = 1.
Proof. rewrite <- powerRZ_add by lra. rewrite Z.add_opp_diag_r. reflexivity. Qed.

Lemma binary_round_exact_R (s : bool) (m : positive) (e : Z) :
  (Zpos m < 2 ^ prec)%Z -> (emin <= e)%Z -> (e <= 0)%Z ->
  SFfinite (binary_round prec emax s m e) /\
  SF2R (binary_round prec emax s m e) = IZR (cond_Zopp s (Zpos m)) * powerRZ 2 e.
Proof.
  intros Hm He He0.
  pose proof (digits2_pos_le m prec Hm) as Hd.
  destruct (binary_round_exact s m e) as (m' & e' & Hr & _ & He' & Hm');
    [assumption | assumption | unfold emax, prec in *; lia |].
  rewrite Hr. split; [exact I |]. cbn [SF2R].
  rewrite !IZR_cond_Zopp, Hm', mult_IZR, (pow2R_split e' e He'). ring.
Qed.

(** Taking the integral part away is exact, and leaves a number of the same
    sign. *)
Lemma frac_core_R (s : bool) (m : positive) (e : Z) :
  bounded prec emax m e = true -> (e < 0)%Z ->
  let T := binary_normalize prec emax (Z.shiftr (Zpos m) (- e)) 0 false in
  let U := SF64sub (S754_finite s m e) (if s then SFopp T else T) in
  exists t : Z,
    SFfinite U /\
    0 <= IZR (Zpos m) * powerRZ 2 e - IZR t < 1 /\
    SF2R U = (if s then -1 else 1) * (IZR (Zpos m) * powerRZ 2 e - IZR t).
Proof.
  intros Hbd He. cbv zeta.
  destruct (bounded_digits _ _ Hbd) as (Hdm & Hemin & _ & _).
  rewrite Z.shiftr_div_pow2 by lia.
  set (k := (- e)%Z). set (N := (Zpos m / 2 ^ k)%Z).
  assert (0 < 2 ^ k)%Z as Hpk by (apply pow2_pos; unfold k; lia).
  assert (0 <= N)%Z as HN by (apply Z.div_pos; lia).
  assert (N * 2 ^ k <= Zpos m < N * 2 ^ k + 2 ^ k)%Z as Hfl.
  { unfold N. pose proof (Z.mul_div_le (Zpos m) (2 ^ k) Hpk).
    pose proof (Z.mul_succ_div_gt (Zpos m) (2 ^ k) Hpk). lia. }
  pose proof (pow2R_pos e) as HPe.
  set (X := IZR (Zpos m) * powerRZ 2 e).
  assert (0 < X) as HX0.
  { unfold X. assert (0 < IZR (Zpos m)) by (apply IZR_lt; lia). nra. }
  assert (IZR N <= X < IZR N + 1) as [HXl HXh].
  { assert (IZR (2 ^ k) * powerRZ 2 e = 1) as Hone.
    { rewrite <- pow2R_nonneg_exp by (unfold k; lia).
      unfold k. rewrite Rmult_comm. apply pow2R_inv. }
    destruct Hfl as [H1 H2]. apply IZR_le in H1. apply IZR_lt in H2.
    rewrite plus_IZR, mult_IZR in *. unfold X.
    pose proof (Rmult_le_compat_r _ _ _ (Rlt_le _ _ HPe) H1) as H1'.
    pose proof (Rmult_lt_compat_r _ _ _ HPe H2) as H2'.
    rewrite Rmult_plus_distr_r, Hone in H2'. rewrite Rmult_assoc, Hone in H1', H2'.
    lra. }
  assert (Zpos m < 2 ^ prec)%Z as Hmlt.
  { destruct (digits2_pos_bounds m) as [_ Hm].
    assert (2 ^ Zpos (digits2_pos m) <= 2 ^ prec)%Z by (apply Z.pow_le_mono_r; lia).
    lia. }
  destruct N as [| n | n] eqn:HNeq; [| | lia].
  - (* the integral part is zero *)
    exists 0%Z. cbn [binary_normalize].
    replace (SF64sub (S754_finite s m e)
               (if s then SFopp (S754_zero false) else S754_zero false))
      with (S754_finite s m e) by (destruct s; reflexivity).
    split; [exact I |]. fold X. split; [lra |].
    cbn [SF2R]. rewrite IZR_cond_Zopp. unfold X. ring.
  - exists (Zpos n).
    assert (Zpos n < 2 ^ prec)%Z as Hnlt by nia.
    pose proof (digits2_pos_le n prec Hnlt) as Hdn.
    destruct (binary_round_exact false n 0) as (mi & ei & Hr & Hbi & Hei & Hmi);
      [assumption | unfold SpecFloat.emin, emax, prec; lia
       | unfold emax, prec in *; lia |].
    cbn [binary_normalize]. rewrite Hr.
    destruct (bounded_digits _ _ Hbi) as (Hdi & Heimin & _ & _).
    replace (if s then SFopp (S754_finite false mi ei) else S754_finite false mi ei)
      with (S754_finite s mi ei) by (destruct s; reflexivity).
    assert (IZR (Zpos mi) * powerRZ 2 ei = IZR (Zpos n)) as Hvi.
    { rewrite Hmi, mult_IZR, Rmult_assoc.
      rewrite <- pow2R_nonneg_exp by lia.
      replace (0 - ei)%Z with (- ei)%Z by lia.
      rewrite (Rmult_comm (powerRZ 2 (- ei))), pow2R_inv. ring. }
    assert (- ei <= 52)%Z as Hei52.
    { destruct (digits2_pos_bounds mi) as [_ Hm].
      assert (2 ^ Zpos (digits2_pos mi) <= 2 ^ prec)%Z by (apply Z.pow_le_mono_r; lia).
      assert (2 ^ (0 - ei) < 2 ^ 53)%Z as Hlt by (unfold prec in *; nia).
      apply Z.pow_lt_mono_r_iff in Hlt; lia. }
    unfold SF64sub, SFsub. cbv zeta.
    set (ez := Z.min e ei).
    pose proof (SF2R_aligned false m e ez) as HA1.
    pose proof (SF2R_aligned false mi ei ez) as HA2.
    destruct (shl_align_spec m e ez) as (_ & HM1 & _).
    cbn [cond_Zopp SF2R] in HA1, HA2.
    set (M1 := Zpos (fst (shl_align m e ez))) in *.
    set (M2 := Zpos (fst (shl_align mi ei ez))) in *.
    specialize (HA1 ltac:(unfold ez; lia)). specialize (HA2 ltac:(unfold ez; lia)).
    fold X in HA1. rewrite Hvi in HA2.
    pose proof (pow2R_pos ez) as HPz.
    assert (cond_Zopp s M1 - cond_Zopp s M2 = cond_Zopp s (M1 - M2))%Z as ->
      by (destruct s; unfold cond_Zopp; lia).
    assert (IZR (M1 - M2) * powerRZ 2 ez = X - IZR (Zpos n)) as HD
      by (rewrite minus_IZR; lra).
    assert (0 <= M1 - M2)%Z as HD0.
    { apply le_IZR. apply (Rmult_le_reg_r (powerRZ 2 ez)); [exact HPz | lra]. }
    destruct (M1 - M2)%Z as [| p | p] eqn:HDeq; [| | lia].
    + split; [destruct s; exact I |]. split; [lra |].
      replace (binary_normalize prec emax (cond_Zopp s 0) ez false)
        with (S754_zero false) by (destruct s; reflexivity).
      cbn [SF2R]. rewrite <- HD. ring.
    + replace (binary_normalize prec emax (cond_Zopp s (Zpos p)) ez false)
        with (binary_round prec emax s p ez) by (destruct s; reflexivity).
      assert (Zpos p < 2 ^ prec)%Z as Hplt.
      { destruct (Z.min_spec e ei) as [[_ Hmin] | [_ Hmin]]; fold ez in Hmin.
        - assert (M1 = Zpos m) as HM1m.
          { rewrite HM1. replace (Z.min e ez) with ez by lia.
            rewrite Hmin, Z.sub_diag. simpl. lia. }
          assert (0 < M2)%Z by (unfold M2; lia). lia.
        - assert (IZR (Zpos p) < IZR (2 ^ (- ez))); [| apply lt_IZR in H; 
            assert (2 ^ (- ez) <= 2 ^ 52)%Z by (apply Z.pow_le_mono_r; lia);
            unfold prec; lia].
          rewrite <- pow2R_nonneg_exp by lia.
          apply (Rmult_lt_reg_r (powerRZ 2 ez)); [exact HPz |].
          rewrite (Rmult_comm (powerRZ 2 (- ez))), pow2R_inv. lra. }
      destruct (binary_round_exact_R s p ez Hplt) as [Hfin Hval];
        [unfold ez; lia | unfold ez; lia |].
      split; [exact Hfin |]. split; [lra |].
      rewrite Hval, IZR_cond_Zopp, Rmult_assoc, HD. reflexivity.
Qed.

Lemma SF2R_copysign (u : spec_float) (s : bool) (V : R) :
  0 <= V -> SF2R u = (if s then -1 else 1) * V ->
  SF2R (if s then SFopp (SFabs u) else SFabs u) = SF2R u.
Proof.
  intros HV Hu. destruct s.
  - rewrite SF2R_opp, SF2R_abs, Hu, Rabs_left1 by lra. lra.
  - rewrite SF2R_abs, Hu, Rabs_right by lra. lra.
Qed.

(** [modf]: the fractional part is the argument less an integer, exactly,
    and is at most one in magnitude. *)
Lemma modf64_frac_R (q : float) :
  SFfinite (Prim2SF q) ->
  SFfinite (Prim2SF (fst (modf64 q))) /\
  Rabs (B2R (fst (modf64 q))) <= 1 /\
  exists t : Z, B2R (fst (modf64 q)) = B2R q - IZR t.
Proof.
  intros Hfin. unfold modf64. rewrite is_infinity_spec. unfold B2R.
  assert (forall u, Prim2SF u = S754_zero false ->
            Prim2SF (copysign64 u q) = S754_zero (SFsign (Prim2SF q))) as Hzero.
  { intros u Hu. rewrite copysign64_spec, Hu.
    destruct (SFsign (Prim2SF q)); reflexivity. }
  destruct (Prim2SF q) as [s | s | | s m e] eqn:Hq; try contradiction.
  - cbn [fst]. rewrite Hzero.
    + split; [exact I |]. cbn [SF2R]. rewrite Rabs_R0. split; [lra |].
      exists 0%Z. lra.
    + unfold trunc64. rewrite Hq, FloatAxioms.sub_spec, Hq.
      apply SF64sub_diag. exact I.
  - pose proof (Prim2SF_bounded _ _ _ _ Hq) as Hbd.
    cbn [fst]. unfold trunc64. rewrite Hq.
    destruct (0 <=? e)%Z eqn:He.
    + apply Z.leb_le in He. rewrite Hzero.
      * split; [exact I |]. cbn [SF2R]. rewrite Rabs_R0. split; [lra |].
        exists (cond_Zopp s (Zpos m) * 2 ^ e)%Z.
        rewrite mult_IZR, <- pow2R_nonneg_exp by assumption. lra.
      * rewrite FloatAxioms.sub_spec, Hq. apply SF64sub_diag. exact I.
    + apply Z.leb_gt in He. cbv zeta.
      rewrite copysign64_spec, FloatAxioms.sub_spec, Hq.
      assert (Prim2SF (if s
                       then (- of_uint63 (Uint63.of_Z (Z.shiftr (Z.pos m) (- e))))%float
                       else of_uint63 (Uint63.of_Z (Z.shiftr (Z.pos m) (- e)))) =
              if s then SFopp (binary_normalize prec emax (Z.shiftr (Zpos m) (- e)) 0 false)
              else binary_normalize prec emax (Z.shiftr (Zpos m) (- e)) 0 false) as ->.
      { destruct s; rewrite ?FloatAxioms.opp_spec, of_uint63_spec, shiftr_small by assumption;
          reflexivity. }
      destruct (frac_core_R s m e Hbd He) as (t & HfinU & [HV0 HV1] & HU).
      cbn [SFsign].
      set (U := SF64sub (S754_finite s m e) _) in *.
      rewrite (SF2R_copysign U s _ HV0 HU).
      split; [destruct s; [apply SFfinite_opp |]; apply SFfinite_abs; exact HfinU |].
      split.
      * rewrite HU. apply Rabs_le. destruct s; split; lra.
      * exists (cond_Zopp s t). rewrite HU. cbn [SF2R].
        rewrite !IZR_cond_Zopp. ring.
Qed.

(** The operations on doubles, through their values. *)
Lemma add64_R (x y : float) (E : Z) :
  SFfinite (Prim2SF x) -> SFfinite (Prim2SF y) -> (-1022 <= E <= 1023)%Z ->
  Rabs (B2R x + B2R y) < powerRZ 2 E ->
  SFfinite (Prim2SF (x + y)%float) /\
  Rabs (B2R (x + y)%float) <= powerRZ 2 E /\
  Rabs (B2R (x + y)%float - (B2R x + B2R y)) <= powerRZ 2 (E - 51).
Proof. unfold B2R. rewrite FloatAxioms.add_spec. apply SF64add_R. Qed.

Lemma sub64_R (x y : float) (E : Z) :
  SFfinite (Prim2SF x) -> SFfinite (Prim2SF y) -> (-1022 <= E <= 1023)%Z ->
  Rabs (B2R x - B2R y) < powerRZ 2 E ->
  SFfinite (Prim2SF (x - y)%float) /\
  Rabs (B2R (x - y)%float) <= powerRZ 2 E /\
  Rabs (B2R (x - y)%float - (B2R x - B2R y)) <= powerRZ 2 (E - 51).
Proof. unfold B2R. rewrite FloatAxioms.sub_spec. apply SF64sub_R. Qed.

Lemma mul64_R (x y : float) (E : Z) :
  SFfinite (Prim2SF x) -> SFfinite (Prim2SF y) -> (-1022 <= E <= 1023)%Z ->
  Rabs (B2R x * B2R y) < powerRZ 2 E ->
  SFfinite (Prim2SF (x * y)%float) /\
  Rabs (B2R (x * y)%float) <= powerRZ 2 E /\
  Rabs (B2R (x * y)%float - B2R x * B2R y) <= powerRZ 2 (E - 51).
Proof.
  unfold B2R. rewrite FloatAxioms.mul_spec. apply SF64mul_R; apply Prim2SF_valid.
Qed.

Lemma div64_R (x y : float) (E : Z) :
  SFfinite (Prim2SF x) -> SFfinite (Prim2SF y) -> B2R y <> 0 ->
  (-1022 <= E <= 1023)%Z ->
  Rabs (B2R x / B2R y) < powerRZ 2 E ->
  SFfinite (Prim2SF (x / y)%float) /\
  Rabs (B2R (x / y)%float) <= powerRZ 2 E /\
  Rabs (B2R (x / y)%float - B2R x / B2R y) <= powerRZ 2 (E - 50).
Proof. unfold B2R. rewrite FloatAxioms.div_spec. apply SF64div_R. Qed.

Lemma opp64_R (x : float) :
  B2R (- x)%float = - B2R x /\
  (SFfinite (Prim2SF x) -> SFfinite (Prim2SF (- x)%float)).
Proof.
  unfold B2R. rewrite FloatAxioms.opp_spec. split; [apply SF2R_opp | apply SFfinite_opp].
Qed.

End RealModf.

(** ** [canonize] up to rounding *)

Section RealCanonize.
Local Open Scope R_scope.

Lemma pow2R_val (k v : Z) : (0 <= k)%Z -> (2 ^ k = v)%Z -> powerRZ 2 k = IZR v.
Proof. intros Hk <-. apply pow2R_nonneg_exp. exact Hk. Qed.

Lemma pow2R_neg_val (k v : Z) : (0 <= k)%Z -> (2 ^ k = v)%Z -> powerRZ 2 (Z.opp k) = / IZR v.
Proof.
  intros Hk Hv. pose proof (pow2R_inv k) as H. rewrite (pow2R_val k v Hk Hv) in H.
  assert (0 < IZR v) by (rewrite <- (pow2R_val k v Hk Hv); apply pow2R_pos).
  apply (Rmult_eq_reg_l (IZR v)); [| lra]. rewrite H, Rinv_r by lra. reflexivity.
Qed.

(** [2^(N-k)] and [2^(N+k)] as multiples of [2^N]. *)
Lemma pow2R_down (N k v : Z) :
  (0 <= k)%Z -> (2 ^ k = v)%Z -> powerRZ 2 (N - k) = powerRZ 2 N / IZR v.
Proof.
  intros Hk Hv. replace (N - k)%Z with (N + Z.opp k)%Z by lia.
  rewrite powerRZ_add by lra. rewrite (pow2R_neg_val k v Hk Hv). reflexivity.
Qed.

Lemma pow2R_up (N k v : Z) :
  (0 <= k)%Z -> (2 ^ k = v)%Z -> powerRZ 2 (N + k) = powerRZ 2 N * IZR v.
Proof.
  intros Hk Hv. rewrite powerRZ_add by lra. rewrite (pow2R_val k v Hk Hv). reflexivity.
Qed.

Lemma B2R_pi64 : B2R pi64 = 7074237752028440 / 2251799813685248.
Proof.
  unfold B2R. rewrite Prim2SF_pi64. cbn [SF2R cond_Zopp].
  change (powerRZ 2 (-51)) with (powerRZ 2 (Z.opp 51)).
  rewrite (pow2R_neg_val 51 2251799813685248) by (reflexivity || lia). reflexivity.
Qed.

Lemma B2R_tau64 : B2R tau64 = 2 * B2R pi64.
Proof.
  rewrite B2R_pi64. unfold B2R. rewrite Prim2SF_tau64. cbn [SF2R cond_Zopp].
  change (powerRZ 2 (-50)) with (powerRZ 2 (Z.opp 50)).
  rewrite (pow2R_neg_val 50 1125899906842624) by (reflexivity || lia). lra.
Qed.

Lemma tau64_finite : SFfinite (Prim2SF tau64).
Proof. rewrite Prim2SF_tau64. exact I. Qed.

Lemma pi64_finite : SFfinite (Prim2SF pi64).
Proof. rewrite Prim2SF_pi64. exact I. Qed.

Lemma copysign64_pi64_R (r : float) :
  SFfinite (Prim2SF (copysign64 pi64 r)) /\
  (B2R (copysign64 pi64 r) = B2R pi64 \/ B2R (copysign64 pi64 r) = - B2R pi64).
Proof.
  unfold B2R. rewrite copysign64_spec, Prim2SF_pi64.
  destruct (SFsign (Prim2SF r)); cbn [SFabs SFopp negb SFfinite]; split; try exact I.
  - right. change (S754_finite true 7074237752028440 (-51))
      with (SFopp (S754_finite false 7074237752028440 (-51))).
    apply SF2R_opp.
  - left. reflexivity.
Qed.

(** [canonize] in binary64 takes a whole number of turns of 2*M_PI away, up
    to the rounding of its four operations: on doubles of magnitude at most
    [2^N] the result is within [2^(N-47)] of such a representative. *)
Lemma fromRad_binary64_turns (N : Z) (r : float) :
  (2 <= N <= 1022)%Z ->
  SFfinite (Prim2SF r) -> Rabs (B2R r) <= powerRZ 2 N ->
  exists k : Z,
    Rabs (B2R (getRad (fromRad r)) - (B2R r - IZR k * B2R tau64)) <= powerRZ 2 (N - 47).
Proof.
  intros HN Hfin Hr. rewrite canonize64_eq.
  pose proof (pow2R_pos (N - 47)) as HPerr.
  destruct ((pi64 <? r) || (r <=? - pi64))%float.
  2:{ exists 0%Z. replace (B2R r - (B2R r - 0 * B2R tau64)) with 0 by ring.
      rewrite Rabs_R0. lra. }
  rewrite (pow2R_down N 47 140737488355328) in * by (reflexivity || lia).
  assert (4 <= powerRZ 2 N) as HP4.
  { rewrite <- (pow2R_val 2 4) by (reflexivity || lia). apply pow2R_le. lia. }
  set (P := powerRZ 2 N) in *.
  apply Rabs_le_both in Hr.
  pose proof B2R_pi64 as Hpi. pose proof B2R_tau64 as Htau.
  destruct (copysign64_pi64_R r) as [Hsfin Hside].
  set (side := copysign64 pi64 r) in *.
  (* rad - side *)
  destruct (sub64_R r side (N + 1) Hfin Hsfin ltac:(lia)) as (Hxfin & Hxmag & Hxerr).
  { rewrite (pow2R_up N 1 2) by (reflexivity || lia). fold P.
    apply Rabs_def1; destruct Hside as [-> | ->]; lra. }
  set (x := (r - side)%float) in *.
  rewrite (pow2R_up N 1 2) in Hxmag by (reflexivity || lia).
  replace (N + 1 - 51)%Z with (N - 50)%Z in Hxerr by lia.
  rewrite (pow2R_down N 50 1125899906842624) in Hxerr by (reflexivity || lia).
  fold P in Hxmag, Hxerr.
  apply Rabs_le_both in Hxmag. apply Rabs_le_both in Hxerr.
  (* ... / (2*M_PI) *)
  destruct (div64_R x tau64 (N - 1) Hxfin tau64_finite) as (Hqfin & Hqmag & Hqerr).
  { lra. }
  { lia. }
  { rewrite (pow2R_down N 1 2) by (reflexivity || lia). fold P.
    rewrite Htau, Hpi. apply Rabs_def1; lra. }
  set (q := (x / tau64)%float) in *.
  replace (N - 1 - 50)%Z with (N - 51)%Z in Hqerr by lia.
  rewrite (pow2R_down N 51 2251799813685248) in Hqerr by (reflexivity || lia).
  fold P in Hqerr.
  apply Rabs_le_both in Hqerr.
  (* modf *)
  destruct (modf64_frac_R q Hqfin) as (Hffin & Hfmag & t & Hfval).
  set (f := fst (modf64 q)) in *.
  apply Rabs_le_both in Hfmag.
  (* 2*M_PI * ... *)
  destruct (mul64_R tau64 f 3 tau64_finite Hffin ltac:(lia)) as (Hyfin & Hymag & Hyerr).
  { rewrite (pow2R_val 3 8) by (reflexivity || lia).
    rewrite Htau, Hpi. apply Rabs_def1; lra. }
  set (y := (tau64 * f)%float) in *.
  rewrite (pow2R_val 3 8) in Hymag by (reflexivity || lia).
  change (3 - 51)%Z with (Z.opp 48) in Hyerr.
  rewrite (pow2R_neg_val 48 281474976710656) in Hyerr by (reflexivity || lia).
  apply Rabs_le_both in Hymag. apply Rabs_le_both in Hyerr.
  (* -side + ... *)
  destruct (opp64_R side) as [Hoval Hofin]. specialize (Hofin Hsfin).
  destruct (add64_R (- side) y 4 Hofin Hyfin ltac:(lia)) as (_ & _ & Hverr).
  { rewrite (pow2R_val 4 16) by (reflexivity || lia).
    rewrite Hoval. apply Rabs_def1; destruct Hside as [-> | ->]; lra. }
  change (4 - 51)%Z with (Z.opp 47) in Hverr.
  rewrite (pow2R_neg_val 47 140737488355328) in Hverr by (reflexivity || lia).
  apply Rabs_le_both in Hverr. rewrite Hoval in Hverr.
  rewrite Htau, Hpi in *.
  destruct Hside as [Hs | Hs]; rewrite Hs in *.
  - exists (t + 1)%Z. rewrite plus_IZR. apply Rabs_le. split; lra.
  - exists (t - 1)%Z. rewrite minus_IZR. apply Rabs_le. split; lra.
Qed.

End RealCanonize.

(** ** Degrees and sums up to rounding *)

Section RealAngles.
Local Open Scope R_scope.

Lemma scaled_le_R (b : Z) (m1 : positive) (e1 : Z) (m2 : positive) (e2 : Z) :
  (b <= e1)%Z -> (b <= e2)%Z ->
  (Zpos m1 * 2 ^ (e1 - b) <= Zpos m2 * 2 ^ (e2 - b))%Z ->
  IZR (Zpos m1) * powerRZ 2 e1 <= IZR (Zpos m2) * powerRZ 2 e2.
Proof.
  intros H1 H2 Hle. rewrite (pow2R_split b e1 H1), (pow2R_split b e2 H2).
  rewrite <- !Rmult_assoc, <- !mult_IZR.
  apply Rmult_le_compat_r; [left; apply pow2R_pos | apply IZR_le; exact Hle].
Qed.

(** A double between -M_PI and M_PI is finite, and so is its value. *)
Lemma closed64_R (v : float) :
  (- pi64 <=? v)%float = true -> (v <=? pi64)%float = true ->
  SFfinite (Prim2SF v) /\ Rabs (B2R v) <= B2R pi64.
Proof.
  intros Hlo Hhi. pose proof B2R_pi64 as Hpi.
  rewrite FloatAxioms.leb_spec in Hlo, Hhi.
  rewrite Prim2SF_opp_pi64 in Hlo. rewrite Prim2SF_pi64 in Hhi.
  unfold B2R in *. rewrite Prim2SF_pi64 in *.
  destruct (Prim2SF v) as [s | s | | s m e] eqn:Hv.
  - split; [exact I |]. cbn [SF2R] in *. rewrite Rabs_R0. lra.
  - destruct s; discriminate.
  - discriminate.
  - pose proof (Prim2SF_bounded _ _ _ _ Hv) as Hbd.
    split; [exact I |]. rewrite SF2R_finite_abs.
    cbn [SF2R cond_Zopp] in *.
    set (b := Z.min e (-51)).
    apply (scaled_le_R b); try (unfold b; lia).
    unfold SFleb in *. destruct s.
    + rewrite (SFcompare_finite_neg b) in Hlo
        by (auto using pi64_bounded; unfold b; lia).
      destruct (Z.compare_spec (Zpos m * 2 ^ (e - b))
                  (Zpos 7074237752028440 * 2 ^ (-51 - b))); try lia; discriminate.
    + rewrite (SFcompare_finite_pos b) in Hhi
        by (auto using pi64_bounded; unfold b; lia).
      destruct (Z.compare_spec (Zpos m * 2 ^ (e - b))
                  (Zpos 7074237752028440 * 2 ^ (-51 - b))); try lia; discriminate.
Qed.

Lemma SFfinite_not_nan (u : spec_float) : SFfinite u -> SFnot_nan u.
Proof. destruct u; simpl; auto. Qed.

Lemma Prim2SF_180 : Prim2SF (of_Z 180) = S754_finite false 6333186975989760 (-45).
Proof. vm_compute. reflexivity. Qed.

Lemma B2R_180 : B2R (of_Z 180) = 180.
Proof.
  unfold B2R. rewrite Prim2SF_180. cbn [SF2R cond_Zopp].
  change (powerRZ 2 (-45)) with (powerRZ 2 (Z.opp 45)).
  rewrite (pow2R_neg_val 45 35184372088832) by (reflexivity || lia). lra.
Qed.

Lemma c180_finite : SFfinite (Prim2SF (of_Z 180)).
Proof. rewrite Prim2SF_180. exact I. Qed.

(** Degrees to radians, in binary64. *)
Lemma deg2Rad_binary64_R (N : Z) (d : float) :
  (-1000 <= N <= 1022)%Z ->
  SFfinite (Prim2SF d) -> Rabs (B2R d) <= powerRZ 2 N ->
  SFfinite (Prim2SF (deg2Rad d)) /\
  Rabs (B2R (deg2Rad d)) <= powerRZ 2 (N - 5) /\
  Rabs (B2R (deg2Rad d) - B2R d / 180 * B2R pi64) <= powerRZ 2 (N - 54).
Proof.
  intros HN Hfin Hd. unfold deg2Rad. cbn [ddiv dmul lit M_PI libm64].
  pose proof B2R_pi64 as Hpi. pose proof B2R_180 as H180.
  pose proof (pow2R_pos N) as HP.
  rewrite (pow2R_down N 5 32), (pow2R_down N 54 18014398509481984) by (reflexivity || lia).
  set (P := powerRZ 2 N) in *.
  apply Rabs_le_both in Hd.
  destruct (div64_R d (of_Z 180) (N - 7) Hfin c180_finite) as (Hafin & Hamag & Haerr).
  { lra. }
  { lia. }
  { rewrite (pow2R_down N 7 128) by (reflexivity || lia). fold P.
    rewrite H180. apply Rabs_def1; lra. }
  set (a := (d / of_Z 180)%float) in *.
  rewrite (pow2R_down N 7 128) in Hamag by (reflexivity || lia).
  replace (N - 7 - 50)%Z with (N - 57)%Z in Haerr by lia.
  rewrite (pow2R_down N 57 144115188075855872) in Haerr by (reflexivity || lia).
  fold P in Hamag, Haerr.
  apply Rabs_le_both in Hamag. apply Rabs_le_both in Haerr.
  destruct (mul64_R a pi64 (N - 5) Hafin pi64_finite ltac:(lia)) as (Hrfin & Hrmag & Hrerr).
  { rewrite (pow2R_down N 5 32) by (reflexivity || lia). fold P.
    rewrite Hpi. apply Rabs_def1; lra. }
  rewrite (pow2R_down N 5 32) in Hrmag by (reflexivity || lia).
  replace (N - 5 - 51)%Z with (N - 56)%Z in Hrerr by lia.
  rewrite (pow2R_down N 56 72057594037927936) in Hrerr by (reflexivity || lia).
  fold P in Hrmag, Hrerr.
  split; [exact Hrfin | split; [exact Hrmag |]].
  apply Rabs_le_both in Hrerr. rewrite H180, Hpi in *.
  apply Rabs_le. split; lra.
Qed.

(** Radians to degrees, in binary64, on a value of the closed interval. *)
Lemma rad2Deg_binary64_R (v : float) :
  SFfinite (Prim2SF v) -> Rabs (B2R v) <= B2R pi64 ->
  Rabs (B2R (rad2Deg v) - B2R v / B2R pi64 * 180) <= powerRZ 2 (- 41).
Proof.
  intros Hfin Hv. unfold rad2Deg. cbn [ddiv dmul lit M_PI libm64].
  pose proof B2R_pi64 as Hpi. pose proof B2R_180 as H180.
  change (powerRZ 2 (-41)) with (powerRZ 2 (Z.opp 41)).
  rewrite (pow2R_neg_val 41 2199023255552) by (reflexivity || lia).
  apply Rabs_le_both in Hv.
  destruct (div64_R v pi64 1 Hfin pi64_finite) as (Hgfin & _ & Hgerr).
  { lra. }
  { lia. }
  { rewrite (pow2R_val 1 2) by (reflexivity || lia).
    rewrite Hpi in *. apply Rabs_def1; lra. }
  set (g := (v / pi64)%float) in *.
  change (1 - 50)%Z with (Z.opp 49) in Hgerr.
  rewrite (pow2R_neg_val 49 562949953421312) in Hgerr by (reflexivity || lia).
  apply Rabs_le_both in Hgerr.
  destruct (mul64_R g (of_Z 180) 8 Hgfin c180_finite ltac:(lia)) as (_ & _ & Herr).
  { rewrite (pow2R_val 8 256) by (reflexivity || lia).
    rewrite H180, Hpi in *. apply Rabs_def1; lra. }
  change (8 - 51)%Z with (Z.opp 43) in Herr.
  rewrite (pow2R_neg_val 43 8796093022208) in Herr by (reflexivity || lia).
  apply Rabs_le_both in Herr. rewrite H180, Hpi in *.
  apply Rabs_le. split; lra.
Qed.

(** The round trip through degrees, in binary64. *)
Lemma fromDeg_getDeg_binary64_turns (N : Z) (d : float) :
  (7 <= N <= 1022)%Z ->
  SFfinite (Prim2SF d) -> Rabs (B2R d) <= powerRZ 2 N ->
  exists k : Z,
    Rabs (B2R (getDeg (fromDeg d)) - (B2R d - 360 * IZR k)) <= powerRZ 2 (N - 45).
Proof.
  intros HN Hfin Hd.
  change (fromDeg d) with (fromRad (deg2Rad d)).
  change (getDeg (fromRad (deg2Rad d))) with (rad2Deg (getRad (fromRad (deg2Rad d)))).
  destruct (deg2Rad_binary64_R N d ltac:(lia) Hfin Hd) as (Hrfin & Hrmag & Hrerr).
  set (r0 := deg2Rad d) in *.
  destruct (fromRad_binary64_turns (N - 5) r0 ltac:(lia) Hrfin Hrmag) as [k Hk].
  destruct (fromRad_binary64_closed r0 (SFfinite_not_nan _ Hrfin)) as [Hlo Hhi].
  destruct (closed64_R _ Hlo Hhi) as [Hvfin Hvmag].
  pose proof (rad2Deg_binary64_R _ Hvfin Hvmag) as Hdeg.
  set (v := getRad (fromRad r0)) in *.
  exists k.
  pose proof B2R_pi64 as Hpi. pose proof B2R_tau64 as Htau.
  assert (128 <= powerRZ 2 N) as HP.
  { rewrite <- (pow2R_val 7 128) by (reflexivity || lia). apply pow2R_le. lia. }
  replace (N - 5 - 47)%Z with (N - 52)%Z in Hk by lia.
  rewrite (pow2R_down N 52 4503599627370496) in Hk by (reflexivity || lia).
  rewrite (pow2R_down N 54 18014398509481984) in Hrerr by (reflexivity || lia).
  rewrite (pow2R_down N 45 35184372088832) by (reflexivity || lia).
  change (powerRZ 2 (-41)) with (powerRZ 2 (Z.opp 41)) in Hdeg.
  rewrite (pow2R_neg_val 41 2199023255552) in Hdeg by (reflexivity || lia).
  set (P := powerRZ 2 N) in *.
  apply Rabs_le_both in Hk. apply Rabs_le_both in Hrerr. apply Rabs_le_both in Hdeg.
  rewrite Htau, Hpi in *.
  apply Rabs_le. split; lra.
Qed.


End RealAngles.

Section RealOperators.
Local Open Scope R_scope.

(** The difference of two angles of the closed interval, in binary64. *)
Lemma operator_sub_binary64_turns (a b : Angle float) :
  ((- pi64 <=? getRad a)%float = true /\ (getRad a <=? pi64)%float = true) ->
  ((- pi64 <=? getRad b)%float = true /\ (getRad b <=? pi64)%float = true) ->
  exists k : Z,
    Rabs (B2R (getRad (operator_sub a b)) -
          (B2R (getRad a) - B2R (getRad b) - IZR k * B2R tau64)) <= powerRZ 2 (- 43).
Proof.
  intros [Ha1 Ha2] [Hb1 Hb2].
  destruct (closed64_R _ Ha1 Ha2) as [Hafin Hamag].
  destruct (closed64_R _ Hb1 Hb2) as [Hbfin Hbmag].
  unfold operator_sub. cbn [dsub libm64].
  pose proof B2R_pi64 as Hpi. pose proof B2R_tau64 as Htau.
  apply Rabs_le_both in Hamag. apply Rabs_le_both in Hbmag.
  destruct (sub64_R (getRad a) (getRad b) 3 Hafin Hbfin ltac:(lia)) as (Hsfin & Hsmag & Hserr).
  { rewrite (pow2R_val 3 8) by (reflexivity || lia). apply Rabs_def1; lra. }
  destruct (fromRad_binary64_turns 3 _ ltac:(lia) Hsfin Hsmag) as [k Hk].
  exists k.
  change (3 - 51)%Z with (Z.opp 48) in Hserr. change (3 - 47)%Z with (Z.opp 44) in Hk.
  rewrite (pow2R_neg_val 48 281474976710656) in Hserr by (reflexivity || lia).
  rewrite (pow2R_neg_val 44 17592186044416) in Hk by (reflexivity || lia).
  change (powerRZ 2 (-43)) with (powerRZ 2 (Z.opp 43)).
  rewrite (pow2R_neg_val 43 8796093022208) by (reflexivity || lia).
  apply Rabs_le_both in Hserr. apply Rabs_le_both in Hk.
  apply Rabs_le. split; lra.
Qed.

(** The product of an angle of the closed interval by a scalar of magnitude
    at most [2^N], in binary64. *)
Lemma operator_mul_binary64_turns (N : Z) (a : Angle float) (c : float) :
  (0 <= N <= 1020)%Z ->
  ((- pi64 <=? getRad a)%float = true /\ (getRad a <=? pi64)%float = true) ->
  SFfinite (Prim2SF c) -> Rabs (B2R c) <= powerRZ 2 N ->
  exists k : Z,
    Rabs (B2R (getRad (operator_mul a c)) -
          (B2R (getRad a) * B2R c - IZR k * B2R tau64)) <= powerRZ 2 (N - 44).
Proof.
  intros HN [Ha1 Ha2] Hcfin Hc.
  destruct (closed64_R _ Ha1 Ha2) as [Hafin Hamag].
  unfold operator_mul. cbn [dmul libm64].
  pose proof B2R_pi64 as Hpi. pose proof (pow2R_pos N) as HP.
  destruct (mul64_R (getRad a) c (N + 2) Hafin Hcfin ltac:(lia)) as (Hpfin & Hpmag & Hperr).
  { rewrite (pow2R_up N 2 4) by (reflexivity || lia).
    rewrite Rabs_mult.
    assert (0 <= Rabs (B2R (getRad a))) by apply Rabs_pos.
    assert (0 <= Rabs (B2R c)) by apply Rabs_pos.
    rewrite Hpi in Hamag. nra. }
  destruct (fromRad_binary64_turns (N + 2) _ ltac:(lia) Hpfin Hpmag) as [k Hk].
  exists k.
  replace (N + 2 - 51)%Z with (N - 49)%Z in Hperr by lia.
  replace (N + 2 - 47)%Z with (N - 45)%Z in Hk by lia.
  rewrite (pow2R_down N 49 562949953421312) in Hperr by (reflexivity || lia).
  rewrite (pow2R_down N 45 35184372088832) in Hk by (reflexivity || lia).
  rewrite (pow2R_down N 44 17592186044416) by (reflexivity || lia).
  set (P := powerRZ 2 N) in *.
  apply Rabs_le_both in Hperr. apply Rabs_le_both in Hk.
  apply Rabs_le. split; lra.
Qed.

End RealOperators.

Section Refutations.
Local Open Scope R_scope.

Lemma B2R_3e16 :
  B2R (of_Z 30000000000000000) = 30000000000000000 /\
  B2R (of_Z 30000000000000004) = 30000000000000004.
Proof.
  unfold B2R.
  replace (Prim2SF (of_Z 30000000000000000))
    with (S754_finite false 7500000000000000 2) by (vm_compute; reflexivity).
  replace (Prim2SF (of_Z 30000000000000004))
    with (S754_finite false 7500000000000001 2) by (vm_compute; reflexivity).
  cbn [SF2R cond_Zopp]. rewrite (pow2R_val 2 4) by (reflexivity || lia). split; lra.
Qed.

Lemma fromRad_binary64_3e16 :
  getRad (fromRad (of_Z 30000000000000000)) = (- pi64)%float /\
  getRad (fromRad (of_Z 30000000000000004)) = (- pi64)%float.
Proof. split; vm_compute; reflexivity. Qed.

(** Four is not near a multiple of a number above six. *)
Lemma four_off_multiples (T : R) (j : Z) : 6 < T -> 1 < Rabs (4 - T * IZR j).
Proof.
  intros HT. destruct (Z_lt_le_dec j 1) as [Hj | Hj].
  - assert (IZR j <= 0) by (apply IZR_le; lia).
    rewrite Rabs_right by nra. nra.
  - assert (1 <= IZR j) by (apply IZR_le; lia).
    rewrite Rabs_left by nra. nra.
Qed.

(** Two doubles four apart that [fromRad] sends to the same value are not
    both congruent to it, whatever is taken for the turn between 6 and 8. *)
Lemma fromRad_binary64_3e16_not_congruent (T : R) :
  6 < T ->
  ~ ((exists k : Z,
        Rabs (B2R (getRad (fromRad (of_Z 30000000000000000))) -
              (B2R (of_Z 30000000000000000) - T * IZR k)) <= / 2) /\
     (exists k : Z,
        Rabs (B2R (getRad (fromRad (of_Z 30000000000000004))) -
              (B2R (of_Z 30000000000000004) - T * IZR k)) <= / 2)).
Proof.
  intros HT [[k1 H1] [k2 H2]].
  destruct fromRad_binary64_3e16 as [E1 E2]. rewrite E1 in H1. rewrite E2 in H2.
  destruct B2R_3e16 as [V1 V2]. rewrite V1 in H1. rewrite V2 in H2.
  pose proof (four_off_multiples T (k2 - k1) HT) as Hoff.
  rewrite minus_IZR in Hoff.
  apply Rabs_le_both in H1. apply Rabs_le_both in H2.
  set (v := B2R (- pi64)%float) in *.
  assert (Rabs (4 - T * (IZR k2 - IZR k1)) <= 1); [| lra].
  apply Rabs_le. split; lra.
Qed.

Lemma finite_3e16 :
  SFfinite (Prim2SF (of_Z 30000000000000000)) /\
  SFfinite (Prim2SF (of_Z 30000000000000004)).
Proof. split; vm_compute; exact I. Qed.

Lemma B2R_1e17_round_trip :
  B2R (of_Z 100000000000000000) = 100000000000000000 /\
  B2R (getDeg (fromDeg (of_Z 100000000000000000))) = -90.
Proof.
  unfold B2R.
  replace (Prim2SF (of_Z 100000000000000000))
    with (S754_finite false 6250000000000000 4) by (vm_compute; reflexivity).
  replace (Prim2SF (getDeg (fromDeg (of_Z 100000000000000000))))
    with (S754_finite true 6333186975989760 (-46)) by (vm_compute; reflexivity).
  cbn [SF2R cond_Zopp Z.opp]. rewrite (pow2R_val 4 16) by (reflexivity || lia).
  change (powerRZ 2 (-46)) with (powerRZ 2 (Z.opp 46)).
  rewrite (pow2R_neg_val 46 70368744177664) by (reflexivity || lia). split; lra.
Qed.

Lemma fromDeg_binary64_170_order :
  Prim2SF (getRad (fromDeg (of_Z 170))) = S754_finite false 6681224543582415 (-51) /\
  Prim2SF (getRad (fromRad (of_Z 170 * pi64 / of_Z 180)%float)) =
    S754_finite false 6681224543582416 (-51).
Proof. split; vm_compute; reflexivity. Qed.

End Refutations.

(** ** The claims about congruence, in binary64 *)

Section Instances.
Local Open Scope R_scope.

Lemma B2R_7 : B2R (of_Z 7) = 7.
Proof.
  unfold B2R.
  replace (Prim2SF (of_Z 7)) with (S754_finite false 7881299347898368 (-50))
    by (vm_compute; reflexivity).
  cbn [SF2R cond_Zopp]. change (powerRZ 2 (-50)) with (powerRZ 2 (Z.opp 50)).
  rewrite (pow2R_neg_val 50 1125899906842624) by (reflexivity || lia). lra.
Qed.

Lemma B2R_400 : B2R (of_Z 400) = 400.
Proof.
  unfold B2R.
  replace (Prim2SF (of_Z 400)) with (S754_finite false 7036874417766400 (-44))
    by (vm_compute; reflexivity).
  cbn [SF2R cond_Zopp]. change (powerRZ 2 (-44)) with (powerRZ 2 (Z.opp 44)).
  rewrite (pow2R_neg_val 44 17592186044416) by (reflexivity || lia). lra.
Qed.

Lemma B2R_3 : B2R 3%float = 3.
Proof.
  unfold B2R.
  replace (Prim2SF 3%float) with (S754_finite false 6755399441055744 (-51))
    by (vm_compute; reflexivity).
  cbn [SF2R cond_Zopp]. change (powerRZ 2 (-51)) with (powerRZ 2 (Z.opp 51)).
  rewrite (pow2R_neg_val 51 2251799813685248) by (reflexivity || lia). lra.
Qed.

End Instances.

(** C2, as stated, fails on doubles, for the turn 2*pi and for the turn
    2*M_PI alike: fromRad sends 30000000000000000 and 30000000000000004 to
    the same double, -M_PI, and two numbers that are 4 apart are not both a
    whole number of turns away from it. *)
Lemma fromRad_binary64_not_congruent :
  ~ (forall r : float,
        SFfinite (Prim2SF r) ->
        exists k : Z, B2R (getRad (fromRad r)) = (B2R r - 2 * PI * IZR k)%R) /\
  ~ (forall r : float,
        SFfinite (Prim2SF r) ->
        exists k : Z, B2R (getRad (fromRad r)) = (B2R r - 2 * B2R pi64 * IZR k)%R).
Proof.
  assert (forall T : R,
            (6 < T)%R ->
            ~ (forall r : float,
                  SFfinite (Prim2SF r) ->
                  exists k : Z, B2R (getRad (fromRad r)) = (B2R r - T * IZR k)%R)) as H.
  { intros T HT Hall. apply (fromRad_binary64_3e16_not_congruent T HT).
    destruct finite_3e16 as [F1 F2].
    split; [destruct (Hall _ F1) as [k Hk] | destruct (Hall _ F2) as [k Hk]];
      exists k; rewrite Hk;
      match goal with |- (Rabs ?t <= _)%R => replace t with 0%R by ring end;
      rewrite Rabs_R0; lra. }
  split.
  - apply H. pose proof PI2_3_2. lra.
  - apply H. rewrite B2R_pi64. lra.
Qed.

(** C2, as amended: on a finite double r of magnitude at most 2^N, the value
    of fromRad(r) lies in [-M_PI, M_PI] and is within 2^(N-47) of
    r - 2*M_PI*k for an integer k; it is r itself when r passes the two
    guards of canonize. *)
Theorem fromRad_binary64_congruent_up_to_rounding :
  forall (N : Z) (r : float),
    (2 <= N <= 1022)%Z ->
    SFfinite (Prim2SF r) -> (Rabs (B2R r) <= powerRZ 2 N)%R ->
    ((- pi64 <=? getRad (fromRad r))%float = true /\
     (getRad (fromRad r) <=? pi64)%float = true) /\
    (exists k : Z,
        (Rabs (B2R (getRad (fromRad r)) - (B2R r - 2 * B2R pi64 * IZR k))
         <= powerRZ 2 (N - 47))%R) /\
    ((- pi64 <? r)%float = true -> (r <=? pi64)%float = true ->
     getRad (fromRad r) = r).
Proof.
  intros N r HN Hfin Hr. repeat apply conj.
  - apply fromRad_binary64_closed, SFfinite_not_nan, Hfin.
  - apply fromRad_binary64_closed, SFfinite_not_nan, Hfin.
  - destruct (fromRad_binary64_turns N r HN Hfin Hr) as [k Hk].
    exists k. rewrite B2R_tau64 in Hk.
    replace (2 * B2R pi64 * IZR k)%R with (IZR k * (2 * B2R pi64))%R by ring.
    exact Hk.
  - apply fromRad_binary64_canonical.
Qed.

Lemma fromRad_binary64_congruent_up_to_rounding_witness :
  (2 <= 3 <= 1022)%Z /\
  SFfinite (Prim2SF (of_Z 7)) /\
  (Rabs (B2R (of_Z 7)) <= powerRZ 2 3)%R /\
  exists k : Z,
    (Rabs (B2R (getRad (fromRad (of_Z 7))) - (B2R (of_Z 7) - 2 * B2R pi64 * IZR k))
     <= powerRZ 2 (3 - 47))%R.
Proof.
  assert (2 <= 3 <= 1022)%Z as H1 by lia.
  assert (SFfinite (Prim2SF (of_Z 7))) as H2 by (vm_compute; exact I).
  assert (Rabs (B2R (of_Z 7)) <= powerRZ 2 3)%R as H3.
  { rewrite B2R_7, Rabs_right by lra. simpl. lra. }
  split; [exact H1 | split; [exact H2 | split; [exact H3 |]]].
  exact (proj1 (proj2 (fromRad_binary64_congruent_up_to_rounding 3 (of_Z 7) H1 H2 H3))).
Defined.



(** C7, as stated, fails on doubles: fromDeg(170) is not the angle that
    fromRad makes of the double 170 * M_PI / 180 (they differ in the last
    place), and fromDeg(1e17).getDeg() is -90, which is 10 away from every
    number congruent to 1e17 modulo 360. *)
Lemma fromDeg_getDeg_binary64_not_round_trip :
  getRad (fromDeg (of_Z 170)) <>
    getRad (fromRad (of_Z 170 * pi64 / of_Z 180)%float) /\
  (forall k : Z,
      (10 <= Rabs (B2R (getDeg (fromDeg (of_Z 100000000000000000))) -
                   (B2R (of_Z 100000000000000000) - 360 * IZR k)))%R).
Proof.
  split.
  - intros Heq. apply (f_equal Prim2SF) in Heq.
    destruct fromDeg_binary64_170_order as [Hl Hr].
    rewrite Hl, Hr in Heq. discriminate Heq.
  - intros k. destruct B2R_1e17_round_trip as [Hd Hv]. rewrite Hd, Hv.
    replace (-90 - (100000000000000000 - 360 * IZR k))%R
      with (IZR (360 * k - 100000000000000090)) by (rewrite minus_IZR, mult_IZR; lra).
    rewrite <- abs_IZR. apply IZR_le. lia.
Qed.

(** C7, as amended: in binary64 fromDeg(d) is fromRad of the double
    d / 180 * M_PI and getDeg() is getRad() / M_PI * 180, each computed in
    this order; for a finite double d of magnitude at most 2^N the value of
    fromDeg(d).getDeg() is within 2^(N-45) of d - 360*k for an integer k. *)
Theorem fromDeg_getDeg_binary64_round_trip :
  (forall d : float, fromDeg d = fromRad (d / of_Z 180 * pi64)%float) /\
  (forall a : Angle float, getDeg a = (getRad a / pi64 * of_Z 180)%float) /\
  (forall (N : Z) (d : float),
      (7 <= N <= 1022)%Z ->
      SFfinite (Prim2SF d) -> (Rabs (B2R d) <= powerRZ 2 N)%R ->
      exists k : Z,
        (Rabs (B2R (getDeg (fromDeg d)) - (B2R d - 360 * IZR k))
         <= powerRZ 2 (N - 45))%R).
Proof.
  repeat apply conj.
  - reflexivity.
  - reflexivity.
  - exact fromDeg_getDeg_binary64_turns.
Qed.

Lemma fromDeg_getDeg_binary64_round_trip_witness :
  (7 <= 9 <= 1022)%Z /\
  SFfinite (Prim2SF (of_Z 400)) /\
  (Rabs (B2R (of_Z 400)) <= powerRZ 2 9)%R /\
  exists k : Z,
    (Rabs (B2R (getDeg (fromDeg (of_Z 400))) - (B2R (of_Z 400) - 360 * IZR k))
     <= powerRZ 2 (9 - 45))%R.
Proof.
  assert (7 <= 9 <= 1022)%Z as H1 by lia.
  assert (SFfinite (Prim2SF (of_Z 400))) as H2 by (vm_compute; exact I).
  assert (Rabs (B2R (of_Z 400)) <= powerRZ 2 9)%R as H3.
  { rewrite B2R_400, Rabs_right by lra. simpl. lra. }
  split; [exact H1 | split; [exact H2 | split; [exact H3 |]]].
  exact (proj2 (proj2 fromDeg_getDeg_binary64_round_trip) 9%Z (of_Z 400) H1 H2 H3).
Defined.

(** ** Further properties, in binary64 *)

(** X2: in binary64 a double that passes the two guards of canonize,
    -M_PI < r and r <= M_PI, is stored as it is. *)
Theorem fromRad_binary64_keeps_canonical :
  forall r : float,
    (- pi64 <? r)%float = true -> (r <=? pi64)%float = true ->
    getRad (fromRad r) = r.
Proof. exact fromRad_binary64_canonical. Qed.

Lemma fromRad_binary64_keeps_canonical_witness :
  (- pi64 <? 1)%float = true /\ (1 <=? pi64)%float = true /\
  getRad (fromRad 1%float) = 1%float.
Proof.
  split; [reflexivity | split; [reflexivity |]].
  apply fromRad_binary64_keeps_canonical; reflexivity.
Defined.

(** X8: in binary64 the sum of two angles does not depend on their order,
    whatever doubles they hold. *)
Theorem operator_add_binary64_commutative :
  forall a b : Angle float, operator_add a b = operator_add b a.
Proof. exact operator_add_binary64_comm. Qed.

(** X9: in binary64 the difference of an angle with itself holds +0, for
    every angle whose double passes the two guards of canonize. *)
Theorem operator_sub_binary64_self :
  forall a : Angle float,
    (- pi64 <? getRad a)%float = true -> (getRad a <=? pi64)%float = true ->
    getRad (operator_sub a a) = 0%float.
Proof. exact operator_sub_binary64_diag. Qed.

Lemma operator_sub_binary64_self_witness :
  (- pi64 <? getRad (fromRad 1%float))%float = true /\
  (getRad (fromRad 1%float) <=? pi64)%float = true /\
  getRad (operator_sub (fromRad 1%float) (fromRad 1%float)) = 0%float.
Proof.
  split; [reflexivity | split; [reflexivity |]].
  apply operator_sub_binary64_self; reflexivity.
Defined.

(** X19: in binary64 the difference of two angles with values in
    [-M_PI, M_PI] has a value in [-M_PI, M_PI] that is within 2^-43 of
    a.getRad() - b.getRad() - 2*M_PI*k for an integer k. *)
Theorem operator_sub_binary64_wraps :
  forall a b : Angle float,
    ((- pi64 <=? getRad a)%float = true /\ (getRad a <=? pi64)%float = true) ->
    ((- pi64 <=? getRad b)%float = true /\ (getRad b <=? pi64)%float = true) ->
    ((- pi64 <=? getRad (operator_sub a b))%float = true /\
     (getRad (operator_sub a b) <=? pi64)%float = true) /\
    exists k : Z,
      (Rabs (B2R (getRad (operator_sub a b)) -
             (B2R (getRad a) - B2R (getRad b) - 2 * B2R pi64 * IZR k))
       <= powerRZ 2 (- 43))%R.
Proof.
  intros a b Ha Hb. split.
  - exact (proj1 (proj2 (operators_binary64_closed a b 0%float Ha Hb eq_refl))).
  - destruct (operator_sub_binary64_turns a b Ha Hb) as [k Hk].
    exists k. rewrite B2R_tau64 in Hk.
    replace (2 * B2R pi64 * IZR k)%R with (IZR k * (2 * B2R pi64))%R by ring.
    exact Hk.
Qed.

Lemma operator_sub_binary64_wraps_witness :
  ((- pi64 <=? getRad (fromDeg (of_Z (-170))))%float = true /\
   (getRad (fromDeg (of_Z (-170))) <=? pi64)%float = true) /\
  ((- pi64 <=? getRad (fromDeg (of_Z 20)))%float = true /\
   (getRad (fromDeg (of_Z 20)) <=? pi64)%float = true) /\
  exists k : Z,
    (Rabs (B2R (getRad (operator_sub (fromDeg (of_Z (-170))) (fromDeg (of_Z 20)))) -
           (B2R (getRad (fromDeg (of_Z (-170)))) - B2R (getRad (fromDeg (of_Z 20))) -
            2 * B2R pi64 * IZR k))
     <= powerRZ 2 (- 43))%R.
Proof.
  assert ((- pi64 <=? getRad (fromDeg (of_Z (-170))))%float = true /\
          (getRad (fromDeg (of_Z (-170))) <=? pi64)%float = true) as Ha
    by (split; vm_compute; reflexivity).
  assert ((- pi64 <=? getRad (fromDeg (of_Z 20)))%float = true /\
          (getRad (fromDeg (of_Z 20)) <=? pi64)%float = true) as Hb
    by (split; vm_compute; reflexivity).
  split; [exact Ha | split; [exact Hb |]].
  exact (proj2 (operator_sub_binary64_wraps
                  (fromDeg (of_Z (-170))) (fromDeg (of_Z 20)) Ha Hb)).
Defined.

(** X20: the accuracy of the two static conversions in binary64:
    deg2Rad(d) is within 2^(N-54) of d / 180 * M_PI for a finite double d of
    magnitude at most 2^N, and rad2Deg(v) is within 2^-41 of v / M_PI * 180
    for a double v of [-M_PI, M_PI]. *)
Theorem deg2Rad_rad2Deg_binary64_accuracy :
  (forall (N : Z) (d : float),
      (-1000 <= N <= 1022)%Z ->
      SFfinite (Prim2SF d) -> (Rabs (B2R d) <= powerRZ 2 N)%R ->
      (Rabs (B2R (deg2Rad d) - B2R d / 180 * B2R pi64) <= powerRZ 2 (N - 54))%R) /\
  (forall v : float,
      (- pi64 <=? v)%float = true -> (v <=? pi64)%float = true ->
      (Rabs (B2R (rad2Deg v) - B2R v / B2R pi64 * 180) <= powerRZ 2 (- 41))%R).
Proof.
  split.
  - intros N d HN Hfin Hd. apply deg2Rad_binary64_R; assumption.
  - intros v Hlo Hhi. destruct (closed64_R v Hlo Hhi) as [Hfin Hmag].
    apply rad2Deg_binary64_R; assumption.
Qed.

Lemma deg2Rad_rad2Deg_binary64_accuracy_witness :
  (-1000 <= 9 <= 1022)%Z /\
  SFfinite (Prim2SF (of_Z 400)) /\
  (Rabs (B2R (of_Z 400)) <= powerRZ 2 9)%R /\
  (Rabs (B2R (deg2Rad (of_Z 400)) - B2R (of_Z 400) / 180 * B2R pi64)
   <= powerRZ 2 (9 - 54))%R.
Proof.
  assert (-1000 <= 9 <= 1022)%Z as H1 by lia.
  assert (SFfinite (Prim2SF (of_Z 400))) as H2 by (vm_compute; exact I).
  assert (Rabs (B2R (of_Z 400)) <= powerRZ 2 9)%R as H3.
  { rewrite B2R_400, Rabs_right by lra. simpl. lra. }
  split; [exact H1 | split; [exact H2 | split; [exact H3 |]]].
  exact (proj1 deg2Rad_rad2Deg_binary64_accuracy 9%Z (of_Z 400) H1 H2 H3).
Defined.

(** X21: in binary64 the product of an angle with a value in [-M_PI, M_PI]
    by a finite scalar c of magnitude at most 2^N is within 2^(N-44) of
    a.getRad() * c - 2*M_PI*k for an integer k, on either side of the
    operator. *)
Theorem operator_mul_binary64_wraps :
  forall (N : Z) (a : Angle float) (c : float),
    (0 <= N <= 1020)%Z ->
    ((- pi64 <=? getRad a)%float = true /\ (getRad a <=? pi64)%float = true) ->
    SFfinite (Prim2SF c) -> (Rabs (B2R c) <= powerRZ 2 N)%R ->
    (exists k : Z,
        (Rabs (B2R (getRad (operator_mul a c)) -
               (B2R (getRad a) * B2R c - 2 * B2R pi64 * IZR k))
         <= powerRZ 2 (N - 44))%R) /\
    operator_mul_l c a = operator_mul a c.
Proof.
  intros N a c HN Ha Hfin Hc. split.
  - destruct (operator_mul_binary64_turns N a c HN Ha Hfin Hc) as [k Hk].
    exists k. rewrite B2R_tau64 in Hk.
    replace (2 * B2R pi64 * IZR k)%R with (IZR k * (2 * B2R pi64))%R by ring.
    exact Hk.
  - unfold operator_mul, operator_mul_l. f_equal. apply mul64_comm.
Qed.

Lemma operator_mul_binary64_wraps_witness :
  (0 <= 2 <= 1020)%Z /\
  ((- pi64 <=? getRad (fromRad pi64))%float = true /\
   (getRad (fromRad pi64) <=? pi64)%float = true) /\
  SFfinite (Prim2SF 3%float) /\
  (Rabs (B2R 3%float) <= powerRZ 2 2)%R /\
  exists k : Z,
    (Rabs (B2R (getRad (operator_mul (fromRad pi64) 3%float)) -
           (B2R (getRad (fromRad pi64)) * B2R 3%float - 2 * B2R pi64 * IZR k))
     <= powerRZ 2 (2 - 44))%R.
Proof.
  assert (0 <= 2 <= 1020)%Z as H1 by lia.
  assert ((- pi64 <=? getRad (fromRad pi64))%float = true /\
          (getRad (fromRad pi64) <=? pi64)%float = true) as H2
    by (split; vm_compute; reflexivity).
  assert (SFfinite (Prim2SF 3%float)) as H3 by (vm_compute; exact I).
  assert (Rabs (B2R 3%float) <= powerRZ 2 2)%R as H4.
  { rewrite B2R_3, Rabs_right by lra. simpl. lra. }
  split; [exact H1 | split; [exact H2 | split; [exact H3 | split; [exact H4 |]]]].
  exact (proj1 (operator_mul_binary64_wraps 2%Z (fromRad pi64) 3%float H1 H2 H3 H4)).
Defined.
